(** * Prediction-drift tracker for one bus route: a shallow embedding of
    [script/poll_430.py] and the properties of its scoring engine.

    Python integers are [Z].  A JSON object read with [.get] is a record of
    options ([None] = key absent or JSON null).  Dictionaries are
    insertion-ordered association lists, because the program iterates over
    them ([items()]) and Python dictionaries iterate in insertion order.
    The float [sumDriftSec] only ever receives integer summands and is kept
    as an exact integer; the quotients computed by the exporter, and their
    rounding, are taken on exact rationals, so the last binary digit of a
    double is not modelled. *)

From Stdlib Require Import ZArith QArith Qabs Qround String List Lia Lqa.
From stdpp Require Import base decidable option list strings sorting.

Open Scope Z_scope.

(** ** Insertion-ordered dictionaries *)

Section dict.
Context {K V : Type} `{EqDecision K}.

(** [d.get(k)] *)
Fixpoint dget (k : K) (d : list (K * V)) : option V :=
  match d with
  | [] => None
  | (k', v) :: d' => if decide (k = k') then Some v else dget k d'
  end.

(** [d[k] = v]: an existing key keeps its position, a new key goes last. *)
Fixpoint dset (k : K) (v : V) (d : list (K * V)) : list (K * V) :=
  match d with
  | [] => [(k, v)]
  | (k', v') :: d' =>
      if decide (k = k') then (k', v) :: d' else (k', v') :: dset k v d'
  end.

(** [d.pop(k, None)] *)
Fixpoint dpop (k : K) (d : list (K * V)) : list (K * V) :=
  match d with
  | [] => []
  | (k', v') :: d' =>
      if decide (k = k') then dpop k d' else (k', v') :: dpop k d'
  end.

(** [d.setdefault(k, v)]: the stored value and the dictionary afterwards. *)
Definition dsetdefault (k : K) (v : V) (d : list (K * V)) : V * list (K * V) :=
  match dget k d with
  | Some v' => (v', d)
  | None => (v, dset k v d)
  end.
End dict.

(** ** Constants (tuning knobs) *)

Definition ARRIVAL_TTS_SEC : Z := 30.
Definition PREDICTION_MAX_AGE_SEC : Z := 25 * 60.
Definition PHANTOM_GRACE_SEC : Z := 6 * 60.

(** ** Data *)

(** One record of the arrivals feed, as seen through [a.get(...)]. *)
Module Arrival.
Record t := mk {
  naptanId : option string;
  vehicleId : option string;
  timeToStation : option Z;
  expectedArrival : option string;
  stationName : option string;
  platformName : option string
}.
End Arrival.

(** The answer of the StopPoint lookup, as seen through [sp.get(...)]. *)
Module StopPoint.
Record t := mk {
  lat : option Q;
  lon : option Q;
  commonName : option string
}.
End StopPoint.

(** [state["stops"][stop_id]] *)
Record Stop := mkStop {
  lat : option Q;
  lon : option Q;
  name : string
}.

(** One entry of [state["predictions"][stop_id]].  The keys
    [actualArrivalTs] and [driftSec] are absent until a match; the key
    [phantom] is either absent ([false]) or [True]. *)
Record Prediction := mkPrediction {
  vehicleId : string;
  predictionTs : Z;
  timeToStation : Z;
  expectedArrivalTs : Z;
  matched : bool;
  actualArrivalTs : option Z;
  driftSec : option Z;
  phantom : bool
}.

(** [state["stopStats"][stop_id]] *)
Record StopStats := mkStopStats {
  samples : Z;
  sumDriftSec : Z;
  phantoms : Z
}.

(** The state object, without [lastUpdated], which no function reads. *)
Record State := mkState {
  direction : string;
  stops : list (string * Stop);
  predictions : list (string * list Prediction);
  stopStats : list (string * StopStats)
}.

(** The lifecycle of a prediction, read off its two flags. *)
Inductive Status := Open | Matched | Phantom.

Definition status (p : Prediction) : Status :=
  if matched p then (if phantom p then Phantom else Matched) else Open.

#[global] Instance Status_eq_dec : EqDecision Status.
Proof. solve_decision. Defined.

#[global] Instance Prediction_eq_dec : EqDecision Prediction.
Proof. solve_decision. Defined.

(** Python truthiness of an optional string: [None] and [""] are falsy. *)
Definition truthy (o : option string) : option string :=
  match o with
  | Some s => if decide (s = EmptyString) then None else Some s
  | None => None
  end.

(** [x or y] where [y] is a string *)
Definition or_else (x : option string) (y : string) : string :=
  default y (truthy x).

Definition empty_stats : StopStats := mkStopStats 0 0 0.

Definition empty_state (dir : string) : State := mkState dir [] [] [].

(** A function that either returns or raises after having mutated its
    argument in place up to that point. *)
Inductive outcome (A : Type) :=
  | Returned (a : A)
  | Raised (partial : A).
Arguments Returned {A} a.
Arguments Raised {A} partial.

(** The object as the function left it, however it ended. *)
Definition outcome_state {A} (o : outcome A) : A :=
  match o with Returned a => a | Raised a => a end.

(** ** The Arrival Matcher and Phantom Reaper: [detect_arrivals_and_score] *)

(** The index [curr]: (stop, vehicle) -> tts.  A later record of the batch
    for the same pair overwrites the value and keeps the key's position. *)
Definition index_step (curr : list ((string * string) * Z)) (a : Arrival.t)
  : list ((string * string) * Z) :=
  match truthy (Arrival.naptanId a), truthy (Arrival.vehicleId a),
        Arrival.timeToStation a with
  | Some stop_id, Some veh_id, Some tts => dset (stop_id, veh_id) tts curr
  | _, _, _ => curr
  end.

Definition index_arrivals (arrivals : list Arrival.t)
  : list ((string * string) * Z) :=
  fold_left index_step arrivals [].

(** The scan [for p in preds: if (not matched) and vehicleId == veh_id: ...
    break]: position and value of the candidate. *)
Fixpoint find_candidate (veh_id : string) (preds : list Prediction)
  : option (nat * Prediction) :=
  match preds with
  | [] => None
  | p :: rest =>
      if negb (matched p) && bool_decide (vehicleId p = veh_id)
      then Some (0%nat, p)
      else prod_map S id <$> find_candidate veh_id rest
  end.

(** The three assignments to [candidate] on a match. *)
Definition mark_matched (p : Prediction) (actual_arr_ts drift_sec : Z) : Prediction :=
  mkPrediction (vehicleId p) (predictionTs p) (timeToStation p)
    (expectedArrivalTs p) true (Some actual_arr_ts) (Some drift_sec) (phantom p).

(** The two assignments of the phantom branch. *)
Definition mark_phantom (p : Prediction) : Prediction :=
  mkPrediction (vehicleId p) (predictionTs p) (timeToStation p)
    (expectedArrivalTs p) true (actualArrivalTs p) (driftSec p) true.

Definition add_sample (s : StopStats) (drift_sec : Z) : StopStats :=
  mkStopStats (samples s + 1) (sumDriftSec s + drift_sec) (phantoms s).

Definition add_phantom (s : StopStats) : StopStats :=
  mkStopStats (samples s) (sumDriftSec s) (phantoms s + 1).

(** The ledger and the aggregator, the two maps the loops mutate. *)
Definition Books : Type :=
  list (string * list Prediction) * list (string * StopStats).

(** One iteration of the matching loop, for one entry of [curr]. *)
Definition match_step (ts_now : Z) (bk : Books)
    (entry : (string * string) * Z) : Books :=
  let '((stop_id, veh_id), tts) := entry in
  if decide (tts > ARRIVAL_TTS_SEC) then bk
  else
    let preds := default [] (dget stop_id bk.1) in
    match find_candidate veh_id preds with
    | None => bk
    | Some (i, candidate) =>
        let actual_arr_ts := ts_now + Z.max 0 tts in
        let predicted_arr_ts := predictionTs candidate + timeToStation candidate in
        let drift_sec := predicted_arr_ts - actual_arr_ts in
        let preds' := <[i := mark_matched candidate actual_arr_ts drift_sec]> preds in
        let (s, stats1) := dsetdefault stop_id empty_stats bk.2 in
        (dset stop_id preds' bk.1, dset stop_id (add_sample s drift_sec) stats1)
    end.

Definition match_phase (ts_now : Z) (bk : Books)
    (curr : list ((string * string) * Z)) : Books :=
  fold_left (match_step ts_now) curr bk.

(** The inner phantom loop over one stop's predictions, threading the stop's
    statistics record. *)
Fixpoint reap_preds (ts_now : Z) (preds : list Prediction) (s : StopStats)
  : list Prediction * StopStats :=
  match preds with
  | [] => ([], s)
  | p :: rest =>
      if matched p then
        let (rest', s') := reap_preds ts_now rest s in (p :: rest', s')
      else if decide (ts_now > expectedArrivalTs p + PHANTOM_GRACE_SEC) then
        let (rest', s') := reap_preds ts_now rest (add_phantom s) in
        (mark_phantom p :: rest', s')
      else
        let (rest', s') := reap_preds ts_now rest s in (p :: rest', s')
  end.

(** The outer phantom loop over [preds_by_stop.items()]. *)
Fixpoint reap_stops (ts_now : Z) (items : list (string * list Prediction))
    (stats : list (string * StopStats)) : Books :=
  match items with
  | [] => ([], stats)
  | (stop_id, preds) :: rest =>
      let (s, stats1) := dsetdefault stop_id empty_stats stats in
      let (preds', s') := reap_preds ts_now preds s in
      let (rest', stats') := reap_stops ts_now rest (dset stop_id s' stats1) in
      ((stop_id, preds') :: rest', stats')
  end.

Definition reap_phase (ts_now : Z) (bk : Books) : Books :=
  reap_stops ts_now bk.1 bk.2.

Definition books (st : State) : Books := (predictions st, stopStats st).

Definition with_books (st : State) (bk : Books) : State :=
  mkState (direction st) (stops st) bk.1 bk.2.

(** [ts_now] is the clock reading [now_ts()] taken on entry. *)
Definition detect_arrivals_and_score (st : State) (arrivals : list Arrival.t)
    (ts_now : Z) : State :=
  let curr := index_arrivals arrivals in
  with_books st (reap_phase ts_now (match_phase ts_now (books st) curr)).

(** ** The Snapshot Exporter: [bias_color] and [export_geojson] *)

Definition Qltb (x y : Q) : bool :=
  match Qcompare x y with Lt => true | _ => false end.

(** Round half to even, the rule of Python's [round]. *)
Definition round_half_even (x : Q) : Z :=
  let f := Qfloor x in
  match Qcompare (x - inject_Z f) (1 # 2) with
  | Lt => f
  | Gt => f + 1
  | Eq => if Z.even f then f else f + 1
  end.

(** [round(x, ndigits)] *)
Definition py_round (x : Q) (ndigits : nat) : Q :=
  let scale := inject_Z (10 ^ Z.of_nat ndigits) in
  (inject_Z (round_half_even (x * scale)) / scale)%Q.

Definition green : string := "#00ff00".
Definition amber : string := "#f1c40f".
Definition red : string := "ff0000".

Definition bias_color (bias_sec : Q) : string :=
  let ab := Qabs bias_sec in
  if Qltb ab (inject_Z 60) then green
  else if Qltb ab (inject_Z 180) then amber
  else red.

Module Feature.
Record t := mk {
  stopId : string;
  name : string;
  direction : string;
  predictionDriftSec : Q;
  samples : Z;
  phantomRate : Q;
  color : string;
  coordinates : Q * Q
}.
End Feature.

(** The two quotients computed for one stop. *)
Definition bias_sec_of (st : StopStats) : Q :=
  if decide (samples st > 0)
  then (inject_Z (sumDriftSec st) / inject_Z (samples st))%Q
  else 0%Q.

Definition phantom_rate_of (st : StopStats) : Q :=
  (inject_Z (phantoms st) / inject_Z (Z.max 1 (samples st + phantoms st)))%Q.

(** One iteration of the loop over [state["stops"].items()]. *)
Definition export_step (state : State) (features : list Feature.t)
    (item : string * Stop) : list Feature.t :=
  let (stop_id, stop) := item in
  match lat stop, lon stop with
  | Some la, Some lo =>
      let st := default empty_stats (dget stop_id (stopStats state)) in
      let bias_sec := bias_sec_of st in
      let phantom_rate := phantom_rate_of st in
      features ++
        [Feature.mk stop_id (name stop) (direction state)
           (py_round bias_sec 1) (samples st) (py_round phantom_rate 3)
           (bias_color bias_sec) (lo, la)]
  | _, _ => features
  end.

(** The feature list written to the GeoJSON file. *)
Definition export_geojson (state : State) : list Feature.t :=
  fold_left (export_step state) (stops state) [].

(** ** The parts that talk to the outside world *)

Section External.
(** [parse_iso]: the timestamp of an ISO-8601 string, [None] when
    [datetime.fromisoformat] raises. *)
Variable parse_iso : string → option Z.

(** [fetch_stop_point]: the answer to a lookup given the lookups made
    before it (most recent last); [None] when the request raises. *)
Variable fetch_stop_point : list string → string → option StopPoint.t.

Definition resolved (st : option Stop) : bool :=
  match st with
  | Some s => bool_decide (is_Some (lat s)) && bool_decide (is_Some (lon s))
  | None => false
  end.

(** The body of the [try] block after a successful fetch. *)
Definition apply_stop_point (sp : StopPoint.t) (s : Stop) : Stop :=
  mkStop (StopPoint.lat sp) (StopPoint.lon sp)
    (or_else (StopPoint.commonName sp) (name s)).

(** [ensure_stop_metadata] on [state["stops"]]; [calls] logs the stop ids
    passed to [fetch_stop_point] so far. *)
Fixpoint ensure_stops (stops : list (string * Stop)) (arrivals : list Arrival.t)
    (calls : list string) : list (string * Stop) * list string :=
  match arrivals with
  | [] => (stops, calls)
  | a :: rest =>
      match truthy (Arrival.naptanId a) with
      | None => ensure_stops stops rest calls
      | Some stop_id =>
          let st := dget stop_id stops in
          if resolved st then ensure_stops stops rest calls
          else
            let stub :=
              mkStop None None
                (or_else (Arrival.stationName a)
                   (or_else (Arrival.platformName a) stop_id)) in
            let '(cur, stops1) :=
              match st with
              | Some s => (s, stops)
              | None => (stub, dset stop_id stub stops)
              end in
            let stops2 :=
              match fetch_stop_point calls stop_id with
              | Some sp => dset stop_id (apply_stop_point sp cur) stops1
              | None => stops1
              end in
            ensure_stops stops2 rest (calls ++ [stop_id])
      end
  end.

Definition ensure_stop_metadata (state : State) (arrivals : list Arrival.t)
    (calls : list string) : State * list string :=
  let (stops', calls') := ensure_stops (stops state) arrivals calls in
  (mkState (direction state) stops' (predictions state) (stopStats state),
   calls').

(** The record appended for one well-formed arrival. *)
Definition new_prediction (veh_id : string) (ts tts exp_arr_ts : Z) : Prediction :=
  mkPrediction veh_id ts tts exp_arr_ts false None None false.

(** The first loop of [update_predictions]. *)
Fixpoint ingest (ts : Z) (arrivals : list Arrival.t)
    (preds_by_stop : list (string * list Prediction))
  : outcome (list (string * list Prediction)) :=
  match arrivals with
  | [] => Returned preds_by_stop
  | a :: rest =>
      match truthy (Arrival.naptanId a), truthy (Arrival.vehicleId a),
            Arrival.timeToStation a, truthy (Arrival.expectedArrival a) with
      | Some stop_id, Some veh_id, Some tts, Some exp_arr =>
          match parse_iso exp_arr with
          | None => Raised preds_by_stop
          | Some exp_ts =>
              let rec := new_prediction veh_id ts tts exp_ts in
              let old := default [] (dget stop_id preds_by_stop) in
              ingest ts rest (dset stop_id (old ++ [rec]) preds_by_stop)
          end
      | _, _, _, _ => ingest ts rest preds_by_stop
      end
  end.

(** One iteration of the pruning loop. *)
Definition prune_step (ts : Z) (preds_by_stop : list (string * list Prediction))
    (item : string * list Prediction) : list (string * list Prediction) :=
  let (stop_id, preds) := item in
  let newp :=
    filter (λ p, ts - predictionTs p ≤ PREDICTION_MAX_AGE_SEC) preds in
  match newp with
  | [] => dpop stop_id preds_by_stop
  | _ :: _ => dset stop_id newp preds_by_stop
  end.

(** The pruning loop, over the snapshot [list(preds_by_stop.items())]. *)
Definition prune (ts : Z) (preds_by_stop : list (string * list Prediction))
  : list (string * list Prediction) :=
  fold_left (prune_step ts) preds_by_stop preds_by_stop.

Definition with_predictions (st : State)
    (p : list (string * list Prediction)) : State :=
  mkState (direction st) (stops st) p (stopStats st).

(** [ts] is the clock reading [now_ts()] taken on entry. *)
Definition update_predictions (state : State) (arrivals : list Arrival.t)
    (ts : Z) : outcome State :=
  match ingest ts arrivals (predictions state) with
  | Returned p => Returned (with_predictions state (prune ts p))
  | Raised p => Raised (with_predictions state p)
  end.

(** One polling cycle on an already fetched and direction-filtered batch;
    [ts] and [ts_now] are the two clock readings of the cycle.  A cycle
    that returns [st] has written [export_geojson st]. *)
Definition one_cycle (state : State) (arrivals : list Arrival.t)
    (calls : list string) (ts ts_now : Z) : outcome State * list string :=
  let (st1, calls') := ensure_stop_metadata state arrivals calls in
  match update_predictions st1 arrivals ts with
  | Raised st2 => (Raised st2, calls')
  | Returned st2 =>
      (Returned (detect_arrivals_and_score st2 arrivals ts_now), calls')
  end.
End External.

(** ** The driver: [filter_direction], [one_cycle] from the feed, [main] *)

Definition DIRECTION_FILTER : string := "inbound".

(** A record of the feed as [fetch_arrivals] returns it: the [direction]
    tag, and the fields the engine reads after the direction filter. *)
Module Feed.
Record t := mk {
  direction : option string;
  fields : Arrival.t
}.
End Feed.

(** What the outside world supplies to one iteration of the loop of
    [main]: the answer of [fetch_arrivals] ([None] when it raises) and the
    two clock readings. *)
Record Tick := mkTick {
  feed : option (list Feed.t);
  clock_update : Z;
  clock_detect : Z
}.

Section Driver.
(** [str.lower] *)
Variable lower : string → string.
Variable parse_iso : string → option Z.
Variable fetch_stop_point : list string → string → option StopPoint.t.

(** The test [(a.get("direction") or "").lower() == direction.lower()]. *)
Definition direction_matches (direction : string) (a : Feed.t) : bool :=
  bool_decide (lower (or_else (Feed.direction a) "") = lower direction).

Definition filter_direction (arrivals : list Feed.t) (direction : string)
  : list Feed.t :=
  fold_left
    (λ out a, if direction_matches direction a then out ++ [a] else out)
    arrivals [].

(** [one_cycle] with its first two statements: the fetch, which may raise
    before anything is touched, and the direction filter. *)
Definition one_cycle_fetched (state : State) (fetched : option (list Feed.t))
    (calls : list string) (ts ts_now : Z) : outcome State * list string :=
  match fetched with
  | None => (Raised state, calls)
  | Some arrivals =>
      one_cycle parse_iso fetch_stop_point state
        (Feed.fields <$> filter_direction arrivals DIRECTION_FILTER)
        calls ts ts_now
  end.

(** The loop of [main] for as many iterations as there are ticks: an
    exception is caught and the same state object, as the failed cycle left
    it, goes into the next iteration. *)
Fixpoint main_loop (state : State) (calls : list string) (ticks : list Tick)
  : State * list string :=
  match ticks with
  | [] => (state, calls)
  | t :: rest =>
      let (o, calls') :=
        one_cycle_fetched state (feed t) calls (clock_update t) (clock_detect t) in
      main_loop (outcome_state o) calls' rest
  end.
End Driver.

(** * Vocabulary of the properties *)

(** What a prediction is from its creation on: the four fields that no
    operation ever assigns again. *)
Definition origin (p : Prediction) : string * Z * Z * Z :=
  (vehicleId p, predictionTs p, timeToStation p, expectedArrivalTs p).

(** Open and for this vehicle: what the scan looks for. *)
Definition open_for (veh_id : string) (p : Prediction) : Prop :=
  status p = Open ∧ vehicleId p = veh_id.

(** A record either stays as it is, or leaves [Open] for good and keeps its
    origin. *)
Definition pred_step (p p' : Prediction) : Prop :=
  p' = p ∨ (status p = Open ∧ status p' ≠ Open ∧ origin p' = origin p).

(** Same stops in the same order, and position by position a [pred_step]. *)
Definition ledger_step (d d' : list (string * list Prediction)) : Prop :=
  Forall2 (λ x y, x.1 = y.1 ∧ Forall2 pred_step x.2 y.2) d d'.

(** A stop's counters, all zero while it has no entry. *)
Definition stats_of (k : string) (stats : list (string * StopStats)) : StopStats :=
  default empty_stats (dget k stats).

(** Still open and past the grace period at [ts_now]. *)
Definition overdue (ts_now : Z) (p : Prediction) : Prop :=
  status p = Open ∧ ts_now > expectedArrivalTs p + PHANTOM_GRACE_SEC.

#[global] Instance overdue_dec ts_now p : Decision (overdue ts_now p).
Proof. unfold overdue. apply _. Defined.

(** What the reaper does to one record. *)
Definition reap_one (ts_now : Z) (p : Prediction) : Prediction :=
  if decide (overdue ts_now p) then mark_phantom p else p.

(** [n] increments of the phantom counter. *)
Definition add_phantoms (s : StopStats) (n : nat) : StopStats :=
  mkStopStats (samples s) (sumDriftSec s) (phantoms s + Z.of_nat n).

(** What the reaper does to one entry of the ledger. *)
Definition reap_item (ts_now : Z) (x : string * list Prediction)
  : string * list Prediction :=
  (x.1, reap_one ts_now <$> x.2).

(** Match-and-reap passes run one after the other, each with its own batch
    and clock reading. *)
Definition detect_cycles (st : State) (cycles : list (list Arrival.t * Z)) : State :=
  fold_left (λ s c, detect_arrivals_and_score s c.1 c.2) cycles st.

(** A stop's sequence is in creation order when the creation instants never
    decrease along it. *)
Definition creation_ordered (preds : list Prediction) : Prop :=
  StronglySorted (λ p q, predictionTs p ≤ predictionTs q) preds.

(** The [phantom] mark only ever comes together with the [matched] mark;
    every record the program creates or mutates is so. *)
Definition pred_wf (p : Prediction) : Prop :=
  phantom p = true → matched p = true.

(** The records the ingestion loop appends to stop [k] for a batch, in the
    order of the batch; the loop stops at the first timestamp that does not
    parse. *)
Fixpoint batch_records (parse_iso : string → option Z) (ts : Z) (k : string)
    (arrivals : list Arrival.t) : list Prediction :=
  match arrivals with
  | [] => []
  | a :: rest =>
      match truthy (Arrival.naptanId a), truthy (Arrival.vehicleId a),
            Arrival.timeToStation a, truthy (Arrival.expectedArrival a) with
      | Some stop_id, Some veh_id, Some tts, Some exp_arr =>
          match parse_iso exp_arr with
          | None => []
          | Some exp_ts =>
              if decide (stop_id = k)
              then new_prediction veh_id ts tts exp_ts
                     :: batch_records parse_iso ts k rest
              else batch_records parse_iso ts k rest
          end
      | _, _, _, _ => batch_records parse_iso ts k rest
      end
  end.

(** Young enough to survive the eviction at [ts]. *)
Definition young (ts : Z) (p : Prediction) : Prop :=
  ts - predictionTs p ≤ PREDICTION_MAX_AGE_SEC.

#[global] Instance young_dec ts p : Decision (young ts p).
Proof. unfold young. apply _. Defined.

(** Every stop's sequence is in creation order. *)
Definition ledger_ordered (d : list (string * list Prediction)) : Prop :=
  ∀ k preds, dget k d = Some preds → creation_ordered preds.

(** No record of the ledger was created after [ts]. *)
Definition ledger_before (ts : Z) (d : list (string * list Prediction)) : Prop :=
  ∀ k preds p, dget k d = Some preds → p ∈ preds → predictionTs p ≤ ts.

(** A run of ingest-then-evict calls, each with its batch and its clock
    reading; it ends where a call raises. *)
Fixpoint ledger_run (parse_iso : string → option Z) (st : State)
    (calls : list (list Arrival.t * Z)) : outcome State :=
  match calls with
  | [] => Returned st
  | (arrivals, ts) :: rest =>
      match update_predictions parse_iso st arrivals ts with
      | Returned st' => ledger_run parse_iso st' rest
      | Raised st' => Raised st'
      end
  end.

(** An observation with one of the four required fields missing. *)
Definition malformed (a : Arrival.t) : Prop :=
  Arrival.naptanId a = None ∨ Arrival.vehicleId a = None ∨
  Arrival.timeToStation a = None ∨ Arrival.expectedArrival a = None.

#[global] Instance malformed_dec a : Decision (malformed a).
Proof. unfold malformed. apply _. Defined.

(** An observation without one of the three fields the matcher reads. *)
Definition unmatchable (a : Arrival.t) : Prop :=
  Arrival.naptanId a = None ∨ Arrival.vehicleId a = None ∨
  Arrival.timeToStation a = None.

#[global] Instance unmatchable_dec a : Decision (unmatchable a).
Proof. unfold unmatchable. apply _. Defined.

(** How the aggregator may differ after a pass over a ledger with the given
    stops: entries stay, new entries are for stops of the ledger, the two
    counters do not go down, and the drift sum moves only with the sample
    count. *)
Definition stats_grow (keys : list string)
    (s s' : list (string * StopStats)) : Prop :=
  ∀ k,
    (is_Some (dget k s) → is_Some (dget k s')) ∧
    (is_Some (dget k s') → is_Some (dget k s) ∨ k ∈ keys) ∧
    samples (stats_of k s) ≤ samples (stats_of k s') ∧
    phantoms (stats_of k s) ≤ phantoms (stats_of k s') ∧
    (samples (stats_of k s') = samples (stats_of k s) →
     sumDriftSec (stats_of k s') = sumDriftSec (stats_of k s)).

(** Both coordinates of a stop are resolved. *)
Definition has_coordinates (s : Stop) : Prop :=
  is_Some (lat s) ∧ is_Some (lon s).

#[global] Instance has_coordinates_dec s : Decision (has_coordinates s).
Proof. unfold has_coordinates. apply _. Defined.

(** The two derived metrics, in the words of the specification. *)
Definition meanDriftSec (s : StopStats) : Q :=
  if decide (samples s = 0) then 0%Q
  else (inject_Z (sumDriftSec s) / inject_Z (samples s))%Q.

Definition phantomRate (s : StopStats) : Q :=
  if decide (samples s + phantoms s = 0) then 0%Q
  else (inject_Z (phantoms s) / inject_Z (samples s + phantoms s))%Q.

(** [r] is [x] rounded to [ndigits] decimal places: [r] is [z / 10^ndigits]
    for an integer [z] at most one half away from [x * 10^ndigits]. *)
Definition rounded_to (ndigits : nat) (x r : Q) : Prop :=
  ∃ z : Z,
    r = (inject_Z z / inject_Z (10 ^ Z.of_nat ndigits))%Q ∧
    (- (1 # 2) <= x * inject_Z (10 ^ Z.of_nat ndigits) - inject_Z z)%Q ∧
    (x * inject_Z (10 ^ Z.of_nat ndigits) - inject_Z z <= 1 # 2)%Q.

(** The number of lookups made for stop [k]. *)
Definition calls_for (k : string) (calls : list string) : nat :=
  length (filter (λ c, c = k) calls).

(** The records of a batch that name stop [k]. *)
Definition arrivals_at (k : string) (arrivals : list Arrival.t) : list Arrival.t :=
  filter (λ a, truthy (Arrival.naptanId a) = Some k) arrivals.

(** ** Worked data *)

Definition stop_A : string := "490008660N".
Definition bus_1 : string := "LTZ1001".

(** A parser that knows the two timestamps of the worked examples, with
    2024-01-01T00:00:00Z as instant 0. *)
Definition demo_parse (s : string) : option Z :=
  if decide (s = "2024-01-01T00:05:00Z") then Some 300
  else if decide (s = "2024-01-01T00:04:58Z") then Some 298
  else None.

(** A lookup service that is down. *)
Definition fetch_down (history : list string) (stop_id : string)
  : option StopPoint.t := None.

(** Two sightings of the same bus approaching the same stop, both open. *)
Definition sighting_0 : Prediction := new_prediction bus_1 0 300 300.
Definition sighting_60 : Prediction := new_prediction bus_1 60 240 300.

Definition demo_books : Books := ([(stop_A, [sighting_0; sighting_60])], []).

Definition demo_state : State :=
  mkState "inbound"
    [(stop_A, mkStop (Some (515027 # 10000)) (Some (-1527 # 10000))
                "Hyde Park Corner");
     ("490011760D", mkStop None None "Marble Arch")]
    [(stop_A, [sighting_0; sighting_60])]
    [(stop_A, mkStopStats 1 10 0)].

(** The bus seen far away, about to arrive, and about to arrive in a record
    without an expected arrival. *)
Definition seen_far : Arrival.t :=
  Arrival.mk (Some stop_A) (Some bus_1) (Some 300)
    (Some "2024-01-01T00:05:00Z") (Some "Hyde Park Corner") None.

Definition seen_near : Arrival.t :=
  Arrival.mk (Some stop_A) (Some bus_1) (Some 8)
    (Some "2024-01-01T00:04:58Z") (Some "Hyde Park Corner") None.

Definition seen_near_no_eta : Arrival.t :=
  Arrival.mk (Some stop_A) (Some bus_1) (Some 8) None None None.

(** Another bus approaching the same stop. *)
Definition seen_other_bus : Arrival.t :=
  Arrival.mk (Some stop_A) (Some "LTZ1002") (Some 540)
    (Some "2024-01-01T00:09:00Z") (Some "Hyde Park Corner") None.

(** The first sighting once scored, and ledgers around it. *)
Definition scored_0 : Prediction := mark_matched sighting_0 298 2.

Definition scored_state : State :=
  mkState "inbound" [] [(stop_A, [scored_0; sighting_60])] [].

Definition open_state : State :=
  mkState "inbound" [] [(stop_A, [sighting_0])] [].

(** Two ingest-then-evict calls on [demo_state], at 700 and at 1530. *)
Definition two_calls : outcome State :=
  ledger_run demo_parse demo_state
    ([([seen_far], 700)] ++ [([seen_near], 1530)]).

(** The first cycle of an empty state, with the lookup service down. *)
Definition first_cycle : State :=
  outcome_state
    (one_cycle demo_parse fetch_down (empty_state "inbound") [seen_far] [] 0 0).1.

(** ** Accounting between the ledger and the aggregator *)

(** What a record stands for in its stop's counters: one sample and its
    drift when Matched, one phantom when Phantom. *)
Definition sample_weight (p : Prediction) : Z :=
  if decide (status p = Matched) then 1 else 0.

Definition drift_weight (p : Prediction) : Z :=
  if decide (status p = Matched) then default 0 (driftSec p) else 0.

Definition phantom_weight (p : Prediction) : Z :=
  if decide (status p = Phantom) then 1 else 0.

Definition total (w : Prediction → Z) (l : list Prediction) : Z :=
  foldr (λ p acc, w p + acc) 0 l.

(** The part of a stop's three counters that the records now in the ledger
    do not account for (it comes from records evicted since). *)
Definition unaccounted (bk : Books) (k : string) : Z * Z * Z :=
  let l := default [] (dget k bk.1) in
  let s := stats_of k bk.2 in
  (samples s - total sample_weight l,
   sumDriftSec s - total drift_weight l,
   phantoms s - total phantom_weight l).

(** Every record of the ledger is well formed. *)
Definition ledger_wf (d : list (string * list Prediction)) : Prop :=
  ∀ k preds, dget k d = Some preds → Forall pred_wf preds.

(** * Vocabulary of the further properties *)

(** The time-to-station readings a batch gives for one (stop, vehicle)
    pair, in the order of the batch. *)
Definition readings (s v : string) (arrivals : list Arrival.t) : list Z :=
  omap (λ a,
    match truthy (Arrival.naptanId a), truthy (Arrival.vehicleId a),
          Arrival.timeToStation a with
    | Some s', Some v', Some t =>
        if decide ((s', v') = (s, v)) then Some t else None
    | _, _, _ => None
    end) arrivals.

(** The entries of the index that are arriving at stop [k]. *)
Definition arriving_at (k : string) (curr : list ((string * string) * Z))
  : list ((string * string) * Z) :=
  filter (λ e, e.1.1 = k ∧ e.2 ≤ ARRIVAL_TTS_SEC) curr.

(** What a record carries in each state of its life: nothing while Open or
    once Phantom, and once Matched the actual arrival with the drift
    computed from it. *)
Definition pred_consistent (p : Prediction) : Prop :=
  match status p with
  | Open => phantom p = false ∧ actualArrivalTs p = None ∧ driftSec p = None
  | Phantom => actualArrivalTs p = None ∧ driftSec p = None
  | Matched =>
      ∃ a, actualArrivalTs p = Some a ∧
           driftSec p = Some (predictionTs p + timeToStation p - a)
  end.

(** A property of records holds all over a ledger. *)
Definition ledger_all (P : Prediction → Prop)
    (d : list (string * list Prediction)) : Prop :=
  ∀ k preds, dget k d = Some preds → Forall P preds.

(** What every state the loop can reach satisfies: the three maps have
    unique keys, every record is consistent, and a stop's sample and
    phantom counters cover the Matched and Phantom records it still has
    in the ledger. *)
Definition state_ok (st : State) : Prop :=
  NoDup (stops st).*1 ∧ NoDup (predictions st).*1 ∧ NoDup (stopStats st).*1 ∧
  ledger_all pred_consistent (predictions st) ∧
  ∀ k,
    0 ≤ (unaccounted (books st) k).1.1 ∧ 0 ≤ (unaccounted (books st) k).2.

(** ASCII lower case, which is [str.lower] on ASCII strings. *)
Definition lower_ascii (c : Ascii.ascii) : Ascii.ascii :=
  let n := Ascii.nat_of_ascii c in
  if (65 <=? n)%nat && (n <=? 90)%nat then Ascii.ascii_of_nat (n + 32) else c.

Fixpoint lower_string (s : string) : string :=
  match s with
  | EmptyString => EmptyString
  | String c rest => String (lower_ascii c) (lower_string rest)
  end.

(** A feed record carries the wanted direction, up to case. *)
Definition same_direction (lower : string → string) (direction : string)
    (a : Feed.t) : Prop :=
  lower (or_else (Feed.direction a) "") = lower direction.

#[global] Instance same_direction_dec lower direction a :
  Decision (same_direction lower direction a).
Proof. unfold same_direction. apply _. Defined.

(** A record tagged for the other direction, for the worked instances. *)
Definition outbound_record : Feed.t :=
  Feed.mk (Some "Outbound") seen_near.

Definition inbound_record : Feed.t :=
  Feed.mk (Some "Inbound") seen_far.

(** The records of vehicle [v] at stop [s] are where and what they were. *)
Definition untouched_for (s v : string)
    (d d' : list (string * list Prediction)) : Prop :=
  ∀ i p, default [] (dget s d) !! i = Some p → vehicleId p = v →
    default [] (dget s d') !! i = Some p.

(** The same, but for one position at most. *)
Definition touched_once (s v : string)
    (d d' : list (string * list Prediction)) : Prop :=
  ∃ i0, ∀ i p, i ≠ i0 → default [] (dget s d) !! i = Some p →
    vehicleId p = v → default [] (dget s d') !! i = Some p.

(** A record of a batch that has the four required fields and names stop
    [k]. *)
Definition complete_for (k : string) (a : Arrival.t) : Prop :=
  truthy (Arrival.naptanId a) = Some k ∧
  is_Some (truthy (Arrival.vehicleId a)) ∧
  is_Some (Arrival.timeToStation a) ∧
  is_Some (truthy (Arrival.expectedArrival a)).

#[global] Instance complete_for_dec k a : Decision (complete_for k a).
Proof. unfold complete_for. apply _. Defined.

(** The clock readings taken by [update_predictions] never go back, from
    [t0] on. *)
Fixpoint clock_never_back (t0 : Z) (ticks : list Tick) : Prop :=
  match ticks with
  | [] => True
  | t :: rest => t0 ≤ clock_update t ∧ clock_never_back (clock_update t) rest
  end.

(** ** Worked data for the further properties *)

(** A lookup service that knows the stop. *)
Definition fetch_up (history : list string) (stop_id : string)
  : option StopPoint.t :=
  Some (StopPoint.mk (Some (515027 # 10000)) (Some (-1527 # 10000))
          (Some "Hyde Park Corner Station")).

(** Three iterations of the loop: the bus seen far away, a fetch that
    fails, the bus arriving. *)
Definition demo_ticks : list Tick :=
  [mkTick (Some [inbound_record; outbound_record]) 0 0;
   mkTick None 60 60;
   mkTick (Some [Feed.mk (Some "inbound") seen_near]) 290 290].

Definition after_demo_ticks : State :=
  (main_loop lower_string demo_parse fetch_down
     (empty_state "inbound") [] demo_ticks).1.

(** The bus arriving with an expected arrival that does not parse. *)
Definition seen_garbled : Arrival.t :=
  Arrival.mk (Some stop_A) (Some bus_1) (Some 8) (Some "soon")
    (Some "Hyde Park Corner") None.

(** * Properties *)

(** ** Dictionary laws *)

Section dict_laws.
Context {K V : Type} `{EqDecision K}.
Implicit Types (d : list (K * V)) (k : K) (v : V).

Lemma dget_dset d k k' v :
  dget k' (dset k v d) = if decide (k' = k) then Some v else dget k' d.
Proof.
  induction d as [|[k0 v0] d IH]; simpl.
  - repeat case_decide; congruence.
  - repeat (case_decide; simpl); subst; try congruence.
Qed.

Lemma dget_dset_eq d k v : dget k (dset k v d) = Some v.
Proof. rewrite dget_dset. by case_decide. Qed.

Lemma dget_dset_ne d k k' v : k' ≠ k → dget k' (dset k v d) = dget k' d.
Proof. intros. rewrite dget_dset. by case_decide. Qed.

Lemma dget_dpop d k k' :
  dget k' (dpop k d) = if decide (k' = k) then None else dget k' d.
Proof.
  induction d as [|[k0 v0] d IH]; simpl.
  - by case_decide.
  - repeat (case_decide; simpl); subst; try congruence.
Qed.

Lemma dget_Some_keys d k v : dget k d = Some v → k ∈ d.*1.
Proof.
  induction d as [|[k0 v0] d IH]; simpl; [done|].
  case_decide; subst; [left | right; auto].
Qed.

Lemma dget_None_keys d k : dget k d = None ↔ k ∉ d.*1.
Proof.
  induction d as [|[k0 v0] d IH]; simpl.
  - split; [intros _; apply not_elem_of_nil | done].
  - rewrite not_elem_of_cons. case_decide; subst.
    + split; [done | by intros [? _]].
    + rewrite IH. split; [by intros; split | by intros [_ ?]].
Qed.

Lemma dget_is_Some_keys d k : is_Some (dget k d) ↔ k ∈ d.*1.
Proof.
  destruct (dget k d) eqn:E.
  - split; [intros _; eauto using dget_Some_keys | eauto].
  - apply dget_None_keys in E. split; [by intros [? ?] | done].
Qed.

Lemma dget_elem_of d k v : NoDup d.*1 → (k, v) ∈ d → dget k d = Some v.
Proof.
  induction d as [|[k0 v0] d IH]; simpl; intros Hnd Hin.
  - by apply elem_of_nil in Hin.
  - apply NoDup_cons in Hnd as [Hk0 Hnd].
    apply elem_of_cons in Hin as [Heq|Hin];
      [injection Heq as -> ->; by case_decide|].
    case_decide; subst; [|auto].
    exfalso. apply Hk0. apply list_elem_of_fmap. by exists (k0, v).
Qed.

Lemma dget_Some_elem_of d k v : dget k d = Some v → (k, v) ∈ d.
Proof.
  induction d as [|[k0 v0] d IH]; simpl; [done|].
  case_decide; subst; [intros [= ->]; left | right; auto].
Qed.

(** Overwriting a present key keeps every key where it was. *)
Lemma dset_keys_present d k v :
  k ∈ d.*1 → (dset k v d).*1 = d.*1.
Proof.
  induction d as [|[k0 v0] d IH]; simpl; intros Hin.
  - by apply elem_of_nil in Hin.
  - case_decide; subst; [done|].
    apply elem_of_cons in Hin as [?|?]; [done|].
    rewrite fmap_cons. f_equal. auto.
Qed.

Lemma dset_keys_absent d k v :
  k ∉ d.*1 → (dset k v d).*1 = d.*1 ++ [k].
Proof.
  induction d as [|[k0 v0] d IH]; simpl; intros Hin; [done|].
  apply not_elem_of_cons in Hin as [? ?].
  case_decide; subst; [done|].
  rewrite fmap_cons. simpl. f_equal. auto.
Qed.

Lemma dset_NoDup d k v : NoDup d.*1 → NoDup (dset k v d).*1.
Proof.
  intros Hnd. destruct (decide (k ∈ d.*1)).
  - by rewrite dset_keys_present.
  - rewrite dset_keys_absent by done.
    apply NoDup_app. split_and!; [done| |apply NoDup_singleton].
    intros x Hx ->%list_elem_of_singleton. done.
Qed.

Lemma dpop_keys_sub d k k' : k' ∈ (dpop k d).*1 → k' ∈ d.*1.
Proof.
  induction d as [|[k0 v0] d IH]; simpl; [done|].
  case_decide; subst; simpl.
  - intros. right. auto.
  - intros [->|?]%elem_of_cons; [left | right; auto].
Qed.

Lemma dpop_NoDup d k : NoDup d.*1 → NoDup (dpop k d).*1.
Proof.
  induction d as [|[k0 v0] d IH]; simpl; [done|].
  intros [Hk0 Hnd]%NoDup_cons. case_decide; subst; simpl; [auto|].
  apply NoDup_cons. split; [|auto].
  intros Hin. apply Hk0. eauto using dpop_keys_sub.
Qed.
End dict_laws.

(** ** The candidate scan *)

Lemma status_Open p : status p = Open ↔ matched p = false.
Proof. unfold status. destruct (matched p), (phantom p); split; congruence. Qed.

Lemma status_terminal p : status p ≠ Open ↔ matched p = true.
Proof. rewrite status_Open. destruct (matched p); split; congruence. Qed.

Lemma scan_test p veh_id :
  negb (matched p) && bool_decide (vehicleId p = veh_id) = true ↔ open_for veh_id p.
Proof.
  unfold open_for. rewrite status_Open, andb_true_iff, negb_true_iff.
  rewrite bool_decide_eq_true. done.
Qed.

Lemma find_candidate_Some veh_id preds i c :
  find_candidate veh_id preds = Some (i, c) →
  preds !! i = Some c ∧ open_for veh_id c ∧
  ∀ j p, (j < i)%nat → preds !! j = Some p → ¬ open_for veh_id p.
Proof.
  revert i. induction preds as [|p rest IH]; intros i; simpl; [done|].
  destruct (negb (matched p) && bool_decide (vehicleId p = veh_id)) eqn:T.
  - intros [= <- <-]. apply scan_test in T. split_and!; [done..|]. lia.
  - destruct (find_candidate veh_id rest) as [[i0 c0]|] eqn:F; [|done].
    simpl. intros [= <- <-]. destruct (IH i0 eq_refl) as (Hl & Ho & Hfirst).
    split_and!; [done..|]. intros [|j] q Hj; simpl.
    + intros [= <-] Hq. apply scan_test in Hq. congruence.
    + apply Hfirst. lia.
Qed.

Lemma find_candidate_None veh_id preds :
  find_candidate veh_id preds = None ↔ ∀ p, p ∈ preds → ¬ open_for veh_id p.
Proof.
  induction preds as [|p rest IH]; simpl.
  - split; [intros _ p Hp; by apply elem_of_nil in Hp | done].
  - destruct (negb (matched p) && bool_decide (vehicleId p = veh_id)) eqn:T.
    + apply scan_test in T. split; [done|]. intros Hall.
      exfalso. apply (Hall p); [left | done].
    + assert (¬ open_for veh_id p) as Hp.
      { intros Ho%scan_test. congruence. }
      destruct (find_candidate veh_id rest) as [[i0 c0]|]; simpl.
      * split; [done|]. intros Hall. destruct IH as [_ IH].
        discriminate IH. intros q Hq. apply Hall. by right.
      * split; [|done]. intros _ q [->|Hq]%elem_of_cons; [done|].
        destruct IH as [IH _]. by apply IH.
Qed.

(** The scan returns the first position that passes the test. *)
Lemma find_candidate_first veh_id preds i c :
  preds !! i = Some c → open_for veh_id c →
  (∀ j p, (j < i)%nat → preds !! j = Some p → ¬ open_for veh_id p) →
  find_candidate veh_id preds = Some (i, c).
Proof.
  intros Hi Ho Hfirst.
  destruct (find_candidate veh_id preds) as [[i0 c0]|] eqn:F.
  - destruct (find_candidate_Some _ _ _ _ F) as (Hi0 & Ho0 & Hfirst0).
    destruct (lt_eq_lt_dec i i0) as [[Hlt|Heq]|Hgt].
    + exfalso. by eapply Hfirst0.
    + subst i0. congruence.
    + exfalso. by eapply Hfirst.
  - exfalso. eapply find_candidate_None; [done| |done].
    eapply list_elem_of_lookup_2; done.
Qed.

(** ** How the matcher and the reaper change the ledger *)

Lemma pred_step_refl p : pred_step p p.
Proof. by left. Qed.

Lemma pred_step_trans p q r : pred_step p q → pred_step q r → pred_step p r.
Proof.
  intros [->|(Ho & Ht & Hor)] [->|(Ho' & Ht' & Hor')].
  - by left.
  - right. done.
  - right. done.
  - congruence.
Qed.

Lemma pred_steps_refl l : Forall2 pred_step l l.
Proof. induction l; constructor; auto using pred_step_refl. Qed.

Lemma pred_steps_trans l1 l2 l3 :
  Forall2 pred_step l1 l2 → Forall2 pred_step l2 l3 → Forall2 pred_step l1 l3.
Proof.
  intros H12. revert l3. induction H12; intros l3 H23; inversion H23; subst;
    constructor; eauto using pred_step_trans.
Qed.

Lemma ledger_step_refl d : ledger_step d d.
Proof.
  induction d; constructor; auto. split; [done | apply pred_steps_refl].
Qed.

Lemma ledger_step_trans d1 d2 d3 :
  ledger_step d1 d2 → ledger_step d2 d3 → ledger_step d1 d3.
Proof.
  intros H12. revert d3. induction H12 as [|x y d1 d2 [Hk Hl] _ IH];
    intros d3 H23; inversion H23 as [|? z ? d3' [Hk' Hl'] H23']; subst;
    constructor; [|by apply IH].
  split; [congruence | eauto using pred_steps_trans].
Qed.

Lemma ledger_step_keys d d' : ledger_step d d' → d'.*1 = d.*1.
Proof.
  induction 1 as [|x y d d' [Hk _] _ IH]; [done|].
  rewrite !fmap_cons. congruence.
Qed.

Lemma ledger_step_dget d d' k :
  ledger_step d d' →
  match dget k d with
  | Some l => ∃ l', dget k d' = Some l' ∧ Forall2 pred_step l l'
  | None => dget k d' = None
  end.
Proof.
  induction 1 as [|[k0 l0] [k1 l1] d d' [Hk Hl] _ IH]; simpl in *; [done|].
  subst k1. case_decide; [eauto | done].
Qed.

(** Assigning to a stop's list in place. *)
Lemma ledger_step_dset d k l l' :
  dget k d = Some l → Forall2 pred_step l l' → ledger_step d (dset k l' d).
Proof.
  induction d as [|[k0 l0] d IH]; simpl; [done|].
  case_decide; subst.
  - intros [= ->] Hl. constructor; [done | apply ledger_step_refl].
  - intros Hg Hl. constructor; [|by apply IH].
    split; [done | apply pred_steps_refl].
Qed.

(** Mutating one record of a list in place. *)
Lemma pred_steps_insert l i c c' :
  l !! i = Some c → pred_step c c' → Forall2 pred_step l (<[i:=c']> l).
Proof.
  revert i. induction l as [|p l IH]; intros [|i]; simpl; try done.
  - intros [= ->] Hs. constructor; [done | apply pred_steps_refl].
  - intros Hi Hs. constructor; [apply pred_step_refl | by apply IH].
Qed.

Lemma mark_matched_step c a d :
  status c = Open → pred_step c (mark_matched c a d).
Proof.
  intros Ho. right. split_and!; [done| |done].
  unfold status; simpl. by destruct (phantom c).
Qed.

Lemma mark_phantom_step c : status c = Open → pred_step c (mark_phantom c).
Proof. intros Ho. right. split_and!; done. Qed.

Lemma dset_dsetdefault {K V} `{EqDecision K} (k : K) (v0 v : V) d :
  dset k v (dsetdefault k v0 d).2 = dset k v d.
Proof.
  unfold dsetdefault. destruct (dget k d) eqn:E; simpl; [done|].
  induction d as [|[k1 v1] d IH]; simpl in *.
  - by case_decide.
  - case_decide; subst; [done|].
    simpl. case_decide; [done|]. f_equal. auto.
Qed.

Lemma dsetdefault_fst {K V} `{EqDecision K} (k : K) (v0 : V) d :
  (dsetdefault k v0 d).1 = default v0 (dget k d).
Proof. unfold dsetdefault. by destruct (dget k d). Qed.

(** The effect of one matching iteration that finds a candidate. *)
Lemma match_step_found ts_now bk stop_id veh_id tts preds i c :
  tts ≤ ARRIVAL_TTS_SEC →
  dget stop_id bk.1 = Some preds →
  find_candidate veh_id preds = Some (i, c) →
  let actual := ts_now + Z.max 0 tts in
  let drift := predictionTs c + timeToStation c - actual in
  match_step ts_now bk (stop_id, veh_id, tts) =
    (dset stop_id (<[i := mark_matched c actual drift]> preds) bk.1,
     dset stop_id (add_sample (stats_of stop_id bk.2) drift) bk.2).
Proof.
  intros Htts Hg Hf. unfold match_step.
  case_decide; [lia|]. rewrite Hg. simpl. rewrite Hf.
  pose proof (λ v, dset_dsetdefault stop_id empty_stats v bk.2) as Hd.
  pose proof (dsetdefault_fst stop_id empty_stats bk.2) as Hs.
  destruct (dsetdefault stop_id empty_stats bk.2) as [s stats1]. simpl in *.
  subst s. by rewrite Hd.
Qed.

(** The other two ways an iteration can go leave everything as it is. *)
Lemma match_step_skip ts_now bk stop_id veh_id tts :
  tts > ARRIVAL_TTS_SEC ∨
  find_candidate veh_id (default [] (dget stop_id bk.1)) = None →
  match_step ts_now bk (stop_id, veh_id, tts) = bk.
Proof.
  unfold match_step. intros [?|Hf]; case_decide; try done; try lia.
  by rewrite Hf.
Qed.

Lemma match_step_cases ts_now bk stop_id veh_id tts :
  match_step ts_now bk (stop_id, veh_id, tts) = bk ∨
  ∃ preds i c,
    tts ≤ ARRIVAL_TTS_SEC ∧ dget stop_id bk.1 = Some preds ∧
    find_candidate veh_id preds = Some (i, c).
Proof.
  destruct (decide (tts > ARRIVAL_TTS_SEC)) as [?|Hle].
  { left. apply match_step_skip. by left. }
  destruct (find_candidate veh_id (default [] (dget stop_id bk.1)))
    as [[i c]|] eqn:Hf.
  - right. destruct (dget stop_id bk.1) as [preds|] eqn:Hg; [|done].
    exists preds, i, c. split_and!; [lia | done..].
  - left. apply match_step_skip. by right.
Qed.

Lemma match_step_ledger ts_now bk entry :
  ledger_step bk.1 (match_step ts_now bk entry).1.
Proof.
  destruct entry as [[stop_id veh_id] tts].
  destruct (match_step_cases ts_now bk stop_id veh_id tts)
    as [->|(preds & i & c & Htts & Hg & Hf)]; [apply ledger_step_refl|].
  rewrite (match_step_found _ _ _ _ _ _ _ _ Htts Hg Hf). simpl.
  destruct (find_candidate_Some _ _ _ _ Hf) as (Hi & [Ho _] & _).
  eapply ledger_step_dset; [done|].
  eapply pred_steps_insert; [done|]. by apply mark_matched_step.
Qed.

Lemma match_phase_ledger ts_now curr bk :
  ledger_step bk.1 (match_phase ts_now bk curr).1.
Proof.
  unfold match_phase. revert bk.
  induction curr as [|e curr IH]; intros bk; simpl; [apply ledger_step_refl|].
  eapply ledger_step_trans; [apply match_step_ledger | apply IH].
Qed.

(** ** The reaper, record by record *)

Lemma reap_preds_spec ts_now preds s :
  reap_preds ts_now preds s =
    (reap_one ts_now <$> preds,
     add_phantoms s (length (filter (overdue ts_now) preds))).
Proof.
  revert s. induction preds as [|p rest IH]; intros s; simpl.
  - unfold add_phantoms. simpl. rewrite Z.add_0_r. by destruct s.
  - unfold reap_one at 1. rewrite filter_cons.
    destruct (matched p) eqn:M.
    + rewrite IH. rewrite !decide_False; [done | |].
      all: intros [Ho _]; apply status_Open in Ho; congruence.
    + assert (status p = Open) as Ho by by apply status_Open.
      destruct (decide (ts_now > expectedArrivalTs p + PHANTOM_GRACE_SEC)).
      * rewrite IH. rewrite !decide_True by done. f_equal.
        unfold add_phantoms, add_phantom. simpl. f_equal. lia.
      * rewrite IH. rewrite !decide_False; [done | |].
        all: by intros [_ ?].
Qed.

Lemma reap_one_step ts_now p : pred_step p (reap_one ts_now p).
Proof.
  unfold reap_one. case_decide as Hov; [|apply pred_step_refl].
  apply mark_phantom_step, Hov.
Qed.

Lemma reap_stops_fst ts_now items stats :
  (reap_stops ts_now items stats).1 = reap_item ts_now <$> items.
Proof.
  revert stats. induction items as [|[k preds] rest IH]; intros stats; [done|].
  simpl. destruct (dsetdefault k empty_stats stats) as [s stats1].
  rewrite reap_preds_spec.
  specialize (IH (dset k (add_phantoms s
    (length (filter (overdue ts_now) preds))) stats1)).
  destruct (reap_stops ts_now rest _) as [rest' stats']. simpl in *.
  by rewrite IH.
Qed.

(** What the reaper leaves in the aggregator for a stop. *)
Lemma reap_stops_snd ts_now items stats k :
  NoDup items.*1 →
  dget k (reap_stops ts_now items stats).2 =
    match dget k items with
    | Some preds =>
        Some (add_phantoms (stats_of k stats)
                (length (filter (overdue ts_now) preds)))
    | None => dget k stats
    end.
Proof.
  revert stats. induction items as [|[k0 preds] rest IH]; intros stats; [done|].
  rewrite fmap_cons. intros [Hk0 Hnd]%NoDup_cons. simpl in Hk0. simpl.
  pose proof (λ v, dset_dsetdefault k0 empty_stats v stats) as Hd.
  pose proof (dsetdefault_fst k0 empty_stats stats) as Hs.
  destruct (dsetdefault k0 empty_stats stats) as [s stats1]. simpl in *.
  rewrite reap_preds_spec, Hd. subst s.
  specialize (IH (dset k0 (add_phantoms (default empty_stats (dget k0 stats))
    (length (filter (overdue ts_now) preds))) stats) Hnd).
  destruct (reap_stops ts_now rest _) as [rest' stats']. simpl in *.
  rewrite IH. case_decide; subst.
  - apply dget_None_keys in Hk0. rewrite Hk0. by rewrite dget_dset_eq.
  - destruct (dget k rest); [|by rewrite dget_dset_ne].
    unfold stats_of. by rewrite dget_dset_ne.
Qed.

Lemma reap_phase_ledger ts_now bk : ledger_step bk.1 (reap_phase ts_now bk).1.
Proof.
  unfold reap_phase. rewrite reap_stops_fst.
  induction bk.1 as [|[k preds] rest IH]; [constructor|].
  rewrite fmap_cons. constructor; [|done]. split; [done|]. simpl.
  induction preds; constructor; auto using reap_one_step.
Qed.

Lemma detect_ledger st arrivals ts_now :
  ledger_step (predictions st)
    (predictions (detect_arrivals_and_score st arrivals ts_now)).
Proof.
  unfold detect_arrivals_and_score. simpl.
  eapply ledger_step_trans; [|apply reap_phase_ledger].
  apply (match_phase_ledger ts_now (index_arrivals arrivals) (books st)).
Qed.

Lemma detect_cycles_ledger st cycles :
  ledger_step (predictions st) (predictions (detect_cycles st cycles)).
Proof.
  unfold detect_cycles. revert st.
  induction cycles as [|c cycles IH]; intros st; simpl; [apply ledger_step_refl|].
  eapply ledger_step_trans; [apply detect_ledger | apply IH].
Qed.

(** A record that is terminal stays exactly as it is, where it is. *)
Lemma ledger_step_terminal d d' k preds i p :
  ledger_step d d' → dget k d = Some preds → preds !! i = Some p →
  status p ≠ Open →
  ∃ preds', dget k d' = Some preds' ∧ preds' !! i = Some p.
Proof.
  intros Hstep Hg Hi Ht.
  pose proof (ledger_step_dget d d' k Hstep) as Hk. rewrite Hg in Hk.
  destruct Hk as (preds' & Hg' & Hl). exists preds'. split; [done|].
  destruct (Forall2_lookup_l _ _ _ _ _ Hl Hi) as (p' & Hi' & [->|(Ho & _)]);
    [done | congruence].
Qed.

(** ** The matcher *)

Lemma creation_ordered_lookup preds i j p q :
  creation_ordered preds → (i ≤ j)%nat →
  preds !! i = Some p → preds !! j = Some q →
  predictionTs p ≤ predictionTs q.
Proof.
  intros Hs. revert i j. induction Hs as [|x l Hs IH Hall]; intros i j Hij; [done|].
  destruct i as [|i], j as [|j]; simpl; try lia.
  - intros [= <-] [= <-]. lia.
  - intros [= <-] Hq. rewrite Forall_forall in Hall. apply Hall.
    by eapply list_elem_of_lookup_2.
  - apply IH. lia.
Qed.

(** C3: a prediction that is Matched or Phantom is not the candidate of any
    scan, and after any sequence of match-and-reap passes it is still in the
    same place, unchanged, and still not the candidate of any scan. *)
Theorem terminal_never_reselected st cycles k preds i p :
  dget k (predictions st) = Some preds →
  preds !! i = Some p →
  status p ≠ Open →
  (∀ veh_id c, find_candidate veh_id preds ≠ Some (i, c)) ∧
  ∃ preds',
    dget k (predictions (detect_cycles st cycles)) = Some preds' ∧
    preds' !! i = Some p ∧
    ∀ veh_id c, find_candidate veh_id preds' ≠ Some (i, c).
Proof.
  intros Hg Hi Ht.
  assert (∀ l, l !! i = Some p →
            ∀ veh_id c, find_candidate veh_id l ≠ Some (i, c)) as Hscan.
  { intros l Hl veh_id c Hf.
    destruct (find_candidate_Some _ _ _ _ Hf) as (Hc & [Ho _] & _).
    congruence. }
  split; [by apply Hscan|].
  destruct (ledger_step_terminal _ _ k preds i p
              (detect_cycles_ledger st cycles) Hg Hi Ht) as (preds' & Hg' & Hi').
  exists preds'. split_and!; [done..|]. by apply Hscan.
Qed.

(** C2: with two or more open predictions for the vehicle in the stop's
    sequence, processing an arriving observation marks the first of them in
    insertion order and leaves every other record as it was; in a sequence
    that is in creation order that first one has the earliest creation
    instant among the open predictions for the vehicle. *)
Theorem matching_is_oldest_first ts_now bk stop_id veh_id tts preds j1 j2 p1 p2 :
  tts ≤ ARRIVAL_TTS_SEC →
  dget stop_id bk.1 = Some preds →
  preds !! j1 = Some p1 → open_for veh_id p1 →
  preds !! j2 = Some p2 → open_for veh_id p2 →
  (j1 < j2)%nat →
  (∀ j p, (j < j1)%nat → preds !! j = Some p → ¬ open_for veh_id p) →
  find_candidate veh_id preds = Some (j1, p1) ∧
  (∃ preds' c',
     dget stop_id (match_step ts_now bk (stop_id, veh_id, tts)).1 = Some preds' ∧
     preds' !! j1 = Some c' ∧ matched c' = true ∧ origin c' = origin p1 ∧
     preds' !! j2 = Some p2 ∧
     ∀ j p, j ≠ j1 → preds !! j = Some p → preds' !! j = Some p) ∧
  (creation_ordered preds →
   ∀ j p, preds !! j = Some p → open_for veh_id p →
     predictionTs p1 ≤ predictionTs p).
Proof.
  intros Htts Hg H1 Ho1 H2 Ho2 Hlt Hfirst.
  assert (find_candidate veh_id preds = Some (j1, p1)) as Hf
    by by apply find_candidate_first.
  split_and!; [done| |].
  - rewrite (match_step_found _ _ _ _ _ _ _ _ Htts Hg Hf). simpl.
    eexists _, _. rewrite dget_dset_eq. split_and!; [done| | | | |].
    + apply list_lookup_insert_eq. by eapply lookup_lt_Some.
    + done.
    + done.
    + rewrite list_lookup_insert_ne by lia. done.
    + intros j p Hj Hp. by rewrite list_lookup_insert_ne.
  - intros Hord j p Hj Hop.
    destruct (decide (j < j1)%nat) as [Hlt'|Hge].
    + exfalso. by eapply Hfirst.
    + eapply (creation_ordered_lookup preds j1 j); [done | lia | done..].
Qed.

(** C5: after the matcher of a cycle has run, the reaper turns exactly the
    still-open predictions with [ts_now > expectedArrivalTs + grace] into
    Phantom and adds their number to the stop's phantom count; an open
    prediction within the grace period stays Open, and a prediction that is
    not Open after the matcher (matched in this cycle or before) is left as
    the matcher left it. *)
Theorem reaper_after_matcher st arrivals ts_now k preds :
  NoDup (predictions st).*1 →
  let mid := match_phase ts_now (books st) (index_arrivals arrivals) in
  let fin := detect_arrivals_and_score st arrivals ts_now in
  dget k mid.1 = Some preds →
  ∃ preds',
    dget k (predictions fin) = Some preds' ∧
    length preds' = length preds ∧
    (∀ i p, preds !! i = Some p →
       ∃ p', preds' !! i = Some p' ∧
         (status p = Open →
          ts_now > expectedArrivalTs p + PHANTOM_GRACE_SEC →
          status p' = Phantom ∧ origin p' = origin p) ∧
         (status p = Open →
          ts_now ≤ expectedArrivalTs p + PHANTOM_GRACE_SEC → p' = p) ∧
         (status p ≠ Open → p' = p)) ∧
    phantoms (stats_of k (stopStats fin)) =
      phantoms (stats_of k mid.2)
      + Z.of_nat (length (filter (overdue ts_now) preds)) ∧
    samples (stats_of k (stopStats fin)) = samples (stats_of k mid.2) ∧
    sumDriftSec (stats_of k (stopStats fin)) = sumDriftSec (stats_of k mid.2).
Proof.
  intros Hnd mid fin Hg.
  assert (NoDup mid.1.*1) as Hnd'.
  { unfold mid.
    rewrite (ledger_step_keys _ _
      (match_phase_ledger ts_now (index_arrivals arrivals) (books st))).
    done. }
  assert (predictions fin = reap_item ts_now <$> mid.1) as Hfin.
  { unfold fin, detect_arrivals_and_score. simpl. fold mid.
    unfold reap_phase. apply reap_stops_fst. }
  assert (dget k (stopStats fin) =
          Some (add_phantoms (stats_of k mid.2)
                  (length (filter (overdue ts_now) preds)))) as Hstats.
  { unfold fin, detect_arrivals_and_score. simpl. fold mid.
    unfold reap_phase. rewrite reap_stops_snd by done. by rewrite Hg. }
  exists (reap_one ts_now <$> preds). split_and!.
  - rewrite Hfin. clear -Hg. induction mid.1 as [|[k0 l0] d IH]; [done|].
    simpl in *. case_decide; [by injection Hg as -> | auto].
  - by rewrite length_fmap.
  - intros i p Hi. exists (reap_one ts_now p). split_and!.
    + by rewrite list_lookup_fmap, Hi.
    + intros Ho Hlate. unfold reap_one. rewrite decide_True by done. done.
    + intros Ho Hearly. unfold reap_one. rewrite decide_False; [done|].
      intros [_ ?]. lia.
    + intros Ht. unfold reap_one. rewrite decide_False; [done|].
      by intros [? _].
  - unfold stats_of at 1. by rewrite Hstats.
  - unfold stats_of at 1. by rewrite Hstats.
  - unfold stats_of at 1. by rewrite Hstats.
Qed.


(** ** The ledger: ingestion and eviction *)

Lemma truthy_Some s : s ≠ EmptyString → truthy (Some s) = Some s.
Proof. intros. unfold truthy. by rewrite decide_False. Qed.

Lemma truthy_inv o s : truthy o = Some s → o = Some s ∧ s ≠ EmptyString.
Proof.
  destruct o as [s'|]; simpl; [|done]. case_decide; [done|].
  by intros [= <-].
Qed.

Lemma batch_records_ts parse_iso ts k arrivals p :
  p ∈ batch_records parse_iso ts k arrivals →
  predictionTs p = ts ∧ status p = Open ∧ pred_wf p.
Proof.
  induction arrivals as [|a rest IH]; simpl; [by intros ?%elem_of_nil|].
  destruct (truthy (Arrival.naptanId a)); [|done].
  destruct (truthy (Arrival.vehicleId a)); [|done].
  destruct (Arrival.timeToStation a); [|done].
  destruct (truthy (Arrival.expectedArrival a)); [|done].
  destruct (parse_iso _); [|by intros ?%elem_of_nil].
  case_decide; [|done].
  intros [->|?]%elem_of_cons; [done | auto].
Qed.

(** Ingestion only appends: each stop's sequence afterwards is the one
    before followed by the batch's records for the stop. *)
Lemma ingest_dget parse_iso ts arrivals d k :
  dget k (outcome_state (ingest parse_iso ts arrivals d)) =
    match batch_records parse_iso ts k arrivals with
    | [] => dget k d
    | b => Some (default [] (dget k d) ++ b)
    end.
Proof.
  revert d. induction arrivals as [|a rest IH]; intros d; simpl; [done|].
  destruct (truthy (Arrival.naptanId a)) as [stop_id|]; [|apply IH].
  destruct (truthy (Arrival.vehicleId a)) as [veh_id|]; [|apply IH].
  destruct (Arrival.timeToStation a) as [tts|]; [|apply IH].
  destruct (truthy (Arrival.expectedArrival a)) as [exp_arr|]; [|apply IH].
  destruct (parse_iso exp_arr) as [exp_ts|]; [|done].
  rewrite IH. rewrite dget_dset. case_decide; subst.
  - rewrite decide_True by done. simpl.
    destruct (batch_records parse_iso ts stop_id rest); [done|].
    by rewrite <- app_assoc.
  - rewrite decide_False by done. done.
Qed.

Lemma ingest_default parse_iso ts arrivals d k :
  default [] (dget k (outcome_state (ingest parse_iso ts arrivals d))) =
    default [] (dget k d) ++ batch_records parse_iso ts k arrivals.
Proof.
  rewrite ingest_dget.
  destruct (batch_records parse_iso ts k arrivals); [|done].
  by rewrite app_nil_r.
Qed.

Lemma ingest_NoDup parse_iso ts arrivals d :
  NoDup d.*1 → NoDup (outcome_state (ingest parse_iso ts arrivals d)).*1.
Proof.
  revert d. induction arrivals as [|a rest IH]; intros d Hnd; simpl; [done|].
  destruct (truthy (Arrival.naptanId a)) as [stop_id|]; [|by apply IH].
  destruct (truthy (Arrival.vehicleId a)) as [veh_id|]; [|by apply IH].
  destruct (Arrival.timeToStation a) as [tts|]; [|by apply IH].
  destruct (truthy (Arrival.expectedArrival a)) as [exp_arr|]; [|by apply IH].
  destruct (parse_iso exp_arr) as [exp_ts|]; [|done].
  apply IH. by apply dset_NoDup.
Qed.

(** Ingestion returns whenever every timestamp it has to parse parses. *)
Lemma ingest_returns parse_iso ts arrivals d :
  (∀ a e, a ∈ arrivals → truthy (Arrival.expectedArrival a) = Some e →
     is_Some (parse_iso e)) →
  ∃ d', ingest parse_iso ts arrivals d = Returned d'.
Proof.
  revert d. induction arrivals as [|a rest IH]; intros d Hp; simpl; [eauto|].
  assert (∀ d, ∃ d', ingest parse_iso ts rest d = Returned d') as IH'.
  { intros d0. apply IH. intros a0 e Ha. apply Hp. by right. }
  destruct (truthy (Arrival.naptanId a)) as [stop_id|]; [|done].
  destruct (truthy (Arrival.vehicleId a)) as [veh_id|]; [|done].
  destruct (Arrival.timeToStation a) as [tts|]; [|done].
  destruct (truthy (Arrival.expectedArrival a)) as [exp_arr|] eqn:He; [|done].
  destruct (Hp a exp_arr) as [exp_ts ->]; [by left | done | done].
Qed.

(** So does [update_predictions]: missing fields never make it raise. *)
Lemma update_predictions_returns parse_iso st arrivals ts :
  (∀ a e, a ∈ arrivals → truthy (Arrival.expectedArrival a) = Some e →
     is_Some (parse_iso e)) →
  ∃ st', update_predictions parse_iso st arrivals ts = Returned st'.
Proof.
  intros Hp. unfold update_predictions.
  destruct (ingest_returns parse_iso ts arrivals (predictions st) Hp) as [d ->].
  eauto.
Qed.

(** The pruning loop, key by key. *)
Lemma prune_fold_dget ts items acc k :
  NoDup items.*1 →
  dget k (fold_left (prune_step ts) items acc) =
    match dget k items with
    | Some preds =>
        match filter (young ts) preds with
        | [] => None
        | newp => Some newp
        end
    | None => dget k acc
    end.
Proof.
  revert acc. induction items as [|[k0 p0] rest IH]; intros acc; [done|].
  rewrite fmap_cons. intros [Hk0 Hnd]%NoDup_cons. simpl in Hk0.
  cbn [fold_left]. rewrite IH by done. cbn [dget].
  case_decide; subst.
  - apply dget_None_keys in Hk0. rewrite Hk0.
    unfold prune_step.
    change (filter _ p0) with (filter (young ts) p0).
    destruct (filter (young ts) p0) eqn:Hf.
    + rewrite dget_dpop. by rewrite decide_True.
    + by rewrite dget_dset_eq.
  - destruct (dget k rest); [done|].
    unfold prune_step. destruct (filter _ p0).
    + rewrite dget_dpop. by rewrite decide_False.
    + by rewrite dget_dset_ne.
Qed.

Lemma prune_dget ts d k :
  NoDup d.*1 →
  dget k (prune ts d) =
    match dget k d with
    | Some preds =>
        match filter (young ts) preds with
        | [] => None
        | newp => Some newp
        end
    | None => None
    end.
Proof.
  intros Hnd. unfold prune. rewrite prune_fold_dget by done.
  by destruct (dget k d).
Qed.

Lemma prune_default ts d k :
  NoDup d.*1 →
  default [] (dget k (prune ts d)) = filter (young ts) (default [] (dget k d)).
Proof.
  intros Hnd. rewrite prune_dget by done.
  destruct (dget k d) as [preds|]; [|done]. simpl.
  by destruct (filter (young ts) preds).
Qed.

Lemma prune_NoDup ts d : NoDup d.*1 → NoDup (prune ts d).*1.
Proof.
  unfold prune. generalize d at 1 3. intros acc. revert acc.
  induction d as [|[k0 p0] rest IH]; intros acc Hnd; [done|].
  cbn [fold_left]. apply IH. unfold prune_step.
  destruct (filter _ p0); [by apply dpop_NoDup | by apply dset_NoDup].
Qed.

Lemma update_predictions_NoDup parse_iso st arrivals ts :
  NoDup (predictions st).*1 →
  NoDup (predictions (outcome_state (update_predictions parse_iso st arrivals ts))).*1.
Proof.
  intros Hnd. unfold update_predictions.
  pose proof (ingest_NoDup parse_iso ts arrivals _ Hnd) as Hi.
  destruct (ingest parse_iso ts arrivals (predictions st)); simpl in *; [|done].
  by apply prune_NoDup.
Qed.

Lemma ledger_run_snoc parse_iso st calls arrivals ts st' :
  NoDup (predictions st).*1 →
  ledger_run parse_iso st (calls ++ [(arrivals, ts)]) = Returned st' →
  ∃ st1, NoDup (predictions st1).*1 ∧
    ledger_run parse_iso st calls = Returned st1 ∧
    update_predictions parse_iso st1 arrivals ts = Returned st'.
Proof.
  revert st. induction calls as [|[a0 ts0] calls IH]; intros st Hnd; simpl.
  - destruct (update_predictions parse_iso st arrivals ts) eqn:Hu; [|done].
    intros [= ->]. eauto.
  - pose proof (update_predictions_NoDup parse_iso st a0 ts0 Hnd) as Hnd'.
    destruct (update_predictions parse_iso st a0 ts0); [|done].
    simpl in Hnd'. intros Hrun. by apply IH.
Qed.

(** C4: after the eviction step of an ingest-then-evict call, at the end of
    any run of such calls, no prediction older than the limit remains,
    whatever its status; no stop is left with an empty sequence, a stop
    whose predictions were all too old has no entry at all; and every
    prediction that is not too old is still there. *)
Theorem eviction_drops_old_predictions parse_iso st calls arrivals ts st' :
  NoDup (predictions st).*1 →
  ledger_run parse_iso st (calls ++ [(arrivals, ts)]) = Returned st' →
  ∃ st1 d,
    ledger_run parse_iso st calls = Returned st1 ∧
    ingest parse_iso ts arrivals (predictions st1) = Returned d ∧
    predictions st' = prune ts d ∧
    (∀ k preds p, dget k (predictions st') = Some preds → p ∈ preds →
       ¬ (ts - predictionTs p > PREDICTION_MAX_AGE_SEC)) ∧
    (∀ k preds, dget k (predictions st') = Some preds → preds ≠ []) ∧
    (∀ k preds, dget k d = Some preds →
       Forall (λ p, ts - predictionTs p > PREDICTION_MAX_AGE_SEC) preds →
       dget k (predictions st') = None ∧ k ∉ (predictions st').*1) ∧
    (∀ k preds p, dget k d = Some preds → p ∈ preds →
       ts - predictionTs p ≤ PREDICTION_MAX_AGE_SEC →
       ∃ preds', dget k (predictions st') = Some preds' ∧ p ∈ preds' ∧
         preds' = filter (young ts) preds).
Proof.
  intros Hnd Hrun.
  destruct (ledger_run_snoc _ _ _ _ _ _ Hnd Hrun) as (st1 & Hnd1 & Hr1 & Hu).
  unfold update_predictions in Hu.
  pose proof (ingest_NoDup parse_iso ts arrivals _ Hnd1) as Hd.
  destruct (ingest parse_iso ts arrivals (predictions st1)) as [d|] eqn:Hi;
    [|done].
  injection Hu as <-. simpl in *. exists st1, d.
  do 3 (split; [done|]).
  assert (∀ k preds, dget k (prune ts d) = Some preds →
            ∃ old, dget k d = Some old ∧ preds = filter (young ts) old ∧
                   preds ≠ []) as Hkept.
  { intros k preds. rewrite prune_dget by done.
    destruct (dget k d) as [old|]; [|done].
    destruct (filter (young ts) old) eqn:Hf; [done|].
    intros [= <-]. exists old. by rewrite Hf. }
  split_and!.
  - intros k preds p Hg Hp. destruct (Hkept _ _ Hg) as (old & _ & -> & _).
    apply list_elem_of_filter in Hp as [Hy _]. unfold young in Hy. lia.
  - intros k preds Hg. by destruct (Hkept _ _ Hg) as (old & _ & _ & ?).
  - intros k preds Hg Hold.
    assert (dget k (prune ts d) = None) as Hn.
    { rewrite prune_dget, Hg by done.
      destruct (filter (young ts) preds) as [|p l] eqn:Hf; [done|].
      assert (p ∈ filter (young ts) preds) as Hp by (rewrite Hf; left).
      apply list_elem_of_filter in Hp as [Hy Hp].
      rewrite Forall_forall in Hold. specialize (Hold p Hp).
      unfold young in Hy. lia. }
    split; [done | by apply dget_None_keys].
  - intros k preds p Hg Hp Hy. exists (filter (young ts) preds).
    assert (p ∈ filter (young ts) preds) as Hin
      by by apply list_elem_of_filter.
    split_and!; [|done..]. rewrite prune_dget, Hg by done.
    destruct (filter (young ts) preds); [by apply elem_of_nil in Hin | done].
Qed.

(** ** Order of a stop's sequence *)

Lemma pred_step_origin p p' : pred_step p p' → origin p' = origin p.
Proof. by intros [->|(_ & _ & ?)]. Qed.

Lemma pred_steps_origin l l' :
  Forall2 pred_step l l' → origin <$> l' = origin <$> l.
Proof.
  induction 1 as [|p p' l l' Hp _ IH]; [done|].
  rewrite !fmap_cons. f_equal; [by apply pred_step_origin | done].
Qed.

Lemma origin_predictionTs p q : origin p = origin q → predictionTs p = predictionTs q.
Proof. unfold origin. by intros [= _ ? _ _]. Qed.

Lemma creation_ordered_steps l l' :
  Forall2 pred_step l l' → creation_ordered l → creation_ordered l'.
Proof.
  unfold creation_ordered.
  induction 1 as [|p p' l l' Hp Hl IH]; [done|].
  rewrite !StronglySorted_cons. intros [Hall Hs]. split; [|auto].
  rewrite Forall_forall in Hall. apply Forall_forall. intros q' Hq'.
  apply list_elem_of_lookup in Hq' as [i Hi].
  destruct (Forall2_lookup_r _ _ _ _ _ Hl Hi) as (q & Hq & Hstep).
  rewrite (origin_predictionTs _ _ (pred_step_origin _ _ Hp)).
  rewrite (origin_predictionTs _ _ (pred_step_origin _ _ Hstep)).
  apply Hall. by eapply list_elem_of_lookup_2.
Qed.

Lemma creation_ordered_filter (P : Prediction → Prop)
    `{∀ p, Decision (P p)} l :
  creation_ordered l → creation_ordered (filter P l).
Proof.
  unfold creation_ordered. induction 1 as [|p l Hs IH Hall]; [constructor|].
  rewrite filter_cons. case_decide; [|done].
  constructor; [done|]. rewrite Forall_forall in Hall. apply Forall_forall.
  intros q [_ Hq]%list_elem_of_filter. by apply Hall.
Qed.

Lemma creation_ordered_same_instant ts l :
  (∀ p, p ∈ l → predictionTs p = ts) → creation_ordered l.
Proof.
  unfold creation_ordered. induction l as [|p l IH]; intros Hall; [constructor|].
  constructor.
  - apply IH. intros q Hq. apply Hall. by right.
  - apply Forall_forall. intros q Hq.
    rewrite (Hall p), (Hall q); [lia | by right | by left].
Qed.

Lemma ledger_step_dget_r d d' k l' :
  ledger_step d d' → dget k d' = Some l' →
  ∃ l, dget k d = Some l ∧ Forall2 pred_step l l'.
Proof.
  intros Hstep Hg'. pose proof (ledger_step_dget d d' k Hstep) as Hk.
  destruct (dget k d) as [l|]; [|congruence].
  destruct Hk as (l0 & Hg0 & Hl). exists l. split; [done|]. congruence.
Qed.

Lemma ledger_step_default d d' k :
  ledger_step d d' →
  Forall2 pred_step (default [] (dget k d)) (default [] (dget k d')).
Proof.
  intros Hstep. pose proof (ledger_step_dget d d' k Hstep) as Hk.
  destruct (dget k d) as [l|].
  - destruct Hk as (l' & -> & Hl). done.
  - rewrite Hk. constructor.
Qed.

(** After a call of [update_predictions], however it ended. *)
Lemma update_predictions_default parse_iso st arrivals ts k :
  NoDup (predictions st).*1 →
  default [] (dget k (predictions
    (outcome_state (update_predictions parse_iso st arrivals ts)))) =
  match update_predictions parse_iso st arrivals ts with
  | Returned _ =>
      filter (young ts)
        (default [] (dget k (predictions st))
           ++ batch_records parse_iso ts k arrivals)
  | Raised _ =>
      default [] (dget k (predictions st))
        ++ batch_records parse_iso ts k arrivals
  end.
Proof.
  intros Hnd. unfold update_predictions.
  pose proof (ingest_default parse_iso ts arrivals (predictions st) k) as Hi.
  pose proof (ingest_NoDup parse_iso ts arrivals _ Hnd) as Hd.
  destruct (ingest parse_iso ts arrivals (predictions st)) as [d|d];
    simpl in *; [|done].
  rewrite prune_default by done. by rewrite Hi.
Qed.

(** C10: ingestion appends the batch's records after the stop's existing
    sequence, eviction keeps the survivors in the order they had, and the
    matcher and the reaper change no stop's position, no sequence's length
    and no record's origin; hence a ledger whose sequences are in creation
    order stays so, as long as the clock reading of an ingestion is not
    before the creation of a record already there. *)
Theorem sequence_order_preserved parse_iso st arrivals ts ts_now :
  NoDup (predictions st).*1 →
  let upd := update_predictions parse_iso st arrivals ts in
  let det := detect_arrivals_and_score st arrivals ts_now in
  (∀ k,
     default [] (dget k (predictions (outcome_state upd))) =
       match upd with
       | Returned _ =>
           filter (young ts)
             (default [] (dget k (predictions st))
                ++ batch_records parse_iso ts k arrivals)
       | Raised _ =>
           default [] (dget k (predictions st))
             ++ batch_records parse_iso ts k arrivals
       end) ∧
  ((predictions det).*1 = (predictions st).*1 ∧
   ∀ k, origin <$> default [] (dget k (predictions det)) =
        origin <$> default [] (dget k (predictions st))) ∧
  (ledger_ordered (predictions st) → ledger_before ts (predictions st) →
   ledger_ordered (predictions (outcome_state upd)) ∧
   ledger_before ts (predictions (outcome_state upd))) ∧
  (ledger_ordered (predictions st) → ledger_ordered (predictions det)) ∧
  (∀ t, ledger_before t (predictions st) → ledger_before t (predictions det)).
Proof.
  intros Hnd upd det.
  pose proof (update_predictions_default parse_iso st arrivals ts) as Hupd.
  pose proof (detect_ledger st arrivals ts_now) as Hdet. fold det in Hdet.
  split_and!.
  - intros k. by apply Hupd.
  - by apply ledger_step_keys.
  - intros k. apply pred_steps_origin. by apply ledger_step_default.
  - intros Hord Hbef.
    assert (∀ k preds,
      dget k (predictions (outcome_state upd)) = Some preds →
      ∃ old, preds = old ∧
        creation_ordered old ∧ ∀ p, p ∈ old → predictionTs p ≤ ts) as Hboth.
    { intros k preds Hg. exists preds. split; [done|].
      specialize (Hupd k Hnd). fold upd in Hupd. rewrite Hg in Hupd.
      simpl in Hupd.
      assert (creation_ordered (default [] (dget k (predictions st))
                ++ batch_records parse_iso ts k arrivals) ∧
              ∀ p, p ∈ default [] (dget k (predictions st))
                ++ batch_records parse_iso ts k arrivals →
                predictionTs p ≤ ts) as [Hs Hb].
      { assert (∀ p, p ∈ default [] (dget k (predictions st)) →
                  predictionTs p ≤ ts) as Hold.
        { destruct (dget k (predictions st)) as [old|] eqn:Ho; simpl.
          - intros p Hp. by eapply Hbef.
          - by intros p ?%elem_of_nil. }
        split.
        - apply StronglySorted_app_2.
          + intros p q Hp Hq. apply batch_records_ts in Hq as [-> _]. auto.
          + destruct (dget k (predictions st)) as [old|] eqn:Ho; simpl;
              [by eapply Hord | constructor].
          + apply (creation_ordered_same_instant ts).
            intros p Hp. by apply batch_records_ts in Hp as [? _].
        - intros p [Hp|Hp]%elem_of_app; [auto|].
          apply batch_records_ts in Hp as [-> _]. lia. }
      destruct upd; rewrite Hupd.
      - split; [by apply creation_ordered_filter|].
        intros p [_ Hp]%list_elem_of_filter. auto.
      - done. }
    split.
    + intros k preds Hg. by destruct (Hboth _ _ Hg) as (? & -> & ? & _).
    + intros k preds p Hg Hp. destruct (Hboth _ _ Hg) as (? & -> & _ & Hb).
      auto.
  - intros Hord k preds' Hg'.
    destruct (ledger_step_dget_r _ _ _ _ Hdet Hg') as (preds & Hg & Hl).
    eapply creation_ordered_steps; [done|]. by eapply Hord.
  - intros t Hbef k preds' p' Hg' Hp'.
    destruct (ledger_step_dget_r _ _ _ _ Hdet Hg') as (preds & Hg & Hl).
    apply list_elem_of_lookup in Hp' as [i Hi].
    destruct (Forall2_lookup_r _ _ _ _ _ Hl Hi) as (p & Hp & Hstep).
    rewrite (origin_predictionTs _ _ (pred_step_origin _ _ Hstep)).
    eapply Hbef; [done|]. by eapply list_elem_of_lookup_2.
Qed.

(** ** The aggregator *)

Lemma stats_grow_refl keys s : stats_grow keys s s.
Proof. intros k. split_and!; auto; lia. Qed.

Lemma stats_grow_trans keys s1 s2 s3 :
  stats_grow keys s1 s2 → stats_grow keys s2 s3 → stats_grow keys s1 s3.
Proof.
  intros H12 H23 k.
  destruct (H12 k) as (Ha & Hb & Hc & Hd & He).
  destruct (H23 k) as (Ha' & Hb' & Hc' & Hd' & He').
  split_and!; [auto| |lia|lia|].
  - intros [?|?]%Hb'; [auto | by right].
  - intros Heq. rewrite He', He; [done | lia | lia].
Qed.

Lemma match_step_stats ts_now bk entry :
  stats_grow bk.1.*1 bk.2 (match_step ts_now bk entry).2.
Proof.
  destruct entry as [[stop_id veh_id] tts].
  destruct (match_step_cases ts_now bk stop_id veh_id tts)
    as [->|(preds & i & c & Htts & Hg & Hf)]; [apply stats_grow_refl|].
  rewrite (match_step_found _ _ _ _ _ _ _ _ Htts Hg Hf). simpl.
  intros k. unfold stats_of. rewrite !dget_dset. case_decide; subst.
  - split_and!; simpl; [eauto| |lia|lia|lia].
    intros _. right. by eapply dget_Some_keys.
  - split_and!; auto; lia.
Qed.

Lemma match_phase_stats ts_now curr bk :
  stats_grow bk.1.*1 bk.2 (match_phase ts_now bk curr).2.
Proof.
  unfold match_phase. revert bk.
  induction curr as [|e curr IH]; intros bk; simpl; [apply stats_grow_refl|].
  eapply stats_grow_trans; [apply match_step_stats|].
  rewrite <- (ledger_step_keys _ _ (match_step_ledger ts_now bk e)).
  apply IH.
Qed.

Lemma reap_phase_stats ts_now bk k :
  NoDup bk.1.*1 →
  (is_Some (dget k (reap_phase ts_now bk).2) ↔
     is_Some (dget k bk.2) ∨ k ∈ bk.1.*1) ∧
  samples (stats_of k (reap_phase ts_now bk).2) = samples (stats_of k bk.2) ∧
  sumDriftSec (stats_of k (reap_phase ts_now bk).2) =
    sumDriftSec (stats_of k bk.2) ∧
  phantoms (stats_of k bk.2) ≤ phantoms (stats_of k (reap_phase ts_now bk).2).
Proof.
  intros Hnd. unfold reap_phase, stats_of at 1 3 6.
  rewrite reap_stops_snd by done.
  destruct (dget k bk.1) as [preds|] eqn:Hg.
  - simpl. split_and!; [|done|done|lia].
    split; [|eauto]. intros _. right. by eapply dget_Some_keys.
  - apply dget_None_keys in Hg. split_and!; [|done|done|].
    + split; [auto | by intros [?|?]].
    + fold (stats_of k bk.2). lia.
Qed.

Lemma ensure_stop_metadata_others fetch st arrivals calls :
  predictions (ensure_stop_metadata fetch st arrivals calls).1 = predictions st ∧
  stopStats (ensure_stop_metadata fetch st arrivals calls).1 = stopStats st.
Proof.
  unfold ensure_stop_metadata.
  by destruct (ensure_stops fetch (stops st) arrivals calls).
Qed.

Lemma update_predictions_stats parse_iso st arrivals ts :
  stopStats (outcome_state (update_predictions parse_iso st arrivals ts)) =
    stopStats st.
Proof.
  unfold update_predictions.
  by destruct (ingest parse_iso ts arrivals (predictions st)).
Qed.

(** ** Malformed observations *)

Lemma ingest_skips_malformed parse_iso ts arrivals d :
  ingest parse_iso ts (filter (λ a, ¬ malformed a) arrivals) d =
  ingest parse_iso ts arrivals d.
Proof.
  revert d. induction arrivals as [|a rest IH]; intros d; [done|].
  rewrite filter_cons. case_decide as Hm.
  - simpl. repeat case_match; auto.
  - simpl. rewrite IH.
    destruct Hm as [-> | [-> | [-> | ->]]]; simpl; repeat case_match; done.
Qed.

Lemma index_skips_unmatchable arrivals curr :
  fold_left index_step (filter (λ a, ¬ unmatchable a) arrivals) curr =
  fold_left index_step arrivals curr.
Proof.
  revert curr. induction arrivals as [|a rest IH]; intros curr; [done|].
  rewrite filter_cons. case_decide as Hm; cbn [fold_left]; [done|].
  rewrite IH. f_equal. unfold index_step.
  destruct Hm as [-> | [-> | ->]]; simpl; repeat case_match; done.
Qed.

(** C9 (amended): an observation missing any of the four required fields
    creates no prediction, and one missing the stop id, the vehicle id or
    the time-to-station triggers no match: the ledger call and the
    match-and-reap pass end exactly as they do on the batch without these
    observations, so the rest of the batch is processed as usual. *)
Theorem malformed_observations_skipped parse_iso st arrivals ts ts_now :
  update_predictions parse_iso st arrivals ts =
    update_predictions parse_iso st (filter (λ a, ¬ malformed a) arrivals) ts ∧
  detect_arrivals_and_score st arrivals ts_now =
    detect_arrivals_and_score st
      (filter (λ a, ¬ unmatchable a) arrivals) ts_now.
Proof.
  split.
  - unfold update_predictions. by rewrite ingest_skips_malformed.
  - unfold detect_arrivals_and_score, index_arrivals.
    by rewrite index_skips_unmatchable.
Qed.

(** ** Scoring a match *)

(** C1: on a match the matcher marks the candidate Matched and records on it
    [actualArrivalTs = now + max(0, tts)] and
    [driftSec = predictedArrivalTs - actualArrivalTs], where
    [predictedArrivalTs = predictionTs + timeToStation] of the candidate
    (not its [expectedArrivalTs]), and feeds the drift to the stop's
    statistics; in the scenario of a prediction ingested at 0 with
    time-to-station 300 and an observation at 290 with time-to-station 8,
    this gives 298, 300 and 2. *)
Theorem match_records_drift parse_iso :
  (∀ ts_now bk stop_id veh_id tts preds i c,
     tts ≤ ARRIVAL_TTS_SEC →
     dget stop_id bk.1 = Some preds →
     find_candidate veh_id preds = Some (i, c) →
     pred_wf c →
     let actual_arrival := ts_now + Z.max 0 tts in
     let predicted_arrival := predictionTs c + timeToStation c in
     let drift := predicted_arrival - actual_arrival in
     let bk' := match_step ts_now bk (stop_id, veh_id, tts) in
     ∃ preds' c',
       dget stop_id bk'.1 = Some preds' ∧
       preds' !! i = Some c' ∧
       status c = Open ∧ vehicleId c = veh_id ∧
       origin c' = origin c ∧
       status c' = Matched ∧
       actualArrivalTs c' = Some actual_arrival ∧
       driftSec c' = Some drift ∧
       samples (stats_of stop_id bk'.2) = samples (stats_of stop_id bk.2) + 1 ∧
       sumDriftSec (stats_of stop_id bk'.2) =
         sumDriftSec (stats_of stop_id bk.2) + drift) ∧
  (∀ dir,
     parse_iso "2024-01-01T00:05:00Z" = Some 300 →
     parse_iso "2024-01-01T00:04:58Z" = Some 298 →
     let obs0 :=
       Arrival.mk (Some "490008660N") (Some "LTZ1001") (Some 300)
         (Some "2024-01-01T00:05:00Z") None None in
     let obs1 :=
       Arrival.mk (Some "490008660N") (Some "LTZ1001") (Some 8)
         (Some "2024-01-01T00:04:58Z") None None in
     ∃ st1 st2 c' rest,
       update_predictions parse_iso (empty_state dir) [obs0] 0 = Returned st1 ∧
       update_predictions parse_iso
         (detect_arrivals_and_score st1 [obs0] 0) [obs1] 290 = Returned st2 ∧
       dget "490008660N"
         (predictions (detect_arrivals_and_score st2 [obs1] 290))
         = Some (c' :: rest) ∧
       status c' = Matched ∧
       predictionTs c' = 0 ∧ timeToStation c' = 300 ∧
       actualArrivalTs c' = Some 298 ∧
       predictionTs c' + timeToStation c' = 300 ∧
       driftSec c' = Some 2).
Proof.
  split.
  - intros ts_now bk stop_id veh_id tts preds i c Htts Hg Hf Hwf
      actual_arrival predicted_arrival drift bk'.
    destruct (find_candidate_Some _ _ _ _ Hf) as (Hi & [Ho Hv] & _).
    unfold bk'. rewrite (match_step_found _ _ _ _ _ _ _ _ Htts Hg Hf). simpl.
    exists (<[i := mark_matched c actual_arrival drift]> preds),
      (mark_matched c actual_arrival drift).
    rewrite dget_dset_eq. split_and!; try done.
    + apply list_lookup_insert_eq. by eapply lookup_lt_Some.
    + unfold status. simpl. destruct (phantom c) eqn:Hp; [|done].
      apply status_Open in Ho. rewrite Hwf in Ho; done.
    + unfold stats_of at 1. by rewrite dget_dset_eq.
    + unfold stats_of at 1. by rewrite dget_dset_eq.
  - intros dir Hp0 Hp1 obs0 obs1.
    assert (update_predictions parse_iso (empty_state dir) [obs0] 0 =
            Returned (mkState dir []
              [("490008660N", [new_prediction "LTZ1001" 0 300 300])] []))
      as H1.
    { vm_compute. rewrite Hp0. reflexivity. }
    eexists _, _, _, _. split; [exact H1|]. split_and!.
    + vm_compute. rewrite Hp1. reflexivity.
    + vm_compute. reflexivity.
    + reflexivity.
    + reflexivity.
    + reflexivity.
    + reflexivity.
    + reflexivity.
    + reflexivity.
Qed.

(** The ledger's records keep the [phantom] mark tied to the [matched]
    mark through every operation. *)
Lemma pred_step_wf p p' : pred_step p p' → pred_wf p → pred_wf p'.
Proof.
  intros [->|(_ & Ht & _)]; [done|]. intros _ _. by apply status_terminal.
Qed.

Lemma ledger_step_wf d d' :
  ledger_step d d' →
  (∀ k preds, dget k d = Some preds → Forall pred_wf preds) →
  ∀ k preds, dget k d' = Some preds → Forall pred_wf preds.
Proof.
  intros Hstep Hwf k preds' Hg'.
  destruct (ledger_step_dget_r _ _ _ _ Hstep Hg') as (preds & Hg & Hl).
  specialize (Hwf _ _ Hg). rewrite Forall_forall in Hwf.
  apply Forall_forall. intros p' Hp'.
  apply list_elem_of_lookup in Hp' as [i Hi].
  destruct (Forall2_lookup_r _ _ _ _ _ Hl Hi) as (p & Hp & Hs).
  eapply pred_step_wf; [done|]. apply Hwf. by eapply list_elem_of_lookup_2.
Qed.

Lemma update_predictions_wf parse_iso st arrivals ts :
  NoDup (predictions st).*1 →
  (∀ k preds, dget k (predictions st) = Some preds → Forall pred_wf preds) →
  ∀ k preds,
    dget k (predictions
      (outcome_state (update_predictions parse_iso st arrivals ts))) = Some preds →
    Forall pred_wf preds.
Proof.
  intros Hnd Hwf k preds Hg.
  pose proof (update_predictions_default parse_iso st arrivals ts k Hnd) as Hd.
  rewrite Hg in Hd. simpl in Hd.
  assert (Forall pred_wf (default [] (dget k (predictions st))
            ++ batch_records parse_iso ts k arrivals)) as Hall.
  { apply Forall_app. split.
    - destruct (dget k (predictions st)) eqn:Ho; simpl;
        [by eapply Hwf | constructor].
    - apply Forall_forall. intros p Hp.
      by apply batch_records_ts in Hp as (_ & _ & ?). }
  destruct (update_predictions parse_iso st arrivals ts); rewrite Hd; [|done].
  rewrite Forall_forall in Hall. apply Forall_forall.
  intros p [_ Hp]%list_elem_of_filter. auto.
Qed.

(** ** The exporter *)

Lemma Qltb_lt x y : Qltb x y = true ↔ (x < y)%Q.
Proof.
  unfold Qltb. rewrite Qlt_alt. destruct (x ?= y)%Q; split; congruence.
Qed.

Lemma Qltb_ge x y : Qltb x y = false ↔ (y <= x)%Q.
Proof.
  pose proof (Qltb_lt x y) as H. destruct (Qltb x y).
  - split; [done|]. intros Hle. assert (x < y)%Q by by apply H. lra.
  - split; [|done]. intros _. destruct (Qlt_le_dec x y) as [Hlt|]; [|done].
    apply H in Hlt. done.
Qed.

Lemma round_half_even_spec x :
  let z := round_half_even x in
  (- (1 # 2) <= x - inject_Z z)%Q ∧ (x - inject_Z z <= 1 # 2)%Q ∧
  ((x - inject_Z z == 1 # 2)%Q ∨ (inject_Z z - x == 1 # 2)%Q →
   Z.even z = true).
Proof.
  unfold round_half_even. cbv zeta.
  pose proof (Qfloor_le x) as Hlo. pose proof (Qlt_floor x) as Hhi.
  rewrite inject_Z_plus in Hhi. change (inject_Z 1) with 1%Q in Hhi.
  destruct (x - inject_Z (Qfloor x) ?= 1 # 2)%Q eqn:Hc.
  - apply Qeq_alt in Hc. destruct (Z.even (Qfloor x)) eqn:He.
    + set (f := inject_Z (Qfloor x)) in *. clearbody f.
      split_and!; [lra | lra | done].
    + rewrite inject_Z_plus. change (inject_Z 1) with 1%Q.
      split_and!; [| |intros _; by rewrite Z.even_add, He].
      all: set (f := inject_Z (Qfloor x)) in *; clearbody f; lra.
  - apply Qlt_alt in Hc.
    set (f := inject_Z (Qfloor x)) in *. clearbody f.
    split_and!; [lra | lra |]. intros [?|?]; lra.
  - apply Qgt_alt in Hc. rewrite inject_Z_plus. change (inject_Z 1) with 1%Q.
    set (f := inject_Z (Qfloor x)) in *. clearbody f.
    split_and!; [lra | lra |]. intros [?|?]; lra.
Qed.

Lemma py_round_rounded x ndigits : rounded_to ndigits x (py_round x ndigits).
Proof.
  unfold rounded_to, py_round.
  exists (round_half_even (x * inject_Z (10 ^ Z.of_nat ndigits))).
  destruct (round_half_even_spec (x * inject_Z (10 ^ Z.of_nat ndigits)))
    as (Hlo & Hhi & _).
  done.
Qed.

Lemma bias_sec_of_mean s : 0 ≤ samples s → bias_sec_of s = meanDriftSec s.
Proof.
  intros Hs. unfold bias_sec_of, meanDriftSec.
  repeat case_decide; try done; lia.
Qed.

Lemma phantom_rate_of_rate s :
  0 ≤ samples s → 0 ≤ phantoms s → phantom_rate_of s = phantomRate s.
Proof.
  intros Hs Hp. unfold phantom_rate_of, phantomRate. case_decide as Hz.
  - assert (phantoms s = 0) as Hp0 by lia.
    assert (samples s = 0) as Hs0 by lia.
    rewrite Hp0, Hs0. reflexivity.
  - rewrite Z.max_r by lia. done.
Qed.

Lemma bias_color_spec m :
  ((Qabs m < inject_Z 60)%Q → bias_color m = green) ∧
  ((inject_Z 60 <= Qabs m)%Q → (Qabs m < inject_Z 180)%Q →
   bias_color m = amber) ∧
  ((inject_Z 180 <= Qabs m)%Q → bias_color m = red).
Proof.
  unfold bias_color. split_and!.
  - intros H%Qltb_lt. by rewrite H.
  - intros H1%Qltb_ge H2%Qltb_lt. by rewrite H1, H2.
  - intros H. assert (Qltb (Qabs m) (inject_Z 180) = false) as ->
      by by apply Qltb_ge.
    assert (Qltb (Qabs m) (inject_Z 60) = false) as ->; [|done].
    apply Qltb_ge. assert (inject_Z 60 <= inject_Z 180)%Q by done. lra.
Qed.

(** The feature the loop emits for a stop with coordinates. *)
Lemma export_fold_elem state items acc f :
  f ∈ fold_left (export_step state) items acc →
  f ∈ acc ∨
  ∃ k stop la lo,
    (k, stop) ∈ items ∧ lat stop = Some la ∧ lon stop = Some lo ∧
    f = Feature.mk k (name stop) (direction state)
          (py_round (bias_sec_of (stats_of k (stopStats state))) 1)
          (samples (stats_of k (stopStats state)))
          (py_round (phantom_rate_of (stats_of k (stopStats state))) 3)
          (bias_color (bias_sec_of (stats_of k (stopStats state))))
          (lo, la).
Proof.
  revert acc. induction items as [|[k stop] rest IH]; intros acc; simpl; [auto|].
  intros [Hf|(k' & stop' & la & lo & Hin & ?)]%IH.
  - destruct (lat stop) as [la|] eqn:Hla; [|auto].
    destruct (lon stop) as [lo|] eqn:Hlo; [|auto].
    apply elem_of_app in Hf as [?|Hf]; [auto|].
    apply list_elem_of_singleton in Hf as ->.
    right. exists k, stop, la, lo. split_and!; [left|done..].
  - right. exists k', stop', la, lo. split; [by right | done].
Qed.

Lemma export_fold_ids state items acc :
  Feature.stopId <$> fold_left (export_step state) items acc =
    (Feature.stopId <$> acc) ++ (filter (λ x, has_coordinates x.2) items).*1.
Proof.
  revert acc. induction items as [|[k stop] rest IH]; intros acc.
  - simpl. by rewrite app_nil_r.
  - cbn [fold_left]. rewrite IH. rewrite filter_cons. unfold export_step at 1.
    assert (has_coordinates stop ↔ is_Some (lat stop) ∧ is_Some (lon stop))
      as Hc by done.
    cbn [snd].
    destruct (lat stop) as [la|], (lon stop) as [lo|].
    + rewrite decide_True by (apply Hc; split; by eexists).
      rewrite fmap_app, <- app_assoc. done.
    + rewrite decide_False; [done|]. intros [_ [? ?]]%Hc. done.
    + rewrite decide_False; [done|]. intros [[? ?] _]%Hc. done.
    + rewrite decide_False; [done|]. intros [[? ?] _]%Hc. done.
Qed.

(** C8: the exporter emits one feature for each stop with both coordinates
    resolved, in the order of the stops, and none for a stop without; a
    feature carries the stop's name and coordinates, the sample count, the
    mean drift rounded to 1 decimal place, the phantom rate rounded to 3
    decimal places, and the colour of the mean drift: green below 60, amber
    from 60 and below 180, red from 180; both metrics are 0 for a stop with
    no samples and no phantoms. *)
Theorem snapshot_features (state : State) :
  NoDup (stops state).*1 →
  Feature.stopId <$> export_geojson state =
    (filter (λ x, has_coordinates x.2) (stops state)).*1 ∧
  NoDup (Feature.stopId <$> export_geojson state) ∧
  (∀ k stop, dget k (stops state) = Some stop →
     (has_coordinates stop ↔ k ∈ Feature.stopId <$> export_geojson state)) ∧
  (∀ f, f ∈ export_geojson state →
     let s := stats_of (Feature.stopId f) (stopStats state) in
     let m := meanDriftSec s in
     ∃ stop la lo,
       dget (Feature.stopId f) (stops state) = Some stop ∧
       lat stop = Some la ∧ lon stop = Some lo ∧
       Feature.name f = name stop ∧
       Feature.direction f = direction state ∧
       Feature.coordinates f = (lo, la) ∧
       Feature.samples f = samples s ∧
       (0 ≤ samples s → 0 ≤ phantoms s →
        rounded_to 1 m (Feature.predictionDriftSec f) ∧
        rounded_to 3 (phantomRate s) (Feature.phantomRate f) ∧
        ((Qabs m < inject_Z 60)%Q → Feature.color f = green) ∧
        ((inject_Z 60 <= Qabs m)%Q → (Qabs m < inject_Z 180)%Q →
         Feature.color f = amber) ∧
        ((inject_Z 180 <= Qabs m)%Q → Feature.color f = red))) ∧
  (∀ s, samples s = 0 → phantoms s = 0 →
     (bias_sec_of s == 0)%Q ∧ (phantom_rate_of s == 0)%Q ∧
     (py_round (bias_sec_of s) 1 == 0)%Q ∧
     (py_round (phantom_rate_of s) 3 == 0)%Q ∧
     bias_color (bias_sec_of s) = green).
Proof.
  intros Hnd.
  assert (Feature.stopId <$> export_geojson state =
          (filter (λ x, has_coordinates x.2) (stops state)).*1) as Hids.
  { unfold export_geojson. by rewrite export_fold_ids. }
  split_and!.
  - done.
  - rewrite Hids. clear Hids.
    induction (stops state) as [|[k stop] rest IH]; [constructor|].
    rewrite fmap_cons in Hnd. apply NoDup_cons in Hnd as [Hk Hnd].
    rewrite filter_cons. case_decide; [|auto].
    rewrite fmap_cons. apply NoDup_cons. split; [|auto].
    intros Hin. apply Hk. simpl in *.
    apply list_elem_of_fmap in Hin as ([k' s'] & -> & Hin).
    apply list_elem_of_filter in Hin as [_ Hin].
    apply list_elem_of_fmap. by exists (k', s').
  - intros k stop Hg. rewrite Hids. split.
    + intros Hc. apply list_elem_of_fmap. exists (k, stop). split; [done|].
      apply list_elem_of_filter. split; [done|]. by apply dget_Some_elem_of.
    + intros Hin. apply list_elem_of_fmap in Hin as ([k' s'] & -> & Hin).
      apply list_elem_of_filter in Hin as [Hc Hin]. simpl in *.
      rewrite (dget_elem_of _ _ _ Hnd Hin) in Hg. by injection Hg as <-.
  - intros f Hf s m. unfold export_geojson in Hf.
    apply export_fold_elem in Hf as [Hf|(k & stop & la & lo & Hin & Hla & Hlo & ->)];
      [by apply elem_of_nil in Hf|].
    exists stop, la, lo. subst s m. simpl.
    split_and!; [by apply dget_elem_of|done..|].
    intros Hs Hp. rewrite bias_sec_of_mean, phantom_rate_of_rate by done.
    split_and!; [apply py_round_rounded | apply py_round_rounded | ..];
      apply bias_color_spec.
  - intros s Hs Hp. unfold bias_sec_of, phantom_rate_of. rewrite Hs, Hp.
    split_and!; reflexivity.
Qed.

(** ** The stop metadata cache *)

Lemma calls_for_snoc k calls s :
  calls_for k (calls ++ [s]) =
    (calls_for k calls + if decide (s = k) then 1 else 0)%nat.
Proof.
  unfold calls_for. rewrite filter_app, length_app, filter_cons, filter_nil.
  by case_decide.
Qed.

(** A stop whose coordinates are resolved costs no lookup and keeps its
    metadata, whatever else is in the batch. *)
Lemma ensure_stops_resolved fetch stops arrivals calls k :
  resolved (dget k stops) = true →
  dget k (ensure_stops fetch stops arrivals calls).1 = dget k stops ∧
  calls_for k (ensure_stops fetch stops arrivals calls).2 = calls_for k calls.
Proof.
  revert stops calls.
  induction arrivals as [|a rest IH]; intros stops calls Hres; simpl; [done|].
  destruct (truthy (Arrival.naptanId a)) as [s|]; [|by apply IH].
  destruct (resolved (dget s stops)) eqn:Hs; [by apply IH|].
  assert (s ≠ k) as Hne by (intros ->; congruence).
  set (stub := mkStop None None _).
  set (p := match dget s stops with
            | Some s0 => (s0, stops)
            | None => (stub, dset s stub stops)
            end).
  assert (dget k p.2 = dget k stops) as Hp.
  { unfold p. destruct (dget s stops); simpl; [done|].
    by rewrite dget_dset_ne. }
  destruct p as [cur stops1]. simpl in Hp.
  set (stops2 := match fetch calls s with
                 | Some sp => dset s (apply_stop_point sp cur) stops1
                 | None => stops1
                 end).
  assert (dget k stops2 = dget k stops) as Hp2.
  { unfold stops2. destruct (fetch calls s); [|done].
    by rewrite dget_dset_ne. }
  destruct (IH stops2 (calls ++ [s])) as [IH1 IH2]; [by rewrite Hp2|].
  rewrite IH1, IH2, Hp2, calls_for_snoc. rewrite decide_False by done.
  split; [done | lia].
Qed.

(** While the lookup keeps failing for a stop, every record of the batch
    that names the stop costs one more lookup. *)
Lemma ensure_stops_failing fetch stops arrivals calls k :
  (∀ history, fetch history k = None) →
  resolved (dget k stops) = false →
  calls_for k (ensure_stops fetch stops arrivals calls).2 =
    (calls_for k calls + length (arrivals_at k arrivals))%nat ∧
  resolved (dget k (ensure_stops fetch stops arrivals calls).1) = false ∧
  (∀ s, dget k stops = Some s →
     dget k (ensure_stops fetch stops arrivals calls).1 = Some s).
Proof.
  intros Hfail. revert stops calls.
  induction arrivals as [|a rest IH]; intros stops calls Hres;
    unfold arrivals_at; simpl.
  { split_and!; [lia | done | done]. }
  rewrite filter_cons.
  destruct (truthy (Arrival.naptanId a)) as [s|] eqn:Ha.
  2:{ rewrite decide_False by done. by apply IH. }
  destruct (decide (s = k)) as [->|Hne].
  - rewrite decide_True by done. rewrite Hres, Hfail.
    set (stub := mkStop None None _).
    destruct (dget k stops) as [s0|] eqn:Hg.
    + destruct (IH stops (calls ++ [k])) as (IH1 & IH2 & IH3);
        [by rewrite Hg|].
      rewrite IH1, calls_for_snoc, decide_True by done.
      unfold arrivals_at.
      split_and!; [simpl; lia | done |]. intros s1 [= <-]. by apply IH3.
    + destruct (IH (dset k stub stops) (calls ++ [k])) as (IH1 & IH2 & IH3).
      { by rewrite dget_dset_eq. }
      rewrite IH1, calls_for_snoc, decide_True by done.
      unfold arrivals_at.
      split_and!; [simpl; lia | done | done].
  - rewrite decide_False by congruence.
    destruct (resolved (dget s stops)) eqn:Hs; [by apply IH|].
    set (stub := mkStop None None _).
    set (p := match dget s stops with
              | Some s0 => (s0, stops)
              | None => (stub, dset s stub stops)
              end).
    assert (dget k p.2 = dget k stops) as Hp.
    { unfold p. destruct (dget s stops); simpl; [done|].
      by rewrite dget_dset_ne. }
    destruct p as [cur stops1]. simpl in Hp.
    set (stops2 := match fetch calls s with
                   | Some sp => dset s (apply_stop_point sp cur) stops1
                   | None => stops1
                   end).
    assert (dget k stops2 = dget k stops) as Hp2.
    { unfold stops2. destruct (fetch calls s); [|done].
      by rewrite dget_dset_ne. }
    destruct (IH stops2 (calls ++ [s])) as (IH1 & IH2 & IH3);
      [by rewrite Hp2|].
    rewrite IH1, IH2, calls_for_snoc, decide_False by done.
    unfold arrivals_at.
    split_and!; [lia | done |]. intros s1 Hs1. apply IH3. by rewrite Hp2.
Qed.

(** C7, at the failing input: two records of one batch name the same
    unresolved stop and the lookup fails; the cache looks the stop up twice
    in that cycle, and leaves the stub with the hint name in place. *)
Theorem stop_lookup_repeats_within_cycle :
  (ensure_stop_metadata fetch_down (empty_state "inbound")
     [seen_far; seen_other_bus] []).2 = [stop_A; stop_A] ∧
  calls_for stop_A
    (ensure_stop_metadata fetch_down (empty_state "inbound")
       [seen_far; seen_other_bus] []).2 = 2%nat ∧
  stops
    (ensure_stop_metadata fetch_down (empty_state "inbound")
       [seen_far; seen_other_bus] []).1
    = [(stop_A, mkStop None None "Hyde Park Corner")].
Proof. vm_compute. done. Qed.

(** ** Accounting *)

Lemma total_cons w p l : total w (p :: l) = w p + total w l.
Proof. done. Qed.

Lemma total_insert w l i x y :
  l !! i = Some x → total w (<[i:=y]> l) = total w l - w x + w y.
Proof.
  revert i. induction l as [|p l IH]; intros [|i]; simpl; try done.
  - intros [= ->]. lia.
  - intros Hi. rewrite (IH _ Hi). lia.
Qed.

Lemma open_weights p :
  status p = Open →
  sample_weight p = 0 ∧ drift_weight p = 0 ∧ phantom_weight p = 0.
Proof.
  intros Ho. unfold sample_weight, drift_weight, phantom_weight.
  rewrite Ho. done.
Qed.

Lemma mark_matched_weights c a d :
  status c = Open → pred_wf c →
  sample_weight (mark_matched c a d) = 1 ∧
  drift_weight (mark_matched c a d) = d ∧
  phantom_weight (mark_matched c a d) = 0.
Proof.
  intros Ho Hwf.
  assert (status (mark_matched c a d) = Matched) as Hs.
  { unfold status. simpl. destruct (phantom c) eqn:Hp; [|done].
    apply status_Open in Ho. rewrite Hwf in Ho; done. }
  unfold sample_weight, drift_weight, phantom_weight. rewrite Hs. done.
Qed.

Lemma reap_one_weights ts_now p :
  sample_weight (reap_one ts_now p) = sample_weight p ∧
  drift_weight (reap_one ts_now p) = drift_weight p ∧
  phantom_weight (reap_one ts_now p) =
    phantom_weight p + if decide (overdue ts_now p) then 1 else 0.
Proof.
  unfold reap_one. case_decide as Hov; [|split_and!; lia].
  destruct Hov as [Ho _]. destruct (open_weights p Ho) as (-> & -> & ->).
  done.
Qed.

Lemma total_reap ts_now l :
  total sample_weight (reap_one ts_now <$> l) = total sample_weight l ∧
  total drift_weight (reap_one ts_now <$> l) = total drift_weight l ∧
  total phantom_weight (reap_one ts_now <$> l) =
    total phantom_weight l + Z.of_nat (length (filter (overdue ts_now) l)).
Proof.
  induction l as [|p l (IH1 & IH2 & IH3)]; [done|].
  rewrite fmap_cons, filter_cons, !total_cons.
  destruct (reap_one_weights ts_now p) as (-> & -> & ->).
  rewrite IH1, IH2, IH3. case_decide; simpl length; split_and!; lia.
Qed.

Lemma dget_reap_items ts_now (d : list (string * list Prediction)) k :
  dget k (reap_item ts_now <$> d) =
    (λ l : list Prediction, reap_one ts_now <$> l) <$> dget k d.
Proof.
  induction d as [|[k0 l0] d IH]; [done|].
  rewrite fmap_cons. simpl. by case_decide.
Qed.

Lemma match_step_unaccounted ts_now bk entry k :
  ledger_wf bk.1 →
  unaccounted (match_step ts_now bk entry) k = unaccounted bk k.
Proof.
  intros Hwf. destruct entry as [[stop_id veh_id] tts].
  destruct (match_step_cases ts_now bk stop_id veh_id tts)
    as [->|(preds & i & c & Htts & Hg & Hf)]; [done|].
  rewrite (match_step_found _ _ _ _ _ _ _ _ Htts Hg Hf).
  unfold unaccounted, stats_of. simpl. rewrite !dget_dset.
  case_decide; [subst k|done]. rewrite Hg. simpl.
  destruct (find_candidate_Some _ _ _ _ Hf) as (Hi & [Ho _] & _).
  assert (pred_wf c) as Hc.
  { specialize (Hwf _ _ Hg). rewrite Forall_forall in Hwf.
    apply Hwf. by eapply list_elem_of_lookup_2. }
  rewrite !(total_insert _ _ _ _ _ Hi).
  destruct (open_weights c Ho) as (-> & -> & ->).
  destruct (mark_matched_weights c (ts_now + Z.max 0 tts)
              (predictionTs c + timeToStation c - (ts_now + Z.max 0 tts))
              Ho Hc) as (-> & -> & ->).
  f_equal; [f_equal|]; lia.
Qed.

Lemma match_phase_unaccounted ts_now curr bk k :
  ledger_wf bk.1 →
  unaccounted (match_phase ts_now bk curr) k = unaccounted bk k.
Proof.
  unfold match_phase. revert bk.
  induction curr as [|e curr IH]; intros bk Hwf; simpl; [done|].
  rewrite IH; [by apply match_step_unaccounted|].
  unfold ledger_wf. eapply ledger_step_wf; [apply match_step_ledger | done].
Qed.

Lemma reap_phase_unaccounted ts_now bk k :
  NoDup bk.1.*1 →
  unaccounted (reap_phase ts_now bk) k = unaccounted bk k.
Proof.
  intros Hnd. unfold unaccounted, reap_phase, stats_of.
  rewrite reap_stops_fst, dget_reap_items, reap_stops_snd by done.
  destruct (dget k bk.1) as [l|]; cbn -[total]; [|done].
  destruct (total_reap ts_now l) as (-> & -> & ->).
  unfold stats_of. f_equal. lia.
Qed.

(** C6 (amended): a stop gets its statistics entry in the first
    match-and-reap pass in which it has an entry in the ledger, or it had
    one before; no entry ever disappears; [samples] and [phantoms] never
    decrease, and [sumDriftSec] changes only in a pass that adds samples;
    a pass moves the three counters by exactly what the records it turns
    Matched or Phantom stand for; the metadata cache and the ledger's
    ingestion and eviction leave the statistics alone. *)
Theorem stats_entries_and_counters parse_iso fetch st arrivals calls ts ts_now k :
  NoDup (predictions st).*1 →
  ledger_wf (predictions st) →
  let st' := detect_arrivals_and_score st arrivals ts_now in
  (is_Some (dget k (stopStats st')) ↔
     is_Some (dget k (stopStats st)) ∨ k ∈ (predictions st).*1) ∧
  samples (stats_of k (stopStats st)) ≤ samples (stats_of k (stopStats st')) ∧
  phantoms (stats_of k (stopStats st)) ≤ phantoms (stats_of k (stopStats st')) ∧
  (samples (stats_of k (stopStats st')) = samples (stats_of k (stopStats st)) →
   sumDriftSec (stats_of k (stopStats st')) =
     sumDriftSec (stats_of k (stopStats st))) ∧
  unaccounted (books st') k = unaccounted (books st) k ∧
  stopStats (outcome_state (update_predictions parse_iso st arrivals ts)) =
    stopStats st ∧
  stopStats (ensure_stop_metadata fetch st arrivals calls).1 = stopStats st.
Proof.
  intros Hnd Hwf st'.
  pose proof (match_phase_stats ts_now (index_arrivals arrivals) (books st) k)
    as (Ha & Hb & Hc & Hd & He).
  pose proof (match_phase_ledger ts_now (index_arrivals arrivals) (books st))
    as Hstep.
  pose proof (ledger_step_keys _ _ Hstep) as Hkeys.
  simpl in Ha, Hb, Hc, Hd, He, Hkeys.
  destruct (reap_phase_stats ts_now
              (match_phase ts_now (books st) (index_arrivals arrivals)) k)
    as (Hr1 & Hr2 & Hr3 & Hr4); [by rewrite Hkeys|].
  rewrite Hkeys in Hr1.
  assert (books st' =
          reap_phase ts_now
            (match_phase ts_now (books st) (index_arrivals arrivals))) as Hbk.
  { unfold st', detect_arrivals_and_score, with_books, books at 1. simpl.
    by destruct (reap_phase _ _). }
  change (stopStats st') with (books st').2. rewrite Hbk.
  split_and!.
  - rewrite Hr1. split; [intros [?%Hb|?]; auto | intros [?|?]; auto].
  - lia.
  - lia.
  - rewrite Hr2, Hr3. apply He.
  - rewrite reap_phase_unaccounted by (by rewrite Hkeys).
    by apply match_phase_unaccounted.
  - apply update_predictions_stats.
  - apply ensure_stop_metadata_others.
Qed.

(** * Worked instances *)

Lemma match_records_drift_witness :
  (8 ≤ ARRIVAL_TTS_SEC ∧
   dget stop_A demo_books.1 = Some [sighting_0; sighting_60] ∧
   find_candidate bus_1 [sighting_0; sighting_60] = Some (0%nat, sighting_0) ∧
   pred_wf sighting_0 ∧
   ∃ preds' c',
     dget stop_A (match_step 290 demo_books (stop_A, bus_1, 8)).1 = Some preds' ∧
     preds' !! 0%nat = Some c' ∧ status c' = Matched ∧
     actualArrivalTs c' = Some 298 ∧ driftSec c' = Some 2) ∧
  (demo_parse "2024-01-01T00:05:00Z" = Some 300 ∧
   demo_parse "2024-01-01T00:04:58Z" = Some 298 ∧
   ∃ st2 c' rest,
     dget stop_A (predictions (detect_arrivals_and_score st2 [seen_near] 290))
       = Some (c' :: rest) ∧
     actualArrivalTs c' = Some 298 ∧ driftSec c' = Some 2).
Proof.
  destruct (match_records_drift demo_parse) as [Hgen Hscen].
  split.
  - assert (8 ≤ ARRIVAL_TTS_SEC) as H1 by (unfold ARRIVAL_TTS_SEC; lia).
    assert (dget stop_A demo_books.1 = Some [sighting_0; sighting_60]) as H2
      by reflexivity.
    assert (find_candidate bus_1 [sighting_0; sighting_60]
            = Some (0%nat, sighting_0)) as H3 by reflexivity.
    assert (pred_wf sighting_0) as H4 by (intros H; vm_compute in H; congruence).
    split_and!; [done..|].
    destruct (Hgen 290 demo_books stop_A bus_1 8 _ _ _ H1 H2 H3 H4)
      as (preds' & c' & Ha & Hb & _ & _ & _ & Hc & Hd & He & _).
    exists preds', c'. split_and!; done.
  - assert (demo_parse "2024-01-01T00:05:00Z" = Some 300) as H1 by reflexivity.
    assert (demo_parse "2024-01-01T00:04:58Z" = Some 298) as H2 by reflexivity.
    split_and!; [done..|].
    destruct (Hscen "inbound" H1 H2)
      as (st1 & st2 & c' & rest & _ & _ & Ha & _ & _ & _ & Hb & _ & Hc).
    exists st2, c', rest. split_and!; done.
Defined.

Lemma terminal_never_reselected_witness :
  dget stop_A (predictions scored_state) = Some [scored_0; sighting_60] ∧
  [scored_0; sighting_60] !! 0%nat = Some scored_0 ∧
  status scored_0 ≠ Open ∧
  ∃ preds',
    dget stop_A
      (predictions
         (detect_cycles scored_state [([seen_near], 350); ([seen_far], 410)]))
      = Some preds' ∧
    preds' !! 0%nat = Some scored_0.
Proof.
  assert (dget stop_A (predictions scored_state)
          = Some [scored_0; sighting_60]) as H1 by reflexivity.
  assert ([scored_0; sighting_60] !! 0%nat = Some scored_0) as H2
    by reflexivity.
  assert (status scored_0 ≠ Open) as H3 by (vm_compute; congruence).
  split_and!; [done..|].
  destruct (terminal_never_reselected scored_state
              [([seen_near], 350); ([seen_far], 410)] stop_A _ _ _ H1 H2 H3)
    as (_ & preds' & Ha & Hb & _).
  by exists preds'.
Defined.

Lemma matching_is_oldest_first_witness :
  8 ≤ ARRIVAL_TTS_SEC ∧
  dget stop_A demo_books.1 = Some [sighting_0; sighting_60] ∧
  open_for bus_1 sighting_0 ∧ open_for bus_1 sighting_60 ∧
  find_candidate bus_1 [sighting_0; sighting_60] = Some (0%nat, sighting_0) ∧
  creation_ordered [sighting_0; sighting_60] ∧
  predictionTs sighting_0 ≤ predictionTs sighting_60 ∧
  ∃ preds' c',
    dget stop_A (match_step 290 demo_books (stop_A, bus_1, 8)).1 = Some preds' ∧
    preds' !! 0%nat = Some c' ∧ matched c' = true ∧
    preds' !! 1%nat = Some sighting_60.
Proof.
  assert (creation_ordered [sighting_0; sighting_60]) as H6.
  { repeat constructor. simpl. lia. }
  assert (8 ≤ ARRIVAL_TTS_SEC) as H1 by (unfold ARRIVAL_TTS_SEC; lia).
  assert (dget stop_A demo_books.1 = Some [sighting_0; sighting_60]) as H2
    by reflexivity.
  assert (open_for bus_1 sighting_0) as H3 by (split; reflexivity).
  assert (open_for bus_1 sighting_60) as H4 by (split; reflexivity).
  assert (∀ j p, (j < 0)%nat → [sighting_0; sighting_60] !! j = Some p →
            ¬ open_for bus_1 p) as H5 by (intros; lia).
  destruct (matching_is_oldest_first 290 demo_books stop_A bus_1 8
              [sighting_0; sighting_60] 0 1 sighting_0 sighting_60
              H1 H2 eq_refl H3 eq_refl H4 (le_n 1) H5)
    as (Ha & (preds' & c' & Hb & Hc & Hd & _ & He & _) & Hf).
  split_and!; [done..| |].
  - apply (Hf H6 1%nat sighting_60 eq_refl H4).
  - by exists preds', c'.
Defined.

Lemma reaper_after_matcher_witness :
  NoDup (predictions demo_state).*1 ∧
  ∃ preds preds',
    dget stop_A
      (match_phase 700 (books demo_state) (index_arrivals [seen_near])).1
      = Some preds ∧
    dget stop_A
      (predictions (detect_arrivals_and_score demo_state [seen_near] 700))
      = Some preds' ∧
    length preds' = length preds ∧
    phantoms (stats_of stop_A
      (stopStats (detect_arrivals_and_score demo_state [seen_near] 700))) = 1.
Proof.
  assert (NoDup (predictions demo_state).*1) as H1
    by (apply NoDup_singleton).
  split; [done|].
  assert (dget stop_A
            (match_phase 700 (books demo_state) (index_arrivals [seen_near])).1
          = Some [mark_matched sighting_0 708 (-408); sighting_60]) as H2
    by reflexivity.
  destruct (reaper_after_matcher demo_state [seen_near] 700 stop_A _ H1 H2)
    as (preds' & Ha & Hb & _ & Hc & _).
  eexists _, preds'. split_and!; [exact H2 | done | done |].
  rewrite Hc. reflexivity.
Defined.

Lemma eviction_drops_old_predictions_witness :
  NoDup (predictions demo_state).*1 ∧
  two_calls = Returned (outcome_state two_calls) ∧
  dget stop_A (predictions (outcome_state two_calls)) =
    Some [new_prediction bus_1 60 240 300; new_prediction bus_1 700 300 300;
          new_prediction bus_1 1530 8 298] ∧
  ∀ k preds p,
    dget k (predictions (outcome_state two_calls)) = Some preds → p ∈ preds →
    ¬ (1530 - predictionTs p > PREDICTION_MAX_AGE_SEC).
Proof.
  assert (NoDup (predictions demo_state).*1) as H1 by (apply NoDup_singleton).
  assert (two_calls = Returned (outcome_state two_calls)) as H2 by reflexivity.
  split_and!; [done | done | reflexivity |].
  destruct (eviction_drops_old_predictions demo_parse demo_state
              [([seen_far], 700)] [seen_near] 1530 (outcome_state two_calls)
              H1 H2)
    as (st1 & d & _ & _ & _ & Ha & _).
  exact Ha.
Defined.

Lemma stats_entries_and_counters_witness :
  NoDup (predictions demo_state).*1 ∧
  ledger_wf (predictions demo_state) ∧
  is_Some (dget stop_A
    (stopStats (detect_arrivals_and_score demo_state [seen_near] 290))) ∧
  samples (stats_of stop_A (stopStats demo_state))
    ≤ samples (stats_of stop_A
        (stopStats (detect_arrivals_and_score demo_state [seen_near] 290))) ∧
  phantoms (stats_of stop_A (stopStats demo_state))
    ≤ phantoms (stats_of stop_A
        (stopStats (detect_arrivals_and_score demo_state [seen_near] 290))).
Proof.
  assert (NoDup (predictions demo_state).*1) as H1 by (apply NoDup_singleton).
  assert (ledger_wf (predictions demo_state)) as H2.
  { intros k preds Hg. unfold demo_state in Hg. simpl in Hg.
    case_decide; [|done]. injection Hg as <-.
    repeat constructor; intros Hp; vm_compute in Hp; congruence. }
  destruct (stats_entries_and_counters demo_parse fetch_down demo_state
              [seen_near] [] 290 290 stop_A H1 H2)
    as (Ha & Hb & Hc & _).
  split_and!; [done|done| |done|done].
  apply Ha. left. by eexists.
Defined.

Lemma snapshot_features_witness :
  NoDup (stops demo_state).*1 ∧
  Feature.stopId <$> export_geojson demo_state = [stop_A] ∧
  NoDup (Feature.stopId <$> export_geojson demo_state) ∧
  ∃ f, export_geojson demo_state = [f] ∧
    Feature.samples f = 1 ∧
    rounded_to 1 (meanDriftSec (mkStopStats 1 10 0)) (Feature.predictionDriftSec f) ∧
    rounded_to 3 (phantomRate (mkStopStats 1 10 0)) (Feature.phantomRate f) ∧
    Feature.color f = green.
Proof.
  assert (NoDup (stops demo_state).*1) as H1.
  { apply NoDup_cons. split; [|apply NoDup_singleton].
    intros Hin. apply list_elem_of_singleton in Hin. discriminate Hin. }
  destruct (snapshot_features demo_state H1) as (Ha & Hb & _ & Hc & _).
  split_and!; [done | | done |]. { rewrite Ha. reflexivity. }
  destruct (export_geojson demo_state) as [|f [|f' l]] eqn:He;
    [discriminate Ha| |discriminate Ha].
  exists f. split; [done|].
  destruct (Hc f) as (stop & la & lo & _ & _ & _ & _ & _ & _ & Hs & Hm);
    [left|].
  assert (Feature.stopId f = stop_A) as Hid by (by injection Ha).
  rewrite Hid in Hs, Hm.
  destruct Hm as (Hr1 & Hr3 & Hg & _); [vm_compute; congruence..|].
  split_and!; [done..|]. apply Hg. reflexivity.
Defined.

Lemma sequence_order_preserved_witness :
  NoDup (predictions demo_state).*1 ∧
  ledger_ordered (predictions demo_state) ∧
  ledger_before 1530 (predictions demo_state) ∧
  default [] (dget stop_A (predictions
    (outcome_state (update_predictions demo_parse demo_state [seen_near] 1530)))) =
    filter (young 1530)
      ([sighting_0; sighting_60] ++ [new_prediction bus_1 1530 8 298]) ∧
  origin <$> default [] (dget stop_A (predictions
    (detect_arrivals_and_score demo_state [seen_near] 290))) =
    [origin sighting_0; origin sighting_60] ∧
  ledger_ordered (predictions
    (outcome_state (update_predictions demo_parse demo_state [seen_near] 1530))) ∧
  ledger_ordered (predictions
    (detect_arrivals_and_score demo_state [seen_near] 290)).
Proof.
  assert (NoDup (predictions demo_state).*1) as H1 by (apply NoDup_singleton).
  assert (ledger_ordered (predictions demo_state)) as H2.
  { intros k preds Hg. unfold demo_state in Hg. simpl in Hg.
    case_decide; [|done]. injection Hg as <-.
    repeat constructor. simpl. lia. }
  assert (ledger_before 1530 (predictions demo_state)) as H3.
  { intros k preds p Hg Hp. unfold demo_state in Hg. simpl in Hg.
    case_decide; [|done]. injection Hg as <-.
    apply elem_of_cons in Hp as [->|Hp]; [simpl; lia|].
    apply list_elem_of_singleton in Hp as ->. simpl. lia. }
  destruct (sequence_order_preserved demo_parse demo_state [seen_near] 1530 290 H1)
    as (Ha & (_ & Hb) & Hc & Hd & _).
  split_and!; [done | done | done | apply (Ha stop_A) | apply (Hb stop_A) | |].
  - by destruct (Hc H2 H3).
  - by apply Hd.
Defined.

(** * Where two claims fail *)

(** C6, as stated, fails twice.  First cycle of an empty state, a bus seen
    five minutes away: nothing is matched, nothing is reaped, and the stop
    has a statistics entry all the same.  And a match whose prediction was
    late lowers the drift sum. *)
Lemma stats_entry_without_event :
  (one_cycle demo_parse fetch_down (empty_state "inbound") [seen_far] [] 0 0).1
    = Returned first_cycle ∧
  dget stop_A (predictions first_cycle) = Some [sighting_0] ∧
  status sighting_0 = Open ∧
  dget stop_A (stopStats first_cycle) = Some (mkStopStats 0 0 0) ∧
  sumDriftSec (stats_of stop_A (stopStats demo_state)) = 10 ∧
  sumDriftSec (stats_of stop_A
    (stopStats (detect_arrivals_and_score demo_state [seen_near] 350))) = -48.
Proof. vm_compute. done. Qed.

(** C9, as stated, fails for a record without an expected arrival: it
    creates no prediction, but the matcher pairs it with the open
    prediction of the bus and scores it. *)
Lemma malformed_observation_still_matches :
  malformed seen_near_no_eta ∧
  update_predictions demo_parse open_state [seen_near_no_eta] 290
    = Returned open_state ∧
  dget stop_A (predictions (detect_arrivals_and_score open_state [] 290)) =
    Some [sighting_0] ∧
  dget stop_A
    (predictions (detect_arrivals_and_score open_state [seen_near_no_eta] 290)) =
    Some [mark_matched sighting_0 298 2] ∧
  stats_of stop_A
    (stopStats (detect_arrivals_and_score open_state [seen_near_no_eta] 290)) =
    mkStopStats 1 2 0.
Proof.
  split_and!; [|reflexivity..].
  right. right. right. reflexivity.
Qed.

(** * Further properties of the program *)

(** ** The direction filter *)

Lemma filter_direction_fold lower direction arrivals acc :
  fold_left
    (λ out a, if direction_matches lower direction a then out ++ [a] else out)
    arrivals acc
  = acc ++ filter (same_direction lower direction) arrivals.
Proof.
  revert acc. induction arrivals as [|a rest IH]; intros acc; simpl.
  - by rewrite app_nil_r.
  - rewrite IH, filter_cons. unfold direction_matches.
    destruct (decide (same_direction lower direction a)) as [Hs|Hs].
    + rewrite bool_decide_eq_true_2 by done. by rewrite <- app_assoc.
    + rewrite bool_decide_eq_false_2 by done. done.
Qed.

Lemma filter_direction_filter lower arrivals direction :
  filter_direction lower arrivals direction =
    filter (same_direction lower direction) arrivals.
Proof. unfold filter_direction. by rewrite filter_direction_fold. Qed.

(** X1: the direction filter keeps, in feed order, exactly the records
    whose direction equals the wanted one up to case; the case of the wanted
    direction does not matter, filtering twice changes nothing, and for a
    wanted direction that is not empty a record without a direction tag is
    dropped. *)
Theorem filter_direction_keeps_matching lower arrivals direction :
  filter_direction lower arrivals direction =
    filter (same_direction lower direction) arrivals ∧
  (∀ d', lower d' = lower direction →
     filter_direction lower arrivals d' =
     filter_direction lower arrivals direction) ∧
  filter_direction lower (filter_direction lower arrivals direction) direction =
    filter_direction lower arrivals direction ∧
  (lower direction ≠ lower "" →
   ∀ a, a ∈ filter_direction lower arrivals direction →
     ∃ d, Feed.direction a = Some d ∧ d ≠ EmptyString).
Proof.
  split_and!.
  - apply filter_direction_filter.
  - intros d' Hd. rewrite !filter_direction_filter.
    apply list_filter_iff. intros a. unfold same_direction. by rewrite Hd.
  - rewrite !filter_direction_filter.
    rewrite list_filter_filter. apply list_filter_iff. tauto.
  - intros Hne a. rewrite filter_direction_filter.
    intros [Hs _]%list_elem_of_filter. unfold same_direction, or_else in Hs.
    destruct (truthy (Feed.direction a)) as [d|] eqn:Ht; simpl in Hs.
    + apply truthy_inv in Ht as [? ?]. eauto.
    + congruence.
Qed.

(** X2: a record of the feed tagged for another direction has no effect on
    the cycle: no lookup, no prediction, no match. *)
Theorem other_direction_has_no_effect lower parse_iso fetch st
    before a after calls ts ts_now :
  ¬ same_direction lower DIRECTION_FILTER a →
  one_cycle_fetched lower parse_iso fetch st
    (Some (before ++ a :: after)) calls ts ts_now =
  one_cycle_fetched lower parse_iso fetch st
    (Some (before ++ after)) calls ts ts_now.
Proof.
  intros Hne. unfold one_cycle_fetched.
  rewrite !filter_direction_filter, !filter_app, filter_cons.
  by rewrite decide_False.
Qed.

(** ** The index of current arrivals *)

Lemma index_step_NoDup curr a : NoDup curr.*1 → NoDup (index_step curr a).*1.
Proof.
  intros Hnd. unfold index_step.
  destruct (truthy (Arrival.naptanId a)); [|done].
  destruct (truthy (Arrival.vehicleId a)); [|done].
  destruct (Arrival.timeToStation a); [|done].
  by apply dset_NoDup.
Qed.

Lemma index_fold_NoDup arrivals curr :
  NoDup curr.*1 → NoDup (fold_left index_step arrivals curr).*1.
Proof.
  revert curr. induction arrivals as [|a rest IH]; intros curr Hnd; [done|].
  simpl. apply IH. by apply index_step_NoDup.
Qed.

Lemma index_fold_dget arrivals curr s v :
  dget (s, v) (fold_left index_step arrivals curr) =
    match last (readings s v arrivals) with
    | Some t => Some t
    | None => dget (s, v) curr
    end.
Proof.
  revert curr. induction arrivals as [|a rest IH]; intros curr; [done|].
  cbn [fold_left]. rewrite IH. unfold readings at 2. cbn [omap list_omap].
  fold (readings s v rest). unfold index_step.
  destruct (truthy (Arrival.naptanId a)) as [s'|]; [|done].
  destruct (truthy (Arrival.vehicleId a)) as [v'|]; [|done].
  destruct (Arrival.timeToStation a) as [t|]; [|done].
  case_decide as Hk.
  - injection Hk as -> ->. rewrite dget_dset_eq.
    destruct (readings s v rest) as [|t0 r] eqn:Hr; [done|].
    rewrite !last_cons. by destruct (last r).
  - rewrite dget_dset_ne by congruence. done.
Qed.

Lemma index_arrivals_NoDup arrivals : NoDup (index_arrivals arrivals).*1.
Proof. apply index_fold_NoDup. constructor. Qed.

Lemma index_arrivals_dget arrivals s v :
  dget (s, v) (index_arrivals arrivals) = last (readings s v arrivals).
Proof.
  unfold index_arrivals. rewrite index_fold_dget.
  by destruct (last (readings s v arrivals)).
Qed.

(** X3: the matcher's index has one entry per (stop, vehicle) pair, and
    when a batch has several records for a pair, the time-to-station of the
    last one is the one the matcher uses; a pair that no complete record of
    the batch names has no entry. *)
Theorem index_last_reading_wins arrivals s v :
  NoDup (index_arrivals arrivals).*1 ∧
  dget (s, v) (index_arrivals arrivals) = last (readings s v arrivals) ∧
  (readings s v arrivals = [] → (s, v) ∉ (index_arrivals arrivals).*1).
Proof.
  split_and!.
  - apply index_arrivals_NoDup.
  - apply index_arrivals_dget.
  - intros Hr. apply dget_None_keys. by rewrite index_arrivals_dget, Hr.
Qed.

(** ** What one pass of the matcher can and cannot do *)

Lemma index_entry_from_batch arrivals e :
  e ∈ index_arrivals arrivals →
  ∃ a, a ∈ arrivals ∧ Arrival.timeToStation a = Some e.2.
Proof.
  destruct e as [[s v] t]. intros He.
  pose proof (index_arrivals_NoDup arrivals) as Hnd.
  pose proof (index_arrivals_dget arrivals s v) as Hg.
  rewrite (dget_elem_of _ _ _ Hnd He) in Hg. symmetry in Hg.
  apply last_Some_elem_of in Hg. unfold readings in Hg.
  apply list_elem_of_omap in Hg as (a & Ha & Hm). exists a. split; [done|].
  destruct (truthy (Arrival.naptanId a)); [|done].
  destruct (truthy (Arrival.vehicleId a)); [|done].
  destruct (Arrival.timeToStation a); [|done].
  case_decide; [|done]. by injection Hm as ->.
Qed.

Lemma match_phase_far ts_now bk curr :
  (∀ e, e ∈ curr → e.2 > ARRIVAL_TTS_SEC) → match_phase ts_now bk curr = bk.
Proof.
  unfold match_phase. revert bk.
  induction curr as [|[[s v] t] curr IH]; intros bk Hfar; [done|].
  cbn [fold_left]. rewrite match_step_skip.
  - apply IH. intros e He. apply Hfar. by right.
  - left. apply (Hfar (s, v, t)). by left.
Qed.

Lemma detect_reap_only st ts_now :
  predictions (detect_arrivals_and_score st [] ts_now) =
    reap_item ts_now <$> predictions st.
Proof.
  unfold detect_arrivals_and_score, reap_phase. simpl. apply reap_stops_fst.
Qed.

Lemma reap_one_not_Matched ts_now p :
  status (reap_one ts_now p) = Matched → reap_one ts_now p = p.
Proof. unfold reap_one. by case_decide. Qed.

(** X4: observations more than 30 seconds from the stop are invisible to
    the matcher: the pass is the one of an empty batch, it scores nothing,
    and a record that is Matched after it was so before. *)
Theorem far_observations_match_nothing st arrivals ts_now :
  (∀ a t, a ∈ arrivals → Arrival.timeToStation a = Some t →
     t > ARRIVAL_TTS_SEC) →
  detect_arrivals_and_score st arrivals ts_now =
    detect_arrivals_and_score st [] ts_now ∧
  (∀ k preds, dget k (predictions st) = Some preds →
     ∃ preds',
       dget k (predictions (detect_arrivals_and_score st arrivals ts_now))
         = Some preds' ∧
       length preds' = length preds ∧
       ∀ i p', preds' !! i = Some p' → status p' = Matched →
         preds !! i = Some p') ∧
  (NoDup (predictions st).*1 →
   ∀ k,
     samples (stats_of k
       (stopStats (detect_arrivals_and_score st arrivals ts_now))) =
       samples (stats_of k (stopStats st)) ∧
     sumDriftSec (stats_of k
       (stopStats (detect_arrivals_and_score st arrivals ts_now))) =
       sumDriftSec (stats_of k (stopStats st))).
Proof.
  intros Hfar.
  assert (detect_arrivals_and_score st arrivals ts_now =
          detect_arrivals_and_score st [] ts_now) as Heq.
  { unfold detect_arrivals_and_score. rewrite match_phase_far; [done|].
    intros e He. apply index_entry_from_batch in He as (a & Ha & Ht).
    by eapply Hfar. }
  rewrite Heq. split_and!; [done| |].
  - intros k preds Hg. rewrite detect_reap_only, dget_reap_items, Hg. simpl.
    eexists. split; [done|]. split; [by rewrite length_fmap|].
    intros i p'. rewrite list_lookup_fmap.
    destruct (preds !! i) as [p|]; [|done]. simpl. intros [= <-] Hm.
    by rewrite reap_one_not_Matched.
  - intros Hnd k.
    destruct (reap_phase_stats ts_now (books st) k Hnd) as (_ & Hs & Hd & _).
    done.
Qed.

Lemma match_phase_samples ts_now curr bk k :
  samples (stats_of k (match_phase ts_now bk curr).2) ≤
    samples (stats_of k bk.2) + Z.of_nat (length (arriving_at k curr)).
Proof.
  unfold match_phase. revert bk.
  induction curr as [|[[s v] t] curr IH]; intros bk; [simpl; lia|].
  cbn [fold_left]. etransitivity; [apply IH|].
  unfold arriving_at. rewrite filter_cons. fold (arriving_at k curr).
  destruct (match_step_cases ts_now bk s v t)
    as [->|(preds & i & c & Htts & Hg & Hf)].
  - case_decide; simpl length; lia.
  - rewrite (match_step_found _ _ _ _ _ _ _ _ Htts Hg Hf). simpl.
    unfold stats_of at 1. rewrite dget_dset. case_decide as Hk.
    + subst s. rewrite decide_True by done. simpl.
      fold (stats_of k bk.2). lia.
    + fold (stats_of k bk.2). case_decide; simpl length; lia.
Qed.

(** X5: a pass records at most one sample per (stop, vehicle) pair that is
    arriving in the batch, however many records the batch has for it. *)
Theorem at_most_one_sample_per_arriving_pair st arrivals ts_now k :
  NoDup (predictions st).*1 →
  samples (stats_of k
    (stopStats (detect_arrivals_and_score st arrivals ts_now))) ≤
    samples (stats_of k (stopStats st))
    + Z.of_nat (length (arriving_at k (index_arrivals arrivals))).
Proof.
  intros Hnd.
  pose proof (match_phase_samples ts_now (index_arrivals arrivals) (books st) k)
    as Hm.
  pose proof (ledger_step_keys _ _
    (match_phase_ledger ts_now (index_arrivals arrivals) (books st))) as Hkeys.
  destruct (reap_phase_stats ts_now
              (match_phase ts_now (books st) (index_arrivals arrivals)) k)
    as (_ & Hs & _); [by rewrite Hkeys|].
  change (stopStats (detect_arrivals_and_score st arrivals ts_now)) with
    (reap_phase ts_now
       (match_phase ts_now (books st) (index_arrivals arrivals))).2.
  rewrite Hs. exact Hm.
Qed.

Lemma untouched_for_refl s v d : untouched_for s v d d.
Proof. by intros i p. Qed.

Lemma untouched_for_trans s v d1 d2 d3 :
  untouched_for s v d1 d2 → untouched_for s v d2 d3 → untouched_for s v d1 d3.
Proof. intros H12 H23 i p Hi Hv. apply H23; [|done]. by apply H12. Qed.

Lemma untouched_touched s v d1 d2 d3 :
  untouched_for s v d1 d2 → touched_once s v d2 d3 → touched_once s v d1 d3.
Proof.
  intros H12 [i0 H23]. exists i0. intros i p Hne Hi Hv.
  apply H23; [done| |done]. by apply H12.
Qed.

Lemma touched_untouched s v d1 d2 d3 :
  touched_once s v d1 d2 → untouched_for s v d2 d3 → touched_once s v d1 d3.
Proof.
  intros [i0 H12] H23. exists i0. intros i p Hne Hi Hv.
  apply H23; [|done]. by apply H12.
Qed.

(** An iteration for another pair leaves the pair's records alone, and an
    iteration for the pair changes one of them at most. *)
Lemma match_step_touch ts_now bk s' v' t s v :
  touched_once s v bk.1 (match_step ts_now bk (s', v', t)).1 ∧
  ((s', v') ≠ (s, v) →
   untouched_for s v bk.1 (match_step ts_now bk (s', v', t)).1).
Proof.
  destruct (match_step_cases ts_now bk s' v' t)
    as [->|(preds & i0 & c & Htts & Hg & Hf)].
  { split; [exists 0%nat; by intros i p|]. intros _. apply untouched_for_refl. }
  rewrite (match_step_found _ _ _ _ _ _ _ _ Htts Hg Hf). simpl.
  destruct (find_candidate_Some _ _ _ _ Hf) as (Hi0 & [_ Hv'] & _).
  assert (∀ i p, (s' = s → i ≠ i0) →
            default [] (dget s bk.1) !! i = Some p →
            default [] (dget s (dset s' (<[i0:=mark_matched c
              (ts_now + Z.max 0 t)
              (predictionTs c + timeToStation c - (ts_now + Z.max 0 t))]>
              preds) bk.1)) !! i = Some p) as Hother.
  { intros i p Hne Hi. rewrite dget_dset. case_decide; [subst s'|done].
    rewrite Hg in Hi. simpl in *. rewrite list_lookup_insert_ne; [done|].
    intros ->. by apply Hne. }
  split.
  - exists i0. intros i p Hne Hi _. by apply Hother.
  - intros Hkey i p Hi Hv. apply Hother; [|done]. intros -> ->.
    rewrite Hg in Hi. simpl in Hi. congruence.
Qed.

Lemma match_phase_untouched ts_now curr bk s v :
  (s, v) ∉ curr.*1 → untouched_for s v bk.1 (match_phase ts_now bk curr).1.
Proof.
  unfold match_phase. revert bk.
  induction curr as [|[[s' v'] t] curr IH]; intros bk Hk;
    [apply untouched_for_refl|].
  rewrite fmap_cons in Hk. apply not_elem_of_cons in Hk as [Hne Hk].
  cbn [fold_left]. eapply untouched_for_trans; [|by apply IH].
  apply match_step_touch. simpl in Hne. congruence.
Qed.

Lemma match_phase_touched_once ts_now curr bk s v :
  NoDup curr.*1 → touched_once s v bk.1 (match_phase ts_now bk curr).1.
Proof.
  unfold match_phase. revert bk.
  induction curr as [|[[s' v'] t] curr IH]; intros bk Hnd.
  { exists 0%nat. by intros i p. }
  rewrite fmap_cons in Hnd. apply NoDup_cons in Hnd as [Hk Hnd].
  cbn [fold_left]. destruct (decide ((s', v') = (s, v))) as [Heq|Hne].
  - eapply touched_untouched; [apply match_step_touch|].
    apply (match_phase_untouched ts_now curr). simpl in Hk. congruence.
  - eapply untouched_touched; [by apply match_step_touch | by apply IH].
Qed.

(** X6: in one pass at most one prediction of a vehicle at a stop goes from
    Open to Matched: two open records of the same vehicle at the same stop
    that are both Matched after the pass are one and the same. *)
Theorem one_match_per_vehicle_per_pass st arrivals ts_now s v
    preds preds' i j p q p' q' :
  dget s (predictions st) = Some preds →
  dget s (predictions (detect_arrivals_and_score st arrivals ts_now))
    = Some preds' →
  preds !! i = Some p → preds !! j = Some q →
  vehicleId p = v → vehicleId q = v →
  status p = Open → status q = Open →
  preds' !! i = Some p' → preds' !! j = Some q' →
  status p' = Matched → status q' = Matched →
  i = j.
Proof.
  intros Hg Hg' Hi Hj Hvp Hvq Hop Hoq Hi' Hj' Hmp Hmq.
  pose proof (index_arrivals_NoDup arrivals) as Hnd.
  destruct (match_phase_touched_once ts_now (index_arrivals arrivals)
              (books st) s v Hnd) as [i0 Hone].
  simpl in Hone. rewrite Hg in Hone. simpl in Hone.
  assert (predictions (detect_arrivals_and_score st arrivals ts_now) =
          reap_item ts_now <$>
            (match_phase ts_now (books st) (index_arrivals arrivals)).1) as Hfin.
  { unfold detect_arrivals_and_score, reap_phase. simpl. apply reap_stops_fst. }
  rewrite Hfin, dget_reap_items in Hg'.
  destruct (dget s (match_phase ts_now (books st) (index_arrivals arrivals)).1)
    as [mid|]; [|done].
  simpl in Hg', Hone. injection Hg' as <-.
  assert (∀ n r r', preds !! n = Some r → vehicleId r = v → status r = Open →
            (reap_one ts_now <$> mid) !! n = Some r' → status r' = Matched →
            n = i0) as Hmust.
  { intros n r r' Hn Hv Ho Hn' Hm.
    destruct (decide (n = i0)) as [|Hne]; [done|]. exfalso.
    rewrite list_lookup_fmap, (Hone n r Hne Hn Hv) in Hn'. simpl in Hn'.
    injection Hn' as <-. rewrite reap_one_not_Matched in Hm by done.
    congruence. }
  rewrite (Hmust i p p'), (Hmust j q q'); done.
Qed.

(** ** A bus first seen when it is already arriving *)




(** ** Reaping again *)

Lemma reap_one_settled ts ts' p : ts' ≤ ts → ¬ overdue ts' (reap_one ts p).
Proof.
  intros Hle. unfold reap_one. case_decide as Hov.
  - by intros [? _].
  - intros [Ho Hlate]. apply Hov. split; [done | lia].
Qed.

Lemma reap_again ts ts' (l : list Prediction) :
  ts' ≤ ts →
  reap_one ts' <$> (reap_one ts <$> l) = reap_one ts <$> l ∧
  filter (overdue ts') (reap_one ts <$> l) = [].
Proof.
  intros Hle. induction l as [|p l [IH1 IH2]]; [done|].
  rewrite !fmap_cons, filter_cons, IH1, IH2.
  rewrite decide_False by by apply reap_one_settled.
  split; [|done]. f_equal. unfold reap_one at 1.
  rewrite decide_False by by apply reap_one_settled. done.
Qed.

Lemma add_phantoms_0 s : add_phantoms s 0 = s.
Proof. destruct s. unfold add_phantoms. simpl. by rewrite Z.add_0_r. Qed.

(** X8: a match-and-reap pass with no arriving bus, at an instant not
    later than the pass before it, changes nothing: no prediction is
    reaped twice and no phantom is counted twice. *)
Theorem second_reap_changes_nothing st arrivals ts_now ts' :
  NoDup (predictions st).*1 →
  ts' ≤ ts_now →
  predictions
    (detect_arrivals_and_score
       (detect_arrivals_and_score st arrivals ts_now) [] ts') =
    predictions (detect_arrivals_and_score st arrivals ts_now) ∧
  ∀ k,
    dget k (stopStats
      (detect_arrivals_and_score
         (detect_arrivals_and_score st arrivals ts_now) [] ts')) =
    dget k (stopStats (detect_arrivals_and_score st arrivals ts_now)).
Proof.
  intros Hnd Hle.
  set (mid := match_phase ts_now (books st) (index_arrivals arrivals)).
  assert (NoDup mid.1.*1) as Hndm.
  { unfold mid. by rewrite (ledger_step_keys _ _
      (match_phase_ledger ts_now (index_arrivals arrivals) (books st))). }
  set (st1 := detect_arrivals_and_score st arrivals ts_now).
  assert (predictions st1 = reap_item ts_now <$> mid.1) as Hp1.
  { unfold st1, detect_arrivals_and_score, reap_phase. simpl.
    apply reap_stops_fst. }
  assert (∀ k, dget k (stopStats st1) =
            match dget k mid.1 with
            | Some preds =>
                Some (add_phantoms (stats_of k mid.2)
                        (length (filter (overdue ts_now) preds)))
            | None => dget k mid.2
            end) as Hs1.
  { intros k. unfold st1, detect_arrivals_and_score, reap_phase. simpl.
    by apply reap_stops_snd. }
  assert (NoDup (predictions st1).*1) as Hnd1.
  { rewrite Hp1, <- list_fmap_compose.
    by rewrite (list_fmap_ext (fst ∘ reap_item ts_now) fst mid.1). }
  split.
  - rewrite detect_reap_only, Hp1, <- list_fmap_compose.
    apply list_fmap_ext. intros _ [k l] _. unfold reap_item. simpl.
    f_equal. by apply reap_again.
  - intros k.
    change (stopStats (detect_arrivals_and_score st1 [] ts')) with
      (reap_stops ts' (predictions st1) (stopStats st1)).2.
    rewrite reap_stops_snd by done. rewrite Hp1 at 1.
    rewrite dget_reap_items.
    destruct (dget k mid.1) as [preds|] eqn:Hg; simpl; [|done].
    destruct (reap_again ts_now ts' preds Hle) as [_ ->]. simpl.
    rewrite add_phantoms_0. unfold stats_of. rewrite Hs1, Hg. done.
Qed.

(** ** Properties of records that every operation keeps *)

Lemma batch_records_new parse_iso ts k arrivals p :
  p ∈ batch_records parse_iso ts k arrivals →
  ∃ v t x, p = new_prediction v ts t x.
Proof.
  induction arrivals as [|a rest IH]; simpl; [by intros ?%elem_of_nil|].
  destruct (truthy (Arrival.naptanId a)); [|done].
  destruct (truthy (Arrival.vehicleId a)); [|done].
  destruct (Arrival.timeToStation a); [|done].
  destruct (truthy (Arrival.expectedArrival a)); [|done].
  destruct (parse_iso _); [|by intros ?%elem_of_nil].
  case_decide; [|done].
  intros [->|?]%elem_of_cons; [eauto | auto].
Qed.

Section kept.
Variable P : Prediction → Prop.
Hypothesis P_fresh : ∀ v ts t x, P (new_prediction v ts t x).
Hypothesis P_matched :
  ∀ c a, status c = Open → P c →
    P (mark_matched c a (predictionTs c + timeToStation c - a)).
Hypothesis P_phantom : ∀ c, status c = Open → P c → P (mark_phantom c).

Lemma match_step_all ts_now bk entry :
  ledger_all P bk.1 → ledger_all P (match_step ts_now bk entry).1.
Proof.
  intros Hall. destruct entry as [[s v] t].
  destruct (match_step_cases ts_now bk s v t)
    as [->|(preds & i & c & Htts & Hg & Hf)]; [done|].
  rewrite (match_step_found _ _ _ _ _ _ _ _ Htts Hg Hf). simpl.
  destruct (find_candidate_Some _ _ _ _ Hf) as (Hi & [Ho _] & _).
  intros k l. rewrite dget_dset. case_decide; [|by apply Hall].
  intros [= <-]. specialize (Hall _ _ Hg). apply Forall_insert; [done|].
  apply P_matched; [done|]. rewrite Forall_forall in Hall. apply Hall.
  by eapply list_elem_of_lookup_2.
Qed.

Lemma match_phase_all ts_now curr bk :
  ledger_all P bk.1 → ledger_all P (match_phase ts_now bk curr).1.
Proof.
  unfold match_phase. revert bk.
  induction curr as [|e curr IH]; intros bk Hall; [done|].
  cbn [fold_left]. by apply IH, match_step_all.
Qed.

Lemma reap_all ts_now d :
  ledger_all P d → ledger_all P (reap_item ts_now <$> d).
Proof.
  intros Hall k l. rewrite dget_reap_items.
  destruct (dget k d) as [l0|] eqn:Hg; [|done]. simpl. intros [= <-].
  specialize (Hall _ _ Hg). apply Forall_fmap.
  eapply Forall_impl; [done|]. intros p Hp. simpl. unfold reap_one.
  case_decide as Hov; [|done]. apply P_phantom; [apply Hov | done].
Qed.

Lemma detect_all st arrivals ts_now :
  ledger_all P (predictions st) →
  ledger_all P (predictions (detect_arrivals_and_score st arrivals ts_now)).
Proof.
  intros Hall. unfold detect_arrivals_and_score, reap_phase. simpl.
  rewrite reap_stops_fst. apply reap_all.
  by apply (match_phase_all ts_now (index_arrivals arrivals) (books st)).
Qed.

Lemma update_all parse_iso st arrivals ts :
  NoDup (predictions st).*1 →
  ledger_all P (predictions st) →
  ledger_all P
    (predictions (outcome_state (update_predictions parse_iso st arrivals ts))).
Proof.
  intros Hnd Hall k preds Hg.
  pose proof (update_predictions_default parse_iso st arrivals ts k Hnd) as Hd.
  rewrite Hg in Hd. simpl in Hd.
  assert (Forall P (default [] (dget k (predictions st))
            ++ batch_records parse_iso ts k arrivals)) as Hboth.
  { apply Forall_app. split.
    - destruct (dget k (predictions st)) eqn:Ho; simpl;
        [by eapply Hall | constructor].
    - apply Forall_forall. intros p Hp.
      apply batch_records_new in Hp as (v & t & x & ->). apply P_fresh. }
  destruct (update_predictions parse_iso st arrivals ts); rewrite Hd; [|done].
  rewrite Forall_forall in Hboth. apply Forall_forall.
  intros p [_ Hp]%list_elem_of_filter. auto.
Qed.
End kept.

Lemma pred_consistent_fresh v ts t x : pred_consistent (new_prediction v ts t x).
Proof. done. Qed.

Lemma pred_consistent_matched c a :
  status c = Open → pred_consistent c →
  pred_consistent
    (mark_matched c a (predictionTs c + timeToStation c - a)).
Proof.
  unfold pred_consistent. intros Ho. rewrite Ho. intros (Hp & _ & _).
  unfold status. simpl. rewrite Hp. eauto.
Qed.

Lemma pred_consistent_phantom c :
  status c = Open → pred_consistent c → pred_consistent (mark_phantom c).
Proof.
  unfold pred_consistent. intros Ho. rewrite Ho. intros (_ & Ha & Hd). done.
Qed.

Lemma pred_consistent_wf p : pred_consistent p → pred_wf p.
Proof.
  unfold pred_consistent, pred_wf, status.
  destruct (matched p); [done|]. intros (-> & _). done.
Qed.

(** ** What every reachable state satisfies *)

Lemma ensure_stops_NoDup fetch stops arrivals calls :
  NoDup stops.*1 → NoDup (ensure_stops fetch stops arrivals calls).1.*1.
Proof.
  revert stops calls.
  induction arrivals as [|a rest IH]; intros stops calls Hnd; simpl; [done|].
  destruct (truthy (Arrival.naptanId a)) as [s|]; [|by apply IH].
  destruct (resolved (dget s stops)); [by apply IH|].
  destruct (dget s stops) as [s0|]; destruct (fetch calls s);
    apply IH; auto using dset_NoDup.
Qed.

Lemma update_predictions_stops parse_iso st arrivals ts :
  stops (outcome_state (update_predictions parse_iso st arrivals ts)) = stops st.
Proof.
  unfold update_predictions.
  by destruct (ingest parse_iso ts arrivals (predictions st)).
Qed.

Lemma match_phase_stats_NoDup ts_now curr bk :
  NoDup bk.2.*1 → NoDup (match_phase ts_now bk curr).2.*1.
Proof.
  unfold match_phase. revert bk.
  induction curr as [|[[s v] t] curr IH]; intros bk Hnd; [done|].
  cbn [fold_left]. apply IH.
  destruct (match_step_cases ts_now bk s v t)
    as [->|(preds & i & c & Htts & Hg & Hf)]; [done|].
  rewrite (match_step_found _ _ _ _ _ _ _ _ Htts Hg Hf). simpl.
  by apply dset_NoDup.
Qed.

Lemma reap_stops_stats_NoDup ts_now items stats :
  NoDup stats.*1 → NoDup (reap_stops ts_now items stats).2.*1.
Proof.
  revert stats. induction items as [|[k preds] rest IH]; intros stats Hnd;
    [done|].
  simpl.
  pose proof (λ v, dset_dsetdefault k empty_stats v stats) as Hd.
  destruct (dsetdefault k empty_stats stats) as [s stats1]. simpl in Hd.
  destruct (reap_preds ts_now preds s) as [preds' s'].
  specialize (IH (dset k s' stats1)).
  destruct (reap_stops ts_now rest (dset k s' stats1)) as [rest' stats'].
  simpl in *. apply IH. rewrite Hd. by apply dset_NoDup.
Qed.

Lemma total_app w l1 l2 : total w (l1 ++ l2) = total w l1 + total w l2.
Proof.
  induction l1 as [|p l1 IH]; [done|].
  rewrite <- app_comm_cons, !total_cons, IH. lia.
Qed.

Lemma total_nonneg w l : (∀ p, 0 ≤ w p) → 0 ≤ total w l.
Proof.
  intros Hw. induction l as [|p l IH]; [done|].
  rewrite total_cons. specialize (Hw p). lia.
Qed.

Lemma total_filter_le w (Q : Prediction → Prop) `{∀ p, Decision (Q p)} l :
  (∀ p, 0 ≤ w p) → total w (filter Q l) ≤ total w l.
Proof.
  intros Hw. induction l as [|p l IH]; [done|].
  rewrite filter_cons. specialize (Hw p).
  case_decide; rewrite !total_cons; lia.
Qed.

Lemma total_batch parse_iso ts k arrivals w :
  (∀ p, status p = Open → w p = 0) →
  total w (batch_records parse_iso ts k arrivals) = 0.
Proof.
  intros Hw.
  assert (Forall (λ p, status p = Open)
            (batch_records parse_iso ts k arrivals)) as Hall.
  { apply Forall_forall. intros p Hp.
    by apply batch_records_ts in Hp as (_ & ? & _). }
  induction Hall as [|p l Hp _ IH]; [done|].
  rewrite total_cons, IH, (Hw p Hp). done.
Qed.

Lemma sample_weight_nonneg p : 0 ≤ sample_weight p.
Proof. unfold sample_weight. case_decide; lia. Qed.

Lemma phantom_weight_nonneg p : 0 ≤ phantom_weight p.
Proof. unfold phantom_weight. case_decide; lia. Qed.

(** Ingestion adds records that weigh nothing and eviction only removes
    weight, so the counters keep covering the ledger. *)
Lemma update_predictions_covered parse_iso st arrivals ts k w :
  NoDup (predictions st).*1 →
  (∀ p, 0 ≤ w p) → (∀ p, status p = Open → w p = 0) →
  total w (default [] (dget k (predictions
    (outcome_state (update_predictions parse_iso st arrivals ts))))) ≤
  total w (default [] (dget k (predictions st))).
Proof.
  intros Hnd Hpos Hopen.
  rewrite (update_predictions_default parse_iso st arrivals ts k Hnd).
  pose proof (total_batch parse_iso ts k arrivals w Hopen) as Hb.
  destruct (update_predictions parse_iso st arrivals ts).
  - etransitivity; [by apply total_filter_le|]. rewrite total_app. lia.
  - rewrite total_app. lia.
Qed.

Lemma detect_state_ok st arrivals ts_now :
  state_ok st → state_ok (detect_arrivals_and_score st arrivals ts_now).
Proof.
  intros (Hs & Hp & Hst & Hc & Hu).
  pose proof (match_phase_ledger ts_now (index_arrivals arrivals) (books st))
    as Hstep.
  pose proof (ledger_step_keys _ _ Hstep) as Hkeys. simpl in Hkeys.
  assert (books (detect_arrivals_and_score st arrivals ts_now) =
          reap_phase ts_now
            (match_phase ts_now (books st) (index_arrivals arrivals))) as Hbk.
  { unfold detect_arrivals_and_score, with_books, books at 1. simpl.
    by destruct (reap_phase _ _). }
  split_and!.
  - done.
  - by rewrite (ledger_step_keys _ _ (detect_ledger st arrivals ts_now)).
  - unfold detect_arrivals_and_score, reap_phase. simpl.
    apply reap_stops_stats_NoDup.
    by apply (match_phase_stats_NoDup ts_now _ (books st)).
  - apply detect_all;
      auto using pred_consistent_matched, pred_consistent_phantom.
  - intros k. rewrite Hbk.
    rewrite reap_phase_unaccounted by (by rewrite Hkeys).
    rewrite match_phase_unaccounted; [apply Hu|].
    intros k' preds Hg. eapply Forall_impl; [by eapply Hc|].
    apply pred_consistent_wf.
Qed.

Lemma update_state_ok parse_iso st arrivals ts :
  state_ok st →
  state_ok (outcome_state (update_predictions parse_iso st arrivals ts)).
Proof.
  intros (Hs & Hp & Hst & Hc & Hu). split_and!.
  - by rewrite update_predictions_stops.
  - by apply update_predictions_NoDup.
  - by rewrite update_predictions_stats.
  - apply update_all; auto using pred_consistent_fresh.
  - intros k. destruct (Hu k) as [Hu1 Hu2].
    unfold unaccounted in *. cbn [fst snd books] in *.
    rewrite update_predictions_stats.
    pose proof (update_predictions_covered parse_iso st arrivals ts k
      sample_weight Hp sample_weight_nonneg
      (λ p Ho, proj1 (open_weights p Ho))).
    pose proof (update_predictions_covered parse_iso st arrivals ts k
      phantom_weight Hp phantom_weight_nonneg
      (λ p Ho, proj2 (proj2 (open_weights p Ho)))).
    lia.
Qed.

Lemma ensure_state_ok fetch st arrivals calls :
  state_ok st → state_ok (ensure_stop_metadata fetch st arrivals calls).1.
Proof.
  intros (Hs & Hp & Hst & Hc & Hu). unfold ensure_stop_metadata.
  pose proof (ensure_stops_NoDup fetch (stops st) arrivals calls Hs) as Hn.
  destruct (ensure_stops fetch (stops st) arrivals calls) as [stops' calls'].
  split_and!; done.
Qed.

Lemma one_cycle_state_ok parse_iso fetch st arrivals calls ts ts_now :
  state_ok st →
  state_ok (outcome_state
    (one_cycle parse_iso fetch st arrivals calls ts ts_now).1).
Proof.
  intros Hok. unfold one_cycle.
  pose proof (ensure_state_ok fetch st arrivals calls Hok) as H1.
  destruct (ensure_stop_metadata fetch st arrivals calls) as [st1 calls'].
  simpl in H1.
  pose proof (update_state_ok parse_iso st1 arrivals ts H1) as H2.
  destruct (update_predictions parse_iso st1 arrivals ts) as [st2|st2];
    simpl in *; [|done].
  by apply detect_state_ok.
Qed.

Lemma main_loop_state_ok lower parse_iso fetch st calls ticks :
  state_ok st → state_ok (main_loop lower parse_iso fetch st calls ticks).1.
Proof.
  revert st calls. induction ticks as [|t ticks IH]; intros st calls Hok;
    [done|].
  cbn [main_loop].
  assert (state_ok (outcome_state
    (one_cycle_fetched lower parse_iso fetch st (feed t) calls
       (clock_update t) (clock_detect t)).1)) as H1.
  { unfold one_cycle_fetched. destruct (feed t); [|done].
    by apply one_cycle_state_ok. }
  destruct (one_cycle_fetched lower parse_iso fetch st (feed t) calls
              (clock_update t) (clock_detect t)) as [o calls'].
  by apply IH.
Qed.

Lemma empty_state_ok dir : state_ok (empty_state dir).
Proof.
  unfold state_ok, empty_state. simpl.
  split_and!;
    [constructor | constructor | constructor | by intros k preds | by intros k].
Qed.

Lemma total_sample_weight l :
  total sample_weight l =
    Z.of_nat (length (filter (λ p, status p = Matched) l)).
Proof.
  induction l as [|p l IH]; [done|].
  rewrite total_cons, filter_cons, IH. unfold sample_weight.
  case_decide; simpl length; lia.
Qed.

Lemma total_phantom_weight l :
  total phantom_weight l =
    Z.of_nat (length (filter (λ p, status p = Phantom) l)).
Proof.
  induction l as [|p l IH]; [done|].
  rewrite total_cons, filter_cons, IH. unfold phantom_weight.
  case_decide; simpl length; lia.
Qed.

Lemma state_ok_counters st k :
  state_ok st →
  Z.of_nat (length (filter (λ p, status p = Matched)
    (default [] (dget k (predictions st)))))
    ≤ samples (stats_of k (stopStats st)) ∧
  Z.of_nat (length (filter (λ p, status p = Phantom)
    (default [] (dget k (predictions st)))))
    ≤ phantoms (stats_of k (stopStats st)).
Proof.
  intros (_ & _ & _ & _ & Hu). destruct (Hu k) as [Hu1 Hu2].
  unfold unaccounted in Hu1, Hu2. cbn [fst snd books] in Hu1, Hu2.
  rewrite total_sample_weight in Hu1. rewrite total_phantom_weight in Hu2.
  lia.
Qed.

(** X9: in every state the loop reaches from a sound state, through cycles
    that return and cycles that raise, the three maps have unique keys, and
    for every stop the number of Matched records it has in the ledger is at
    most its [samples] and the number of Phantom ones at most its
    [phantoms]; so no counter is ever negative. *)
Theorem loop_counters_cover_ledger lower parse_iso fetch st calls ticks k :
  state_ok st →
  let st' := (main_loop lower parse_iso fetch st calls ticks).1 in
  let here := default [] (dget k (predictions st')) in
  NoDup (stops st').*1 ∧ NoDup (predictions st').*1 ∧
  NoDup (stopStats st').*1 ∧
  Z.of_nat (length (filter (λ p, status p = Matched) here))
    ≤ samples (stats_of k (stopStats st')) ∧
  Z.of_nat (length (filter (λ p, status p = Phantom) here))
    ≤ phantoms (stats_of k (stopStats st')) ∧
  0 ≤ samples (stats_of k (stopStats st')) ∧
  0 ≤ phantoms (stats_of k (stopStats st')).
Proof.
  intros Hok st' here.
  pose proof (main_loop_state_ok lower parse_iso fetch st calls ticks Hok)
    as Hok'.
  fold st' in Hok'. destruct (state_ok_counters st' k Hok') as [H1 H2].
  fold here in H1, H2. destruct Hok' as (Hs & Hp & Hst & _).
  split_and!; [done..|lia|lia|lia|lia].
Qed.

(** X10: in every such state a record carries what its status says: while
    Open and once Phantom neither an actual arrival nor a drift, and once
    Matched both, with the drift equal to creation instant plus
    time-to-station minus actual arrival. *)
Theorem loop_records_consistent lower parse_iso fetch st calls ticks
    k preds p :
  state_ok st →
  dget k (predictions (main_loop lower parse_iso fetch st calls ticks).1)
    = Some preds →
  p ∈ preds →
  (status p = Open → actualArrivalTs p = None ∧ driftSec p = None) ∧
  (status p = Phantom → actualArrivalTs p = None ∧ driftSec p = None) ∧
  (status p = Matched →
   ∃ a, actualArrivalTs p = Some a ∧
        driftSec p = Some (predictionTs p + timeToStation p - a)).
Proof.
  intros Hok Hg Hp.
  destruct (main_loop_state_ok lower parse_iso fetch st calls ticks Hok)
    as (_ & _ & _ & Hc & _).
  specialize (Hc _ _ Hg). rewrite Forall_forall in Hc. specialize (Hc p Hp).
  unfold pred_consistent in Hc.
  destruct (status p); split_and!; try done. by destruct Hc as (_ & ? & ?).
Qed.

(** ** More on the stop metadata cache *)

Lemma dset_keys_prefix {K V} `{EqDecision K} (k : K) (v : V) d :
  d.*1 `prefix_of` (dset k v d).*1.
Proof.
  destruct (decide (k ∈ d.*1)).
  - by rewrite dset_keys_present.
  - rewrite dset_keys_absent by done. by apply prefix_app_r.
Qed.

Lemma ensure_stops_grows fetch stops arrivals calls :
  stops.*1 `prefix_of` (ensure_stops fetch stops arrivals calls).1.*1 ∧
  calls `prefix_of` (ensure_stops fetch stops arrivals calls).2 ∧
  (∀ k, (calls_for k (ensure_stops fetch stops arrivals calls).2 ≤
         calls_for k calls + length (arrivals_at k arrivals))%nat) ∧
  (∀ a k, a ∈ arrivals → truthy (Arrival.naptanId a) = Some k →
     is_Some (dget k (ensure_stops fetch stops arrivals calls).1)).
Proof.
  revert stops calls.
  induction arrivals as [|a rest IH]; intros stops calls.
  { simpl. split_and!; [done | done | intros; lia |].
    by intros a k ?%elem_of_nil. }
  assert (∀ stops' calls',
    (∀ k', truthy (Arrival.naptanId a) = Some k' →
       is_Some (dget k' stops')) →
    ∀ a' k', a' ∈ a :: rest → truthy (Arrival.naptanId a') = Some k' →
      is_Some (dget k' (ensure_stops fetch stops' rest calls').1)) as Hnamed.
  { intros stops' calls' Ha a' k' Hin Hk'.
    destruct (IH stops' calls') as (Hp & _ & _ & Hn).
    apply elem_of_cons in Hin as [->|Hin]; [|by eapply Hn].
    apply dget_is_Some_keys. eapply elem_of_prefix; [|done].
    apply dget_is_Some_keys. by apply Ha. }
  simpl. destruct (truthy (Arrival.naptanId a)) as [s|] eqn:Hs.
  2:{ destruct (IH stops calls) as (Hp & Hc & Hn & Hd).
      split_and!; [done | done | |].
      - intros k. unfold arrivals_at. rewrite filter_cons.
        rewrite decide_False by (rewrite Hs; done). apply Hn.
      - apply (Hnamed stops calls). by intros k' [=]. }
  destruct (resolved (dget s stops)) eqn:Hres.
  { destruct (IH stops calls) as (Hp & Hc & Hn & Hd).
    split_and!; [done | done | |].
    - intros k. specialize (Hn k). unfold arrivals_at in *.
      rewrite filter_cons. case_decide; simpl length; lia.
    - apply (Hnamed stops calls). intros k' [= <-].
      destruct (dget s stops); [eauto | done]. }
  set (stub := mkStop None None _).
  set (p := match dget s stops with
            | Some s0 => (s0, stops)
            | None => (stub, dset s stub stops)
            end).
  assert (stops.*1 `prefix_of` p.2.*1 ∧ is_Some (dget s p.2)) as [Hp1 Hs1].
  { unfold p. destruct (dget s stops) eqn:Hg; simpl.
    - split; [done | by rewrite Hg].
    - split; [apply dset_keys_prefix | by rewrite dget_dset_eq]. }
  destruct p as [cur stops1]. simpl in Hp1, Hs1.
  set (stops2 := match fetch calls s with
                 | Some sp => dset s (apply_stop_point sp cur) stops1
                 | None => stops1
                 end).
  assert (stops.*1 `prefix_of` stops2.*1 ∧ is_Some (dget s stops2))
    as [Hp2 Hs2].
  { unfold stops2. destruct (fetch calls s); [|done]. split.
    - etransitivity; [done | apply dset_keys_prefix].
    - by rewrite dget_dset_eq. }
  destruct (IH stops2 (calls ++ [s])) as (Hp & Hc & Hn & Hd).
  split_and!.
  - by etransitivity.
  - etransitivity; [|done]. by apply prefix_app_r.
  - intros k. specialize (Hn k). rewrite calls_for_snoc in Hn.
    unfold arrivals_at in *. rewrite filter_cons, Hs.
    destruct (decide (s = k)) as [->|Hne].
    + rewrite decide_True by done. simpl length. lia.
    + rewrite decide_False by congruence. lia.
  - apply (Hnamed stops2 (calls ++ [s])). by intros k' [= <-].
Qed.

(** X11: in one cycle the cache never removes or reorders a stop (new stops
    go last), only adds to the log of lookups, makes at most one lookup per
    record of the batch that names the stop, and leaves an entry for every
    stop that a record of the batch names. *)
Theorem cache_only_grows fetch st arrivals calls :
  (stops st).*1 `prefix_of`
    (stops (ensure_stop_metadata fetch st arrivals calls).1).*1 ∧
  calls `prefix_of` (ensure_stop_metadata fetch st arrivals calls).2 ∧
  (∀ k, (calls_for k (ensure_stop_metadata fetch st arrivals calls).2 ≤
         calls_for k calls + length (arrivals_at k arrivals))%nat) ∧
  (∀ a k, a ∈ arrivals → truthy (Arrival.naptanId a) = Some k →
     is_Some (dget k (stops (ensure_stop_metadata fetch st arrivals calls).1))).
Proof.
  unfold ensure_stop_metadata.
  pose proof (ensure_stops_grows fetch (stops st) arrivals calls) as H.
  by destruct (ensure_stops fetch (stops st) arrivals calls).
Qed.

Lemma ensure_stops_success fetch stops arrivals calls k sp la lo :
  (∀ history, fetch history k = Some sp) →
  StopPoint.lat sp = Some la → StopPoint.lon sp = Some lo →
  resolved (dget k stops) = false →
  arrivals_at k arrivals ≠ [] →
  calls_for k (ensure_stops fetch stops arrivals calls).2 =
    (calls_for k calls + 1)%nat ∧
  ∃ s, dget k (ensure_stops fetch stops arrivals calls).1 = Some s ∧
       lat s = Some la ∧ lon s = Some lo ∧
       ∀ n, truthy (StopPoint.commonName sp) = Some n → name s = n.
Proof.
  intros Hfetch Hla Hlo. revert stops calls.
  induction arrivals as [|a rest IH]; intros stops calls Hres Hnamed; [done|].
  unfold arrivals_at in Hnamed. rewrite filter_cons in Hnamed. simpl.
  destruct (truthy (Arrival.naptanId a)) as [s|] eqn:Hs.
  2:{ rewrite decide_False in Hnamed by done. by apply IH. }
  destruct (decide (s = k)) as [->|Hne].
  - rewrite Hres, Hfetch.
    set (stub := mkStop None None _).
    set (p := match dget k stops with
              | Some s0 => (s0, stops)
              | None => (stub, dset k stub stops)
              end).
    destruct p as [cur stops1].
    set (final := apply_stop_point sp cur).
    destruct (ensure_stops_resolved fetch (dset k final stops1) rest
                (calls ++ [k]) k) as [H1 H2].
    { rewrite dget_dset_eq. unfold final. simpl. rewrite Hla, Hlo. done. }
    rewrite H1, H2, dget_dset_eq, calls_for_snoc, decide_True by done.
    split; [done|]. exists final. split_and!; [done..|].
    intros n Hn. unfold final, apply_stop_point, or_else. cbn [name].
    by rewrite Hn.
  - rewrite decide_False in Hnamed by congruence.
    destruct (resolved (dget s stops)) eqn:Hrs; [by apply IH|].
    set (stub := mkStop None None _).
    set (p := match dget s stops with
              | Some s0 => (s0, stops)
              | None => (stub, dset s stub stops)
              end).
    assert (dget k p.2 = dget k stops) as Hp.
    { unfold p. destruct (dget s stops); simpl; [done|].
      by rewrite dget_dset_ne. }
    destruct p as [cur stops1]. simpl in Hp.
    set (stops2 := match fetch calls s with
                   | Some sp0 => dset s (apply_stop_point sp0 cur) stops1
                   | None => stops1
                   end).
    assert (dget k stops2 = dget k stops) as Hp2.
    { unfold stops2. destruct (fetch calls s); [|done].
      by rewrite dget_dset_ne. }
    destruct (IH stops2 (calls ++ [s])) as [IH1 IH2];
      [by rewrite Hp2 | done |].
    rewrite IH1, calls_for_snoc, decide_False by done.
    split; [lia | done].
Qed.

(** X12: when the lookup answers with both coordinates, an unresolved stop
    named by a batch is looked up exactly once in that cycle, however many
    records name it, and ends with the coordinates of the answer, and with
    its common name if it has one. *)
Theorem lookup_success_resolves_once fetch st arrivals calls k sp la lo :
  (∀ history, fetch history k = Some sp) →
  StopPoint.lat sp = Some la → StopPoint.lon sp = Some lo →
  resolved (dget k (stops st)) = false →
  arrivals_at k arrivals ≠ [] →
  calls_for k (ensure_stop_metadata fetch st arrivals calls).2 =
    (calls_for k calls + 1)%nat ∧
  ∃ s, dget k (stops (ensure_stop_metadata fetch st arrivals calls).1) = Some s ∧
       lat s = Some la ∧ lon s = Some lo ∧
       ∀ n, truthy (StopPoint.commonName sp) = Some n → name s = n.
Proof.
  intros Hf Hla Hlo Hres Hn. unfold ensure_stop_metadata.
  pose proof (ensure_stops_success fetch (stops st) arrivals calls k sp la lo
                Hf Hla Hlo Hres Hn) as H.
  by destruct (ensure_stops fetch (stops st) arrivals calls).
Qed.

(** X13: while the lookup fails for a stop without coordinates, a cycle
    makes one lookup for every record of the batch that names the stop,
    and an entry the stop already had is left exactly as it was. *)
Theorem lookup_failure_repeats_per_record fetch st arrivals calls k :
  (∀ history, fetch history k = None) →
  resolved (dget k (stops st)) = false →
  calls_for k (ensure_stop_metadata fetch st arrivals calls).2 =
    (calls_for k calls + length (arrivals_at k arrivals))%nat ∧
  resolved (dget k (stops (ensure_stop_metadata fetch st arrivals calls).1))
    = false ∧
  (∀ s, dget k (stops st) = Some s →
     dget k (stops (ensure_stop_metadata fetch st arrivals calls).1) = Some s).
Proof.
  intros Hf Hres. unfold ensure_stop_metadata.
  pose proof (ensure_stops_failing fetch (stops st) arrivals calls k Hf Hres)
    as H.
  by destruct (ensure_stops fetch (stops st) arrivals calls).
Qed.

Lemma one_cycle_stops parse_iso fetch st arrivals calls ts ts_now :
  stops (outcome_state (one_cycle parse_iso fetch st arrivals calls ts ts_now).1)
    = (ensure_stops fetch (stops st) arrivals calls).1 ∧
  (one_cycle parse_iso fetch st arrivals calls ts ts_now).2
    = (ensure_stops fetch (stops st) arrivals calls).2.
Proof.
  unfold one_cycle, ensure_stop_metadata.
  destruct (ensure_stops fetch (stops st) arrivals calls) as [stops' calls'].
  pose proof (update_predictions_stops parse_iso
    (mkState (direction st) stops' (predictions st) (stopStats st))
    arrivals ts) as Hu.
  destruct (update_predictions parse_iso _ arrivals ts); simpl in *; done.
Qed.

(** X14: once a stop has both coordinates, no number of cycles changes its
    metadata or looks it up again. *)
Theorem resolved_stop_is_final lower parse_iso fetch st calls ticks k :
  resolved (dget k (stops st)) = true →
  dget k (stops (main_loop lower parse_iso fetch st calls ticks).1)
    = dget k (stops st) ∧
  calls_for k (main_loop lower parse_iso fetch st calls ticks).2
    = calls_for k calls.
Proof.
  revert st calls. induction ticks as [|t ticks IH]; intros st calls Hres;
    [done|].
  cbn [main_loop].
  assert (dget k (stops (outcome_state
            (one_cycle_fetched lower parse_iso fetch st (feed t) calls
               (clock_update t) (clock_detect t)).1)) = dget k (stops st) ∧
          calls_for k
            (one_cycle_fetched lower parse_iso fetch st (feed t) calls
               (clock_update t) (clock_detect t)).2 = calls_for k calls)
    as [H1 H2].
  { unfold one_cycle_fetched. destruct (feed t) as [raw|]; [|done].
    destruct (one_cycle_stops parse_iso fetch st
                (Feed.fields <$> filter_direction lower raw DIRECTION_FILTER)
                calls (clock_update t) (clock_detect t)) as [-> ->].
    by apply ensure_stops_resolved. }
  destruct (one_cycle_fetched lower parse_iso fetch st (feed t) calls
              (clock_update t) (clock_detect t)) as [o calls'].
  simpl in H1, H2. destruct (IH (outcome_state o) calls') as [IH1 IH2].
  { by rewrite H1. }
  rewrite IH1, IH2, H1, H2. done.
Qed.

(** ** Colours and rates *)

Lemma Qltb_ext x y z : (x == y)%Q → Qltb x z = Qltb y z.
Proof.
  intros Heq. destruct (Qltb y z) eqn:Hy.
  - apply Qltb_lt. apply Qltb_lt in Hy. by rewrite Heq.
  - apply Qltb_ge. apply Qltb_ge in Hy. by rewrite Heq.
Qed.

Lemma bias_color_magnitude x y :
  (Qabs x == Qabs y)%Q → bias_color x = bias_color y.
Proof.
  intros Heq. unfold bias_color.
  by rewrite (Qltb_ext _ _ (inject_Z 60) Heq),
             (Qltb_ext _ _ (inject_Z 180) Heq).
Qed.

(** X15: the colour depends on the magnitude of the drift only: a
    pessimistic and an optimistic bias of the same size get the same
    colour, and so do two representations of the same number. *)
Theorem colour_depends_on_magnitude :
  (∀ x, bias_color (- x) = bias_color x) ∧
  (∀ x y, (x == y)%Q → bias_color x = bias_color y) ∧
  (∀ x, bias_color x = green ∨ bias_color x = amber ∨ bias_color x = red).
Proof.
  split_and!.
  - intros x. apply bias_color_magnitude. apply Qabs_opp.
  - intros x y Heq. apply bias_color_magnitude. by rewrite Heq.
  - intros x. unfold bias_color. repeat case_match; auto.
Qed.

(** X16: [bias_color] returns a colour written with a leading [#] exactly
    when the magnitude of the drift is below 180: the red of the worst
    class is written without it. *)
Theorem colour_has_hash_below_180 x :
  String.prefix "#" (bias_color x) = true ↔ (Qabs x < inject_Z 180)%Q.
Proof.
  destruct (bias_color_spec x) as (Hg & Ha & Hr).
  destruct (Qlt_le_dec (Qabs x) (inject_Z 60)) as [H60|H60].
  { rewrite (Hg H60). split; [|done]. intros _.
    assert (inject_Z 60 <= inject_Z 180)%Q by done. lra. }
  destruct (Qlt_le_dec (Qabs x) (inject_Z 180)) as [H180|H180].
  { rewrite (Ha H60 H180). done. }
  rewrite (Hr H180). split; [done|]. intros Hlt. lra.
Qed.

Lemma phantom_rate_of_range s :
  0 ≤ samples s → 0 ≤ phantoms s →
  (0 <= phantom_rate_of s)%Q ∧ (phantom_rate_of s <= 1)%Q.
Proof.
  intros Hs Hp. unfold phantom_rate_of.
  assert (0 < inject_Z (Z.max 1 (samples s + phantoms s)))%Q as Hd.
  { change 0%Q with (inject_Z 0). rewrite <- Zlt_Qlt. lia. }
  split.
  - apply Qle_shift_div_l; [done|]. rewrite Qmult_0_l.
    change 0%Q with (inject_Z 0). rewrite <- Zle_Qle. lia.
  - apply Qle_shift_div_r; [done|]. rewrite Qmult_1_l.
    rewrite <- Zle_Qle. lia.
Qed.

Lemma py_round_unit x :
  (0 <= x)%Q → (x <= 1)%Q →
  (0 <= py_round x 3)%Q ∧ (py_round x 3 <= 1)%Q.
Proof.
  intros H0 H1. unfold py_round.
  change (inject_Z (10 ^ Z.of_nat 3)) with (inject_Z 1000).
  destruct (round_half_even_spec (x * inject_Z 1000)) as (Hlo & Hhi & _).
  set (z := round_half_even (x * inject_Z 1000)) in *.
  assert (0 ≤ z ∧ z ≤ 1000) as [Hz0 Hz1].
  { split.
    - assert (inject_Z (-1) < inject_Z z)%Q as Hlt.
      { change (inject_Z (-1)) with (-1)%Q. change (inject_Z 1000) with 1000%Q in *.
        lra. }
      rewrite <- Zlt_Qlt in Hlt. lia.
    - assert (inject_Z z < inject_Z 1001)%Q as Hlt.
      { change (inject_Z 1001) with 1001%Q. change (inject_Z 1000) with 1000%Q in *.
        lra. }
      rewrite <- Zlt_Qlt in Hlt. lia. }
  assert (0 < inject_Z 1000)%Q as Hd by done.
  split.
  - apply Qle_shift_div_l; [done|]. rewrite Qmult_0_l.
    change 0%Q with (inject_Z 0). by rewrite <- Zle_Qle.
  - apply Qle_shift_div_r; [done|]. rewrite Qmult_1_l. by rewrite <- Zle_Qle.
Qed.

(** X17: whatever the loop has done since a sound state, every feature of
    the snapshot has a sample count that is not negative and a phantom
    rate between 0 and 1. *)
Theorem exported_rate_is_a_rate lower parse_iso fetch st calls ticks f :
  state_ok st →
  f ∈ export_geojson (main_loop lower parse_iso fetch st calls ticks).1 →
  0 ≤ Feature.samples f ∧
  (0 <= Feature.phantomRate f)%Q ∧ (Feature.phantomRate f <= 1)%Q.
Proof.
  intros Hok Hf. unfold export_geojson in Hf.
  apply export_fold_elem in Hf
    as [Hf|(k & stop & la & lo & _ & _ & _ & ->)];
    [by apply elem_of_nil in Hf|].
  destruct (state_ok_counters _ k
              (main_loop_state_ok lower parse_iso fetch st calls ticks Hok))
    as [Hs Hp].
  assert (0 ≤ samples (stats_of k (stopStats
            (main_loop lower parse_iso fetch st calls ticks).1))) by lia.
  assert (0 ≤ phantoms (stats_of k (stopStats
            (main_loop lower parse_iso fetch st calls ticks).1))) by lia.
  simpl. split; [done|]. apply py_round_unit; by apply phantom_rate_of_range.
Qed.

(** ** A timestamp that does not parse *)

Lemma ingest_raises parse_iso ts before a after d s v t e :
  truthy (Arrival.naptanId a) = Some s →
  truthy (Arrival.vehicleId a) = Some v →
  Arrival.timeToStation a = Some t →
  truthy (Arrival.expectedArrival a) = Some e →
  parse_iso e = None →
  (∀ b e', b ∈ before → truthy (Arrival.expectedArrival b) = Some e' →
     is_Some (parse_iso e')) →
  ingest parse_iso ts (before ++ a :: after) d =
    Raised (outcome_state (ingest parse_iso ts before d)).
Proof.
  intros Hs Hv Ht He Hx. revert d.
  induction before as [|b before IH]; intros d Hok; simpl.
  { by rewrite Hs, Hv, Ht, He, Hx. }
  assert (∀ d, ingest parse_iso ts (before ++ a :: after) d =
               Raised (outcome_state (ingest parse_iso ts before d))) as IH'.
  { intros d0. apply IH. intros b0 e0 Hb. apply Hok. by right. }
  destruct (truthy (Arrival.naptanId b)); [|done].
  destruct (truthy (Arrival.vehicleId b)); [|done].
  destruct (Arrival.timeToStation b); [|done].
  destruct (truthy (Arrival.expectedArrival b)) as [e'|] eqn:He'; [|done].
  destruct (Hok b e') as [x' ->]; [by left | done | done].
Qed.

(** X18: a record with all four fields whose expected arrival does not
    parse aborts the cycle where it stands: the records before it have been
    appended, but nothing is evicted, matched, reaped or counted, and the
    records after it are not ingested. *)
Theorem unparseable_timestamp_aborts_cycle parse_iso fetch st
    before a after calls ts ts_now s v t e :
  truthy (Arrival.naptanId a) = Some s →
  truthy (Arrival.vehicleId a) = Some v →
  Arrival.timeToStation a = Some t →
  truthy (Arrival.expectedArrival a) = Some e →
  parse_iso e = None →
  (∀ b e', b ∈ before → truthy (Arrival.expectedArrival b) = Some e' →
     is_Some (parse_iso e')) →
  ∃ st',
    (one_cycle parse_iso fetch st (before ++ a :: after) calls ts ts_now).1
      = Raised st' ∧
    stopStats st' = stopStats st ∧
    (predictions st).*1 `prefix_of` (predictions st').*1 ∧
    ∀ k, default [] (dget k (predictions st')) =
         default [] (dget k (predictions st))
           ++ batch_records parse_iso ts k before.
Proof.
  intros Hs Hv Ht He Hx Hok. unfold one_cycle.
  destruct (ensure_stop_metadata_others fetch st (before ++ a :: after) calls)
    as [Hp Hst].
  destruct (ensure_stop_metadata fetch st (before ++ a :: after) calls)
    as [st1 calls']. simpl in Hp, Hst.
  unfold update_predictions.
  rewrite (ingest_raises _ _ _ _ _ _ _ _ _ _ Hs Hv Ht He Hx Hok).
  eexists. split; [done|]. simpl. rewrite Hp, Hst. split_and!; [done| |].
  - clear. generalize (predictions st).
    induction before as [|b before IH]; intros d; [done|]. simpl.
    destruct (truthy (Arrival.naptanId b)); [|done].
    destruct (truthy (Arrival.vehicleId b)); [|done].
    destruct (Arrival.timeToStation b); [|done].
    destruct (truthy (Arrival.expectedArrival b)); [|done].
    destruct (parse_iso _); [|done].
    etransitivity; [apply dset_keys_prefix | apply IH].
  - intros k. apply ingest_default.
Qed.

(** ** Every complete record adds a prediction *)

Lemma batch_records_length parse_iso ts k arrivals d d' :
  ingest parse_iso ts arrivals d = Returned d' →
  length (batch_records parse_iso ts k arrivals) =
    length (filter (complete_for k) arrivals).
Proof.
  revert d. induction arrivals as [|a rest IH]; intros d; [done|].
  simpl. rewrite filter_cons.
  destruct (truthy (Arrival.naptanId a)) as [s|] eqn:Hs.
  2:{ rewrite decide_False; [apply IH|].
      unfold complete_for. rewrite Hs. by intros [? _]. }
  destruct (truthy (Arrival.vehicleId a)) as [v|] eqn:Hv.
  2:{ rewrite decide_False; [apply IH|].
      unfold complete_for. rewrite Hv. by intros (_ & [? ?] & _). }
  destruct (Arrival.timeToStation a) as [t|] eqn:Ht.
  2:{ rewrite decide_False; [apply IH|].
      unfold complete_for. rewrite Ht. by intros (_ & _ & [? ?] & _). }
  destruct (truthy (Arrival.expectedArrival a)) as [e|] eqn:He.
  2:{ rewrite decide_False; [apply IH|].
      unfold complete_for. rewrite He. by intros (_ & _ & _ & [? ?]). }
  destruct (parse_iso e) as [x|]; [|done]. intros Hr.
  destruct (decide (s = k)) as [->|Hne].
  - rewrite decide_True.
    + simpl. f_equal. by eapply IH.
    + unfold complete_for. rewrite Hs, Hv, Ht, He. split_and!; eauto.
  - rewrite decide_False; [by eapply IH|].
    unfold complete_for. rewrite Hs. intros [[= ?] _]. done.
Qed.

Lemma filter_keeps_all {A} (Q : A → Prop) `{∀ x, Decision (Q x)} (l : list A) :
  Forall Q l → filter Q l = l.
Proof.
  induction 1 as [|x l Hx _ IH]; [done|].
  rewrite filter_cons. rewrite decide_True by done. by rewrite IH.
Qed.

(** X19: a call of [update_predictions] that returns leaves, at the end of
    each stop's sequence, one new open prediction for every record of the
    batch with the four fields that names the stop, whether or not the
    vehicle already has an open prediction there; the new predictions are
    never evicted by the call that created them. *)
Theorem every_complete_record_adds_a_prediction parse_iso st arrivals ts st' k :
  NoDup (predictions st).*1 →
  update_predictions parse_iso st arrivals ts = Returned st' →
  ∃ added,
    default [] (dget k (predictions st')) =
      filter (young ts) (default [] (dget k (predictions st))) ++ added ∧
    length added = length (filter (complete_for k) arrivals) ∧
    Forall (λ p, status p = Open ∧ predictionTs p = ts ∧
                 actualArrivalTs p = None ∧ driftSec p = None) added.
Proof.
  intros Hnd Hupd.
  pose proof (update_predictions_default parse_iso st arrivals ts k Hnd) as Hd.
  rewrite Hupd in Hd. simpl in Hd.
  exists (batch_records parse_iso ts k arrivals). split_and!.
  - rewrite Hd, filter_app. f_equal. apply filter_keeps_all.
    apply Forall_forall. intros q Hq.
    apply batch_records_ts in Hq as (Hq & _).
    unfold young, PREDICTION_MAX_AGE_SEC. lia.
  - unfold update_predictions in Hupd.
    destruct (ingest parse_iso ts arrivals (predictions st)) eqn:Hi; [|done].
    by eapply batch_records_length.
  - apply Forall_forall. intros p Hp.
    pose proof (batch_records_new _ _ _ _ _ Hp) as (v & t & x & ->).
    done.
Qed.

(** ** The prediction an arriving bus creates for itself *)


(** ** Creation order in every reachable state *)

Lemma ledger_before_mono t t' d :
  t ≤ t' → ledger_before t d → ledger_before t' d.
Proof. intros Hle Hb k preds p Hg Hp. specialize (Hb k preds p Hg Hp). lia. Qed.

Lemma update_ordered parse_iso st arrivals ts :
  NoDup (predictions st).*1 →
  ledger_ordered (predictions st) → ledger_before ts (predictions st) →
  ledger_ordered
    (predictions (outcome_state (update_predictions parse_iso st arrivals ts))) ∧
  ledger_before ts
    (predictions (outcome_state (update_predictions parse_iso st arrivals ts))).
Proof.
  intros Hnd Hord Hbef.
  assert (∀ k preds,
    dget k (predictions (outcome_state
      (update_predictions parse_iso st arrivals ts))) = Some preds →
    creation_ordered preds ∧ ∀ p, p ∈ preds → predictionTs p ≤ ts) as Hboth.
  { intros k preds Hg.
    pose proof (update_predictions_default parse_iso st arrivals ts k Hnd) as Hd.
    rewrite Hg in Hd. simpl in Hd.
    set (old := default [] (dget k (predictions st))) in *.
    set (new := batch_records parse_iso ts k arrivals) in *.
    assert (creation_ordered old ∧ ∀ p, p ∈ old → predictionTs p ≤ ts)
      as [Hso Hbo].
    { unfold old. destruct (dget k (predictions st)) as [l|] eqn:Ho; simpl.
      - split; [by eapply Hord | intros p Hp; by eapply Hbef].
      - split; [constructor | by intros p ?%elem_of_nil]. }
    assert (creation_ordered (old ++ new) ∧
            ∀ p, p ∈ old ++ new → predictionTs p ≤ ts) as [Hs Hb].
    { split.
      - apply StronglySorted_app_2; [|done|].
        + intros p q Hp Hq. apply batch_records_ts in Hq as [-> _]. auto.
        + apply (creation_ordered_same_instant ts).
          intros p Hp. by apply batch_records_ts in Hp as [? _].
      - intros p [Hp|Hp]%elem_of_app; [auto|].
        apply batch_records_ts in Hp as [-> _]. lia. }
    destruct (update_predictions parse_iso st arrivals ts); rewrite Hd.
    - split; [by apply creation_ordered_filter|].
      intros p [_ Hp]%list_elem_of_filter. auto.
    - done. }
  split.
  - intros k preds Hg. by destruct (Hboth _ _ Hg).
  - intros k preds p Hg Hp. destruct (Hboth _ _ Hg) as [_ Hb]. auto.
Qed.

Lemma detect_ordered st arrivals ts_now t :
  ledger_ordered (predictions st) → ledger_before t (predictions st) →
  ledger_ordered (predictions (detect_arrivals_and_score st arrivals ts_now)) ∧
  ledger_before t (predictions (detect_arrivals_and_score st arrivals ts_now)).
Proof.
  intros Hord Hbef.
  pose proof (detect_ledger st arrivals ts_now) as Hdet. split.
  - intros k preds' Hg'.
    destruct (ledger_step_dget_r _ _ _ _ Hdet Hg') as (preds & Hg & Hl).
    eapply creation_ordered_steps; [done|]. by eapply Hord.
  - intros k preds' p' Hg' Hp'.
    destruct (ledger_step_dget_r _ _ _ _ Hdet Hg') as (preds & Hg & Hl).
    apply list_elem_of_lookup in Hp' as [i Hi].
    destruct (Forall2_lookup_r _ _ _ _ _ Hl Hi) as (p & Hp & Hstep).
    rewrite (origin_predictionTs _ _ (pred_step_origin _ _ Hstep)).
    eapply Hbef; [done|]. by eapply list_elem_of_lookup_2.
Qed.

Lemma one_cycle_ordered parse_iso fetch st arrivals calls ts ts_now :
  NoDup (predictions st).*1 →
  ledger_ordered (predictions st) → ledger_before ts (predictions st) →
  let st' := outcome_state
    (one_cycle parse_iso fetch st arrivals calls ts ts_now).1 in
  NoDup (predictions st').*1 ∧
  ledger_ordered (predictions st') ∧ ledger_before ts (predictions st').
Proof.
  intros Hnd Hord Hbef. unfold one_cycle.
  destruct (ensure_stop_metadata_others fetch st arrivals calls) as [Hp _].
  destruct (ensure_stop_metadata fetch st arrivals calls) as [st1 calls'].
  simpl in Hp. rewrite <- Hp in Hnd, Hord, Hbef.
  pose proof (update_predictions_NoDup parse_iso st1 arrivals ts Hnd) as Hn2.
  destruct (update_ordered parse_iso st1 arrivals ts Hnd Hord Hbef)
    as [Ho2 Hb2].
  destruct (update_predictions parse_iso st1 arrivals ts) as [st2|st2];
    cbn [outcome_state fst] in *; [|done].
  destruct (detect_ordered st2 arrivals ts_now ts Ho2 Hb2) as [Ho3 Hb3].
  split; [|done].
  by rewrite (ledger_step_keys _ _ (detect_ledger st2 arrivals ts_now)).
Qed.

(** X21: as long as the clock read by [update_predictions] never goes
    back, every stop's sequence is in creation order in every state the
    loop reaches, whether cycles return or raise. *)
Theorem loop_keeps_creation_order lower parse_iso fetch st calls ticks t0 :
  NoDup (predictions st).*1 →
  ledger_ordered (predictions st) →
  ledger_before t0 (predictions st) →
  clock_never_back t0 ticks →
  ledger_ordered
    (predictions (main_loop lower parse_iso fetch st calls ticks).1).
Proof.
  revert st calls t0.
  induction ticks as [|t ticks IH]; intros st calls t0 Hnd Hord Hbef Hclk;
    [done|].
  destruct Hclk as [Hle Hclk]. cbn [main_loop].
  assert (let st' := outcome_state
            (one_cycle_fetched lower parse_iso fetch st (feed t) calls
               (clock_update t) (clock_detect t)).1 in
          NoDup (predictions st').*1 ∧ ledger_ordered (predictions st') ∧
          ledger_before (clock_update t) (predictions st'))
    as (Hn1 & Ho1 & Hb1).
  { apply (ledger_before_mono _ _ _ Hle) in Hbef.
    unfold one_cycle_fetched. destruct (feed t) as [raw|]; [|done].
    by apply one_cycle_ordered. }
  destruct (one_cycle_fetched lower parse_iso fetch st (feed t) calls
              (clock_update t) (clock_detect t)) as [o calls'].
  by eapply IH.
Qed.

(** * Worked instances of the further properties *)

Lemma other_direction_has_no_effect_witness :
  ¬ same_direction lower_string DIRECTION_FILTER outbound_record ∧
  one_cycle_fetched lower_string demo_parse fetch_down demo_state
    (Some ([inbound_record] ++ outbound_record :: [])) [] 290 290 =
  one_cycle_fetched lower_string demo_parse fetch_down demo_state
    (Some ([inbound_record] ++ [])) [] 290 290.
Proof.
  assert (¬ same_direction lower_string DIRECTION_FILTER outbound_record) as H1.
  { intros H. vm_compute in H. discriminate H. }
  split; [done|].
  apply (other_direction_has_no_effect lower_string demo_parse fetch_down
           demo_state [inbound_record] outbound_record [] [] 290 290 H1).
Defined.

Lemma far_observations_match_nothing_witness :
  (∀ a t, a ∈ [seen_far] → Arrival.timeToStation a = Some t →
     t > ARRIVAL_TTS_SEC) ∧
  detect_arrivals_and_score demo_state [seen_far] 290 =
    detect_arrivals_and_score demo_state [] 290.
Proof.
  assert (∀ a t, a ∈ [seen_far] → Arrival.timeToStation a = Some t →
            t > ARRIVAL_TTS_SEC) as H1.
  { intros a t Ha Ht. apply list_elem_of_singleton in Ha. subst a.
    injection Ht as <-. unfold ARRIVAL_TTS_SEC. lia. }
  split; [done|].
  by destruct (far_observations_match_nothing demo_state [seen_far] 290 H1).
Defined.

Lemma at_most_one_sample_per_arriving_pair_witness :
  NoDup (predictions demo_state).*1 ∧
  samples (stats_of stop_A
    (stopStats (detect_arrivals_and_score demo_state
       [seen_near; seen_near_no_eta] 290))) ≤ 1 + 1.
Proof.
  assert (NoDup (predictions demo_state).*1) as H1 by (apply NoDup_singleton).
  split; [done|].
  apply (at_most_one_sample_per_arriving_pair demo_state
           [seen_near; seen_near_no_eta] 290 stop_A H1).
Defined.

Lemma one_match_per_vehicle_per_pass_witness :
  dget stop_A (predictions demo_state) = Some [sighting_0; sighting_60] ∧
  dget stop_A
    (predictions (detect_arrivals_and_score demo_state [seen_near] 290))
    = Some [scored_0; sighting_60] ∧
  status scored_0 = Matched ∧
  0%nat = 0%nat.
Proof.
  assert (dget stop_A (predictions demo_state)
          = Some [sighting_0; sighting_60]) as H1 by reflexivity.
  assert (dget stop_A
            (predictions (detect_arrivals_and_score demo_state [seen_near] 290))
          = Some [scored_0; sighting_60]) as H2 by reflexivity.
  assert (status scored_0 = Matched) as H3 by reflexivity.
  split_and!; [done..|].
  apply (one_match_per_vehicle_per_pass demo_state [seen_near] 290 stop_A bus_1
           [sighting_0; sighting_60] [scored_0; sighting_60] 0 0
           sighting_0 sighting_0 scored_0 scored_0
           H1 H2 eq_refl eq_refl eq_refl eq_refl eq_refl eq_refl
           eq_refl eq_refl H3 H3).
Defined.


Lemma second_reap_changes_nothing_witness :
  NoDup (predictions demo_state).*1 ∧ 700 ≤ 700 ∧
  predictions
    (detect_arrivals_and_score
       (detect_arrivals_and_score demo_state [seen_near] 700) [] 700) =
    predictions (detect_arrivals_and_score demo_state [seen_near] 700).
Proof.
  assert (NoDup (predictions demo_state).*1) as H1 by (apply NoDup_singleton).
  assert (700 ≤ 700) as H2 by lia.
  split_and!; [done..|].
  by destruct (second_reap_changes_nothing demo_state [seen_near] 700 700 H1 H2).
Defined.

Lemma loop_counters_cover_ledger_witness :
  state_ok (empty_state "inbound") ∧
  dget stop_A (predictions after_demo_ticks) =
    Some [scored_0; new_prediction bus_1 290 8 298] ∧
  Z.of_nat (length (filter (λ p, status p = Matched)
    (default [] (dget stop_A (predictions after_demo_ticks)))))
    ≤ samples (stats_of stop_A (stopStats after_demo_ticks)) ∧
  0 ≤ phantoms (stats_of stop_A (stopStats after_demo_ticks)).
Proof.
  pose proof (empty_state_ok "inbound") as H1.
  split_and!; [done | reflexivity | |].
  - by destruct (loop_counters_cover_ledger lower_string demo_parse fetch_down
                   (empty_state "inbound") [] demo_ticks stop_A H1)
      as (_ & _ & _ & ? & _).
  - by destruct (loop_counters_cover_ledger lower_string demo_parse fetch_down
                   (empty_state "inbound") [] demo_ticks stop_A H1)
      as (_ & _ & _ & _ & _ & _ & ?).
Defined.

Lemma loop_records_consistent_witness :
  state_ok (empty_state "inbound") ∧
  dget stop_A (predictions after_demo_ticks) =
    Some [scored_0; new_prediction bus_1 290 8 298] ∧
  scored_0 ∈ [scored_0; new_prediction bus_1 290 8 298] ∧
  status scored_0 = Matched ∧
  ∃ a, actualArrivalTs scored_0 = Some a ∧
       driftSec scored_0 =
         Some (predictionTs scored_0 + timeToStation scored_0 - a).
Proof.
  pose proof (empty_state_ok "inbound") as H1.
  assert (dget stop_A (predictions after_demo_ticks) =
          Some [scored_0; new_prediction bus_1 290 8 298]) as H2 by reflexivity.
  assert (scored_0 ∈ [scored_0; new_prediction bus_1 290 8 298]) as H3
    by left.
  assert (status scored_0 = Matched) as H4 by reflexivity.
  split_and!; [done..|].
  destruct (loop_records_consistent lower_string demo_parse fetch_down
              (empty_state "inbound") [] demo_ticks stop_A _ scored_0 H1 H2 H3)
    as (_ & _ & Hm).
  by apply Hm.
Defined.

Lemma lookup_success_resolves_once_witness :
  resolved (dget stop_A (stops (empty_state "inbound"))) = false ∧
  arrivals_at stop_A [seen_far; seen_other_bus] ≠ [] ∧
  calls_for stop_A
    (ensure_stop_metadata fetch_up (empty_state "inbound")
       [seen_far; seen_other_bus] []).2 = 1%nat.
Proof.
  assert (resolved (dget stop_A (stops (empty_state "inbound"))) = false) as H1
    by reflexivity.
  assert (arrivals_at stop_A [seen_far; seen_other_bus] ≠ []) as H2
    by (vm_compute; discriminate).
  split_and!; [done..|].
  by destruct (lookup_success_resolves_once fetch_up (empty_state "inbound")
                 [seen_far; seen_other_bus] [] stop_A _ _ _
                 (λ _, eq_refl) eq_refl eq_refl H1 H2).
Defined.

Lemma lookup_failure_repeats_per_record_witness :
  resolved (dget stop_A (stops (empty_state "inbound"))) = false ∧
  calls_for stop_A
    (ensure_stop_metadata fetch_down (empty_state "inbound")
       [seen_far; seen_other_bus] []).2 = 2%nat.
Proof.
  assert (resolved (dget stop_A (stops (empty_state "inbound"))) = false) as H1
    by reflexivity.
  split; [done|].
  by destruct (lookup_failure_repeats_per_record fetch_down
                 (empty_state "inbound") [seen_far; seen_other_bus] [] stop_A
                 (λ _, eq_refl) H1).
Defined.

Lemma resolved_stop_is_final_witness :
  resolved (dget stop_A (stops demo_state)) = true ∧
  dget stop_A
    (stops (main_loop lower_string demo_parse fetch_up demo_state []
              demo_ticks).1)
    = dget stop_A (stops demo_state) ∧
  calls_for stop_A
    (main_loop lower_string demo_parse fetch_up demo_state [] demo_ticks).2
    = 0%nat.
Proof.
  assert (resolved (dget stop_A (stops demo_state)) = true) as H1
    by reflexivity.
  split; [done|].
  apply (resolved_stop_is_final lower_string demo_parse fetch_up demo_state []
           demo_ticks stop_A H1).
Defined.

Lemma exported_rate_is_a_rate_witness :
  state_ok (empty_state "inbound") ∧
  ∃ f,
    f ∈ export_geojson
          (main_loop lower_string demo_parse fetch_up
             (empty_state "inbound") [] demo_ticks).1 ∧
    0 ≤ Feature.samples f ∧
    (0 <= Feature.phantomRate f)%Q ∧ (Feature.phantomRate f <= 1)%Q.
Proof.
  pose proof (empty_state_ok "inbound") as H1. split; [done|].
  assert (∃ f, f ∈ export_geojson
                 (main_loop lower_string demo_parse fetch_up
                    (empty_state "inbound") [] demo_ticks).1) as [f H2]
    by (vm_compute; eexists; left).
  exists f. split; [done|].
  apply (exported_rate_is_a_rate lower_string demo_parse fetch_up
           (empty_state "inbound") [] demo_ticks f H1 H2).
Defined.

Lemma unparseable_timestamp_aborts_cycle_witness :
  demo_parse "soon" = None ∧
  (∀ b e', b ∈ [seen_far] → truthy (Arrival.expectedArrival b) = Some e' →
     is_Some (demo_parse e')) ∧
  ∃ st',
    (one_cycle demo_parse fetch_down demo_state
       ([seen_far] ++ seen_garbled :: [seen_near]) [] 290 290).1 = Raised st' ∧
    stopStats st' = stopStats demo_state.
Proof.
  assert (demo_parse "soon" = None) as H1 by reflexivity.
  assert (∀ b e', b ∈ [seen_far] →
            truthy (Arrival.expectedArrival b) = Some e' →
            is_Some (demo_parse e')) as H2.
  { intros b e' Hb He. apply list_elem_of_singleton in Hb. subst b.
    injection He as <-. by eexists. }
  split_and!; [done..|].
  destruct (unparseable_timestamp_aborts_cycle demo_parse fetch_down demo_state
              [seen_far] seen_garbled [seen_near] [] 290 290
              stop_A bus_1 8 "soon" eq_refl eq_refl eq_refl eq_refl H1 H2)
    as (st' & Ha & Hb & _).
  by exists st'.
Defined.

Lemma every_complete_record_adds_a_prediction_witness :
  NoDup (predictions demo_state).*1 ∧
  update_predictions demo_parse demo_state [seen_near; seen_near_no_eta; seen_far] 290
    = Returned (outcome_state
        (update_predictions demo_parse demo_state
           [seen_near; seen_near_no_eta; seen_far] 290)) ∧
  ∃ added,
    default [] (dget stop_A (predictions (outcome_state
      (update_predictions demo_parse demo_state
         [seen_near; seen_near_no_eta; seen_far] 290)))) =
      filter (young 290) [sighting_0; sighting_60] ++ added ∧
    length added = 2%nat.
Proof.
  assert (NoDup (predictions demo_state).*1) as H1 by (apply NoDup_singleton).
  assert (update_predictions demo_parse demo_state
            [seen_near; seen_near_no_eta; seen_far] 290
          = Returned (outcome_state
              (update_predictions demo_parse demo_state
                 [seen_near; seen_near_no_eta; seen_far] 290))) as H2
    by reflexivity.
  split_and!; [done..|].
  destruct (every_complete_record_adds_a_prediction demo_parse demo_state
              [seen_near; seen_near_no_eta; seen_far] 290 _ stop_A H1 H2)
    as (added & Ha & Hb & _).
  exists added. split; [exact Ha | exact Hb].
Defined.


Lemma loop_keeps_creation_order_witness :
  NoDup (predictions (empty_state "inbound")).*1 ∧
  ledger_ordered (predictions (empty_state "inbound")) ∧
  ledger_before 0 (predictions (empty_state "inbound")) ∧
  clock_never_back 0 demo_ticks ∧
  ledger_ordered (predictions after_demo_ticks).
Proof.
  assert (NoDup (predictions (empty_state "inbound")).*1) as H1 by constructor.
  assert (ledger_ordered (predictions (empty_state "inbound"))) as H2
    by (by intros k preds).
  assert (ledger_before 0 (predictions (empty_state "inbound"))) as H3
    by (by intros k preds p).
  assert (clock_never_back 0 demo_ticks) as H4 by (simpl; lia).
  split_and!; [done..|].
  apply (loop_keeps_creation_order lower_string demo_parse fetch_down
           (empty_state "inbound") [] demo_ticks 0 H1 H2 H3 H4).
Defined.
